(** * Coordinate assignment and component reassembly (OGDF)

    A shallow embedding of two engines of the Open Graph Drawing Framework:

    - [LongestPath]: the constructive heuristic of
      [ogdf/orthogonal/LongestPathCompaction.h], which assigns coordinates by
      relaxing a constraint DAG;
    - [Splitter]: [ogdf/packing/ComponentSplitterLayout.cpp], which lays out
      every connected component on its own, finds a small oriented box for it
      with rotating calipers and writes the packed, rotated drawing back.

    Conventions.  An [int] is a [Z]; where the C++ code would leave the range of
    a 32 bit [int] (a conversion from [double], an addition), or reads the
    front of an empty list or an array out of range, the model returns [None].
    A [double] is an exact rational [Q]: rounding, infinities and NaN are
    outside the model ([x / 0] is 0, as in [Q]; the only division of the code
    is by the number of points of a component).  Where a property turns on
    the rounding itself, [SplitterDouble] has the lines concerned once more
    over binary64 numbers.  The functions of the C
    library ([atan2], [cos], [sin], [sqrt]), the convex hull and the graph
    classes are collaborators the code is parametric in.  Arrays indexed by
    nodes or edges are total functions. *)

From Stdlib Require Import List ZArith Lia Bool Arith PeanoNat.
From Stdlib Require Import QArith Qround Lqa.
From Stdlib Require Floats Uint63.
Import ListNotations.

Set Implicit Arguments.

(* ================================================================= *)
(** * Longest-path compaction *)

Module LongestPath.

Local Open Scope Z_scope.

Definition node := nat.

(** An arc of the constraint graph with its minimum length. *)
Record arc := mkArc { source : node; target : node; len : Z }.

(** [CompactionConstraintGraph<int>]: the segments of one axis and the
    minimum-separation arcs between them. *)
Record CompactionConstraintGraph := mkGraph {
  nodes : list node;
  arcs : list arc
}.

(** [NodeArray<int>] with its assignment. *)
Definition NodeArray := node -> Z.

Definition assign (pos : NodeArray) (v : node) (c : Z) : NodeArray :=
  fun w => if Nat.eqb w v then c else pos w.

Section Relaxation.

Variable D : CompactionConstraintGraph.

Definition incoming (v : node) : list arc :=
  filter (fun e => Nat.eqb (target e) v) (arcs D).

(** Modelled from the spec: the coordinate a node gets, "max over incoming
    edges of (predecessor coordinate + edge length), or 0 if none". *)
Definition maxIncoming (pos : NodeArray) (v : node) : Z :=
  match map (fun e => pos (source e) + len e) (incoming v) with
  | [] => 0
  | c :: cs => fold_left Z.max cs c
  end.

(** A node can be processed once all its predecessors have been. *)
Definition ready (done : list node) (v : node) : bool :=
  forallb (fun e => existsb (Nat.eqb (source e)) done) (incoming v).

(** Modelled from the spec: the body of
    [LongestPathCompaction::constructiveHeuristics] (the header declares it,
    LongestPathCompaction.cpp is not among the sources).  "Topological
    relaxation over the DAG: process nodes in topological order; a node's
    coordinate = max over incoming edges of (predecessor coordinate + edge
    length), or 0 if none."  The next node is the first one of [todo] whose
    predecessors all are [done]; a graph on which no such order exists is the
    fatal error, [None]. *)
Fixpoint relaxation (fuel : nat) (todo done : list node) (pos : NodeArray)
  : option NodeArray :=
  match todo with
  | [] => Some pos
  | _ :: _ =>
    match fuel with
    | O => None
    | S fuel' =>
      match find (ready done) todo with
      | None => None
      | Some v =>
        relaxation fuel' (remove Nat.eq_dec v todo) (v :: done)
                   (assign pos v (maxIncoming pos v))
      end
    end
  end.

(** Modelled from the spec: [constructiveHeuristics] on the constraint graph
    of one axis, all coordinates 0 at the start. *)
Definition constructiveHeuristics : option NodeArray :=
  relaxation (List.length (nodes D)) (nodes D) [] (fun _ => 0).

(** Every arc joins two nodes of the graph. *)
Definition wellFormed : Prop :=
  forall e, In e (arcs D) -> In (source e) (nodes D) /\ In (target e) (nodes D).

(** [walk u v]: a non-empty directed walk from [u] to [v]. *)
Inductive walk : node -> node -> Prop :=
| walk_arc e : In e (arcs D) -> walk (source e) (target e)
| walk_step e w : In e (arcs D) -> walk (target e) w -> walk (source e) w.

Definition acyclic : Prop := forall v, ~ walk v v.

(** Every constraint holds. *)
Definition feasible (pos : NodeArray) : Prop :=
  forall e, In e (arcs D) -> pos (target e) - pos (source e) >= len e.

(** ** Notions the correctness proof speaks in *)

(** [chain l]: consecutive elements of [l] are joined by arcs. *)
Fixpoint chain (l : list node) : Prop :=
  match l with
  | a :: (b :: _) as t =>
      (exists e, In e (arcs D) /\ source e = a /\ target e = b) /\ chain t
  | _ => True
  end.

(** [processed done]: [done] lists nodes latest first, each after all its
    predecessors. *)
Fixpoint processed (done : list node) : Prop :=
  match done with
  | [] => True
  | v :: rest =>
      (forall e, In e (incoming v) -> In (source e) rest) /\
      ~ In v rest /\ processed rest
  end.

(** The invariant of the relaxation loop. *)
Record Inv (todo done : list node) (pos : NodeArray) : Prop := mkInv {
  inv_cover : forall v, In v (nodes D) -> In v todo \/ In v done;
  inv_todo : forall v, In v todo -> ~ In v done;
  inv_order : processed done;
  inv_fix : forall v, In v done -> pos v = maxIncoming pos v
}.

End Relaxation.

(** ** The options of the class *)

(** The members of [LongestPathCompaction]: the two options, and the list of
    pseudo-sources and the pseudo-component of a node that the heuristics
    work in. *)
Record LongestPathCompaction := mkLongestPathCompaction {
  m_tighten : bool;
  m_maxImprovementSteps : Z;
  m_pseudoSources : list node;
  m_component : NodeArray
}.

(** [void tighten(bool select)] and [bool tighten() const]. *)
Definition set_tighten (self : LongestPathCompaction) (select : bool)
  : LongestPathCompaction :=
  mkLongestPathCompaction select (m_maxImprovementSteps self)
                          (m_pseudoSources self) (m_component self).

Definition tighten (self : LongestPathCompaction) : bool := m_tighten self.

(** [void maxImprovementSteps(int maxSteps)] and
    [int maxImprovementSteps() const]. *)
Definition set_maxImprovementSteps (self : LongestPathCompaction) (maxSteps : Z)
  : LongestPathCompaction :=
  mkLongestPathCompaction (m_tighten self) maxSteps
                          (m_pseudoSources self) (m_component self).

Definition maxImprovementSteps (self : LongestPathCompaction) : Z :=
  m_maxImprovementSteps self.

(** A call of one of the two setters, and a sequence of such calls. *)
Inductive optionCall :=
| Tighten (select : bool)
| MaxImprovementSteps (maxSteps : Z).

Definition setOption (self : LongestPathCompaction) (c : optionCall)
  : LongestPathCompaction :=
  match c with
  | Tighten select => set_tighten self select
  | MaxImprovementSteps maxSteps => set_maxImprovementSteps self maxSteps
  end.

Definition setOptions (self : LongestPathCompaction) (calls : list optionCall)
  : LongestPathCompaction :=
  fold_left setOption calls self.

(** ** The scratch state of the improvement heuristic *)

(** "Slack: for edge (u,v,len), pos(v) - pos(u) - len; zero means tight." *)
Definition slack (pos : NodeArray) (e : arc) : Z :=
  pos (target e) - pos (source e) - len e.

(** Whether [u] and [v] are linked by at most [n] zero-slack arcs of [D],
    each followed in either direction. *)
Fixpoint linked (D : CompactionConstraintGraph) (pos : NodeArray) (n : nat)
  (u v : node) : bool :=
  Nat.eqb u v ||
  match n with
  | O => false
  | S n' =>
    existsb (fun e =>
               (slack pos e =? 0) &&
               ((Nat.eqb (source e) u && linked D pos n' (target e) v) ||
                (Nat.eqb (target e) u && linked D pos n' (source e) v)))
            (arcs D)
  end.

(** Modelled from the spec: the pseudo-component of a node, "maximal set of
    nodes linked by zero-slack (tight) edges" (LongestPathCompaction.cpp,
    which computes it, is not among the sources).  A pseudo-component is
    named by the least of its nodes. *)
Definition pseudoComponent (D : CompactionConstraintGraph) (pos : NodeArray)
  : NodeArray :=
  fun v =>
    Z.of_nat (fold_left
                (fun m u => if linked D pos (List.length (nodes D)) u v
                            then Nat.min m u else m)
                (nodes D) v).


Section Tightening.

(** The spec names the list of pseudo-sources and the rigid shift of the
    pseudo-components, and defines neither the nodes of the list nor the
    distance of the shift: the model takes both as given. *)
Variable pseudoSources : CompactionConstraintGraph -> NodeArray -> list node.
Variable shift :
  CompactionConstraintGraph -> list node -> NodeArray -> NodeArray -> NodeArray.






End Tightening.

End LongestPath.

(* ================================================================= *)
(** * Splitting, boxing and packing the connected components *)

Module Splitter.

Local Open Scope Q_scope.

Definition node := nat.
Definition edge := nat.

(** [GenericPoint<T>] with its instances [DPoint] and [IPoint]. *)
Record GenericPoint (T : Type) := mkPoint { m_x : T; m_y : T }.
Definition DPoint := GenericPoint Q.
Definition IPoint := GenericPoint Z.
Definition DPolyline := list DPoint.
Definition DPolygon := list DPoint.

(** ** Numbers *)

(** [a < b] and [a <= b] on doubles. *)
Definition Qltb (a b : Q) : bool := negb (Qle_bool b a).
Definition Qleb (a b : Q) : bool := Qle_bool a b.

(** [std::numeric_limits<double>::max()], the largest finite double.  A
    product beyond it is the infinity of double arithmetic, which compares
    above it there as the exact product does here; the one exception is a
    product less than half a unit in the last place beyond it, which double
    arithmetic rounds to this number itself. *)
Definition DBL_MAX : Q := inject_Z ((2 ^ 53 - 1) * 2 ^ 971).

Definition INT_MIN : Z := (- 2 ^ 31)%Z.
Definition INT_MAX : Z := (2 ^ 31 - 1)%Z.
Definition in_int (n : Z) : bool := (INT_MIN <=? n)%Z && (n <=? INT_MAX)%Z.

(** Rounding towards zero. *)
Definition truncate (d : Q) : Z := Z.quot (Qnum d) (Zpos (Qden d)).

(** [static_cast<int>(d)]: defined only when the truncated value is an
    [int]. *)
Definition static_cast_int (d : Q) : option Z :=
  let n := truncate d in if in_int n then Some n else None.

(** [a + b] on [int], defined only without overflow. *)
Definition int_add (a b : Z) : option Z :=
  if in_int (a + b) then Some (a + b)%Z else None.

(** [Math::updateMax(max, newValue)]. *)
Definition updateMax (max newValue : Q) : Q :=
  if Qltb max newValue then newValue else max.

(** ** The collaborators that are not part of this file *)

Inductive attribute := nodeGraphics | edgeGraphics | edgeDoubleWeight | threeD.

(** [GraphAttributes] over a graph of type [G]. *)
Module GraphAttributes.
Record t (G : Type) := mk {
  constGraph : G;
  attributes : attribute -> bool;
  x : node -> Q;
  y : node -> Q;
  z : node -> Q;
  width : node -> Q;
  height : node -> Q;
  bends : edge -> DPolyline;
  doubleWeight : edge -> Q
}.
Definition has G (GA : t G) (a : attribute) : bool := attributes GA a.
End GraphAttributes.
Import GraphAttributes.

(** One connected component of [Graph::CCsInfo]: its nodes and its edges, in
    the order the component lists them. *)
Record component := mkComponent { cc_nodes : list node; cc_edges : list edge }.
Definition CCsInfo := list component.
Definition numberOfCCs (ccs : CCsInfo) : nat := List.length ccs.

Class Externals := {
  (* <cmath> *)
  atan2 : Q -> Q -> Q;
  cos : Q -> Q;
  sin : Q -> Q;
  sqrt : Q -> Q;
  (* ogdf/basic/Math.h *)
  Math_pi : Q;
  (* ogdf/graphalg/ConvexHull.h *)
  CH_call : list DPoint -> DPolygon;
  CH_calcNormal : DPoint -> DPoint -> DPoint;
  CH_leftOfLine : DPoint -> DPoint -> DPoint -> Q;
  (* ogdf/basic/Graph.h, GraphCopy.h, GraphAttributes.h *)
  Graph : Type;
  GraphCopy : Type;
  CCsInfo_new : Graph -> CCsInfo;
  GC_insert : Graph -> CCsInfo -> nat -> GraphCopy;
  GC_nodes : GraphCopy -> list node;
  GC_edges : GraphCopy -> list edge;
  GC_original_node : GraphCopy -> node -> option node;
  GC_original_edge : GraphCopy -> edge -> option edge;
  GraphAttributes_new : GraphCopy -> (attribute -> bool) -> GraphAttributes.t GraphCopy
}.

Section Layout.

Context {ext : Externals}.

(** [LayoutModule::call] mutates the attributes of the copy it is given. *)
Definition LayoutModule := GraphAttributes.t GraphCopy -> GraphAttributes.t GraphCopy.

(** [CCLayoutPackModule::call(box, offset, pageRatio)] fills [offset]. *)
Definition CCLayoutPackModule := list IPoint -> list IPoint -> Q -> list IPoint.

Record ComponentSplitterLayout := mkCSL {
  m_secondaryLayout : option LayoutModule;
  m_packer : option CCLayoutPackModule;
  m_targetRatio : Q;
  m_border : Z
}.

(** The constructor; [TileToRowsCCPacker] is the packer it installs. *)
Definition ComponentSplitterLayout_new (TileToRowsCCPacker : CCLayoutPackModule)
  : ComponentSplitterLayout :=
  {| m_secondaryLayout := None;
     m_packer := Some TileToRowsCCPacker;
     m_targetRatio := 1;
     m_border := 30 |}.

(** What a run hands to its collaborators, in order. *)
Inductive event :=
| SecondaryLayoutCall (i : nat)
| ReassembleDrawingsCall
| PackerCall (box : list IPoint) (pageRatio : Q).

(** ** Array and attribute updates *)

Definition update {A} (arr : nat -> A) (i : nat) (a : A) : nat -> A :=
  fun j => if Nat.eqb j i then a else arr j.

Definition set_x G (GA : t G) (v : node) (c : Q) : t G :=
  mk (constGraph GA) (attributes GA) (update (x GA) v c) (y GA) (z GA)
     (width GA) (height GA) (bends GA) (doubleWeight GA).
Definition set_y G (GA : t G) (v : node) (c : Q) : t G :=
  mk (constGraph GA) (attributes GA) (x GA) (update (y GA) v c) (z GA)
     (width GA) (height GA) (bends GA) (doubleWeight GA).
Definition set_z G (GA : t G) (v : node) (c : Q) : t G :=
  mk (constGraph GA) (attributes GA) (x GA) (y GA) (update (z GA) v c)
     (width GA) (height GA) (bends GA) (doubleWeight GA).
Definition set_width G (GA : t G) (v : node) (c : Q) : t G :=
  mk (constGraph GA) (attributes GA) (x GA) (y GA) (z GA)
     (update (width GA) v c) (height GA) (bends GA) (doubleWeight GA).
Definition set_height G (GA : t G) (v : node) (c : Q) : t G :=
  mk (constGraph GA) (attributes GA) (x GA) (y GA) (z GA)
     (width GA) (update (height GA) v c) (bends GA) (doubleWeight GA).
Definition set_bends G (GA : t G) (e : edge) (b : DPolyline) : t G :=
  mk (constGraph GA) (attributes GA) (x GA) (y GA) (z GA)
     (width GA) (height GA) (update (bends GA) e b) (doubleWeight GA).
Definition set_doubleWeight G (GA : t G) (e : edge) (c : Q) : t G :=
  mk (constGraph GA) (attributes GA) (x GA) (y GA) (z GA)
     (width GA) (height GA) (bends GA) (update (doubleWeight GA) e c).

Definition bind {A B} (m : option A) (k : A -> option B) : option B :=
  match m with Some a => k a | None => None end.

Notation "'do' p <- m ; k" := (bind m (fun p => k))
  (at level 10, p pattern, m at level 100, k at level 200, only parsing).

(** [l] with its element at [i] replaced, or [None] where [at] throws. *)
Fixpoint replace_at {A} (l : list A) (i : nat) (f : A -> A) : option (list A) :=
  match l, i with
  | [], _ => None
  | a :: l', O => Some (f a :: l')
  | a :: l', S i' => do l'' <- replace_at l' i' f; Some (a :: l'')
  end.

(** ** [atan2ex] *)

Definition atan2ex (y x : Q) : Q :=
  let angle := atan2 y x in
  let angle :=
    if Qeq_bool x 0
    then (if Qleb 0 y then (1 # 2) * Math_pi else (3 # 2) * Math_pi)
    else angle in
  let angle :=
    if Qeq_bool y 0
    then (if Qleb 0 x then 0 else Math_pi)
    else angle in
  angle.

(** ** [reassembleDrawings]: collecting and centring a component's points *)

Definition origin : DPoint := mkPoint 0 0.

Definition translate (avg_x avg_y : Q) (p : DPoint) : DPoint :=
  mkPoint (m_x p - avg_x) (m_y p - avg_y).

(** The running sums and the point vector of the first two loops. *)
Record collected := mkCollected {
  points : list DPoint;
  sum_x : Q;
  sum_y : Q;
  nbBends : nat
}.

Definition push_back (c : collected) (dp : DPoint) : collected :=
  mkCollected (points c ++ [dp]) (sum_x c + m_x dp) (sum_y c + m_y dp) (nbBends c).

Definition collectNodes G (GA : t G) (nodes : list node) (c : collected) : collected :=
  fold_left (fun c v => push_back c (mkPoint (x GA v) (y GA v))) nodes c.

Definition collectBends G (GA : t G) (edges : list edge) (c : collected) : collected :=
  fold_left
    (fun c e =>
       let c' := fold_left push_back (bends GA e) c in
       mkCollected (points c') (sum_x c') (sum_y c')
                   (nbBends c' + List.length (bends GA e)))
    edges c.

Definition collectPoints G (GA : t G) (cc : component) : collected :=
  let c := collectNodes GA (cc_nodes cc) (mkCollected [] 0 0 0) in
  if has GA edgeGraphics then collectBends GA (cc_edges cc) c else c.

(** The node positions and the bends of a component, as points. *)
Definition nodePoints G (GA : t G) (nodes : list node) : list DPoint :=
  map (fun v => mkPoint (x GA v) (y GA v)) nodes.

Definition bendPoints G (GA : t G) (edges : list edge) : list DPoint :=
  flat_map (bends GA) edges.

(** The sum and the arithmetic mean of a list of numbers. *)
Definition Qsum (l : list Q) : Q := fold_right Qplus 0 l.

Definition mean (l : list Q) : Q :=
  Qsum l / inject_Z (Z.of_nat (List.length l)).

(** The divisor [ccs.numberOfNodes(j) + nbBends] as a double. *)
Definition divisor (cc : component) (c : collected) : Q :=
  inject_Z (Z.of_nat (List.length (cc_nodes cc) + nbBends c)).

(** The state of the centring loops: the attributes, the point vector and the
    running index [count]. *)
Definition centring G : Type := (t G * list DPoint * nat)%type.

Definition centreNode G (avg_x avg_y : Q) (s : centring G) (v : node)
  : option (centring G) :=
  let '(GA, pts, count) := s in
  let GA := set_x GA v (x GA v - avg_x) in
  let GA := set_y GA v (y GA v - avg_y) in
  do pts <- replace_at pts count (translate avg_x avg_y);
  Some (GA, pts, S count).

(** The bends of one edge are rewritten in place, front to back. *)
Fixpoint centrePolyline (avg_x avg_y : Q) (bs : DPolyline) (pts : list DPoint)
  (count : nat) : option (DPolyline * list DPoint * nat) :=
  match bs with
  | [] => Some ([], pts, count)
  | bend :: bs' =>
    do pts <- replace_at pts count (translate avg_x avg_y);
    do r <- centrePolyline avg_x avg_y bs' pts (S count);
    let '(bs'', pts, count) := r in
    Some (translate avg_x avg_y bend :: bs'', pts, count)
  end.

Definition centreEdge G (avg_x avg_y : Q) (s : centring G) (e : edge)
  : option (centring G) :=
  let '(GA, pts, count) := s in
  do r <- centrePolyline avg_x avg_y (bends GA e) pts count;
  let '(bs, pts, count) := r in
  Some (set_bends GA e bs, pts, count).

(** [fold_left] for a body that may fail. *)
Fixpoint foldM {S A} (f : S -> A -> option S) (l : list A) (s : S) : option S :=
  match l with
  | [] => Some s
  | a :: l' => do s' <- f s a; foldM f l' s'
  end.

(** "adapt positions to origin". *)
Definition centre G (GA : t G) (cc : component) (pts : list DPoint)
  (avg_x avg_y : Q) : option (centring G) :=
  do s <- foldM (centreNode avg_x avg_y) (cc_nodes cc) (GA, pts, O);
  if has GA edgeGraphics
  then foldM (centreEdge avg_x avg_y) (cc_edges cc) s
  else Some s.

(** ** [reassembleDrawings]: the rotating calipers *)

(** The hull's oriented edges: every vertex [iter] with its cyclic successor
    [k]. *)
Definition hullEdges (hull : DPolygon) : list (DPoint * DPoint) :=
  combine hull (tl hull ++ firstn 1 hull).

(** The greatest distance of a hull point left of the line through [k] with
    normal [norm]. *)
Definition maxDist (norm k : DPoint) (hull : DPolygon) : Q :=
  fold_left
    (fun dist z => let d := CH_leftOfLine norm z k in
                   if Qltb dist d then d else dist)
    hull 0.

(** The extents [left] and [right] of the hull along [norm]. *)
Definition leftRight (norm k : DPoint) (hull : DPolygon) : Q * Q :=
  fold_left
    (fun lr z =>
       let '(left_, right_) := lr in
       let d := CH_leftOfLine norm z k in
       if Qltb left_ d then (d, right_)
       else if Qltb d right_ then (left_, d)
       else (left_, right_))
    hull (0, 0).

Record best := mkBest {
  best_area : Q;
  best_normal : DPoint;
  best_width : Q;
  best_height : Q
}.

(** The box a hull edge proposes: its height [dist], its [width] and their
    product, both clamped to 1. *)
Record candidate := mkCandidate {
  cand_dist : Q;
  cand_width : Q;
  cand_normal : DPoint
}.

Definition cand_area (c : candidate) : Q := cand_dist c * cand_width c.

Definition candidateOf (hull : DPolygon) (ik : DPoint * DPoint) : candidate :=
  let '(iter, k) := ik in
  let norm := CH_calcNormal k iter in
  let dist := maxDist norm k hull in
  let norm := CH_calcNormal origin norm in
  let '(left_, right_) := leftRight norm k hull in
  let width := left_ - right_ in
  let dist := updateMax dist 1 in
  let width := updateMax width 1 in
  mkCandidate dist width (CH_calcNormal k iter).

(** What the loop stores when it accepts a candidate. *)
Definition proposal (c : candidate) : best :=
  mkBest (cand_area c) (cand_normal c) (cand_width c) (cand_dist c).

(** [if (area <= best_area) { ... }] *)
Definition keepBest (b : best) (c : candidate) : best :=
  if Qleb (cand_area c) (best_area b) then proposal c else b.

Definition initialBest : best := mkBest DBL_MAX origin 0 0.

(** The candidates of a hull, in the order the loop meets them. *)
Definition candidates (hull : DPolygon) : list candidate :=
  map (candidateOf hull) (hullEdges hull).

(** "find best rotation by using every face as rectangle border once". *)
Definition findBest (hull : DPolygon) : best :=
  fold_left keepBest (candidates hull) initialBest.

(** Both sides of the stored box are at least 1. *)
Definition unitBox (b : best) : Prop := 1 <= best_width b /\ 1 <= best_height b.

(** [if (hull.size() <= 1) { ... }] *)
Definition degenerate (hull : DPolygon) (b : best) : best :=
  if (List.length hull <=? 1)%nat
  then mkBest (best_area b) (mkPoint 1 1) 1 1
  else b.

(** The angle that turns the winning normal onto the vertical axis. *)
Definition baseAngle (b : best) : Q :=
  - atan2 (m_y (best_normal b)) (m_x (best_normal b)) + (3 # 2) * Math_pi.

(** The rotation angle and the normalised width and height. *)
Definition orientation (b : best) : Q * Q * Q :=
  let angle := baseAngle b in
  if Qltb (best_width b) (best_height b)
  then (angle + (1 # 2) * Math_pi, best_height b, best_width b)
  else (angle, best_width b, best_height b).

(** A point of the hull turned by [angle]. *)
Definition turn (angle : Q) (p : DPoint) : DPoint :=
  let ang := atan2 (m_y p) (m_x p) in
  let len := sqrt (m_x p * m_x p + m_y p * m_y p) in
  let ang := ang + angle in
  mkPoint (cos ang * len) (sin ang * len).

(** "apply rotation to hull and calc offset": [left], [top] and [bottom]. *)
Definition hullExtent (angle : Q) (hull : DPolygon) : option (Q * Q * Q) :=
  match hull with
  | [] => None
  | front :: _ =>
    Some (fold_left
            (fun lrb tempP =>
               let '(left_, top, bottom) := lrb in
               let tempP := turn angle tempP in
               let left_ := if Qltb (m_x tempP) left_ then m_x tempP else left_ in
               let top := if Qltb (m_y tempP) top then m_y tempP else top in
               let bottom := if Qltb bottom (m_y tempP) then m_y tempP else bottom in
               (left_, top, bottom))
            hull (m_x front, m_y front, m_y front))
  end.

(** "save rect". *)
Definition saveRect (border : Z) (best_width best_height : Q) : option IPoint :=
  do w <- static_cast_int best_width;
  do h <- static_cast_int best_height;
  do bw <- int_add w border;
  do bh <- int_add h border;
  Some (mkPoint bw bh).

(** What the first loop records for one component. *)
Record placement := mkPlacement {
  rotation : Q;
  oldOffset : DPoint;
  box : IPoint
}.

Definition boxOf (border : Z) (hull : DPolygon) : option placement :=
  let b := degenerate hull (findBest hull) in
  let '(angle, best_width, best_height) := orientation b in
  do lrb <- hullExtent angle hull;
  let '(left_, top, bottom) := lrb in
  let old :=
    mkPoint (left_ + (1 # 2) * inject_Z border)
            (- (1) * best_height + 1 * bottom + 0 * top + (1 # 2) * inject_Z border) in
  do bx <- saveRect border best_width best_height;
  Some (mkPlacement angle old bx).

(** The first half of a round of the first loop: component [cc] centred,
    and the convex hull of its points. *)
Definition centredHull G (GA : t G) (cc : component) : option (t G * DPolygon) :=
  let c := collectPoints GA cc in
  let avg_x := sum_x c / divisor cc c in
  let avg_y := sum_y c / divisor cc c in
  do s <- centre GA cc (points c) avg_x avg_y;
  let '(GA, pts, _) := s in
  Some (GA, CH_call pts).

(** One round of the first loop: centre component [cc], then box its hull. *)
Definition analyse G (border : Z) (GA : t G) (cc : component)
  : option (t G * placement) :=
  do r <- centredHull GA cc;
  let '(GA, hull) := r in
  do pl <- boxOf border hull;
  Some (GA, pl).

(** The hulls that the first loop computes, component by component. *)
Fixpoint hullsOf G (GA : t G) (ccs : CCsInfo) : option (list DPolygon) :=
  match ccs with
  | [] => Some []
  | cc :: ccs' =>
    do r <- centredHull GA cc;
    let '(GA, hull) := r in
    do hulls <- hullsOf GA ccs';
    Some (hull :: hulls)
  end.

(** The first loop; [grow(1, _)] appends to the three arrays. *)
Fixpoint analyseAll G (border : Z) (GA : t G) (ccs : CCsInfo)
  (done : list placement) : option (t G * list placement) :=
  match ccs with
  | [] => Some (GA, done)
  | cc :: ccs' =>
    do r <- analyse border GA cc;
    let '(GA, pl) := r in
    analyseAll border GA ccs' (done ++ [pl])
  end.

(** ** [reassembleDrawings]: packing and the final transform *)

(** The lambda [rotatePoint]; the three arrays are the ones it captures. *)
Definition rotatePoint (rotation : list Q) (offset : list IPoint)
  (oldOffset : list DPoint) (p : DPoint) (index : nat) : option DPoint :=
  let x := m_x p in
  let y := m_y p in
  do angle <- nth_error rotation index;
  let ang := atan2 y x in
  let len := sqrt (x * x + y * y) in
  let ang := ang + angle in
  let x := cos ang * len in
  let y := sin ang * len in
  do off <- nth_error offset index;
  let x := x + inject_Z (m_x off) in
  let y := y + inject_Z (m_y off) in
  do old <- nth_error oldOffset index;
  let x := x - m_x old in
  let y := y - m_y old in
  Some (mkPoint x y).

(** [mapM] over a polyline, front to back. *)
Fixpoint mapM {A B} (f : A -> option B) (l : list A) : option (list B) :=
  match l with
  | [] => Some []
  | a :: l' => do b <- f a; do bs <- mapM f l'; Some (b :: bs)
  end.

Section Transform.

Variables (rot : list Q) (offset : list IPoint) (old : list DPoint).

(** The one transform of component [index]. *)
Definition pointTransform (index : nat) (p : DPoint) : option DPoint :=
  rotatePoint rot offset old p index.

Definition transformNode G (index : nat) (GA : t G) (v : node) : option (t G) :=
  do rp <- rotatePoint rot offset old (mkPoint (x GA v) (y GA v)) index;
  Some (set_y (set_x GA v (m_x rp)) v (m_y rp)).

Definition transformEdge G (index : nat) (GA : t G) (e : edge) : option (t G) :=
  do bs <- mapM (fun bend => rotatePoint rot offset old bend index) (bends GA e);
  Some (set_bends GA e bs).

(** "apply rotation and offset to all nodes", then to all bends. *)
Definition transformComponent G (index : nat) (GA : t G) (cc : component)
  : option (t G) :=
  do GA <- foldM (transformNode index) (cc_nodes cc) GA;
  if has GA edgeGraphics
  then foldM (transformEdge index) (cc_edges cc) GA
  else Some GA.

(** The last loop, [index] running with the component. *)
Fixpoint transformAll G (index : nat) (GA : t G) (ccs : CCsInfo) : option (t G) :=
  match ccs with
  | [] => Some GA
  | cc :: ccs' =>
    do GA <- transformComponent index GA cc;
    transformAll (S index) GA ccs'
  end.

End Transform.

Definition reassembleDrawings G (self : ComponentSplitterLayout) (GA : t G)
  (ccs : CCsInfo) : option (t G * list event) :=
  do r <- analyseAll (m_border self) GA ccs [];
  let '(GA, placements) := r in
  let box := map box placements in
  let offset := repeat (mkPoint 0%Z 0%Z) (List.length box) in
  do packer <- m_packer self;
  let offset := packer box offset (m_targetRatio self) in
  do GA <- transformAll (map rotation placements) offset
                        (map oldOffset placements) O GA ccs;
  Some (GA, [PackerCall box (m_targetRatio self)]).

(** ** [call] *)

(** "copy information into copy GA": the node loop and the edge loop. *)
Definition copyNodeIn (GC : GraphCopy) (GA : t Graph) (cGA : t GraphCopy)
  (v : node) : option (t GraphCopy) :=
  do w <- GC_original_node GC v;
  let cGA := set_width cGA v (width GA w) in
  let cGA := set_height cGA v (height GA w) in
  let cGA := set_x cGA v (x GA w) in
  let cGA := set_y cGA v (y GA w) in
  Some cGA.

Definition copyEdgeIn (GC : GraphCopy) (GA : t Graph) (cGA : t GraphCopy)
  (e : edge) : option (t GraphCopy) :=
  do cGA <- (if has GA edgeDoubleWeight
             then do f <- GC_original_edge GC e;
                  Some (set_doubleWeight cGA e (doubleWeight GA f))
             else Some cGA);
  if has GA edgeGraphics
  then do f <- GC_original_edge GC e;
       Some (set_bends cGA e (bends GA f))
  else Some cGA.

(** "copy layout information back into GA". *)
Definition copyNodeOut (GC : GraphCopy) (cGA : t GraphCopy) (GA : t Graph)
  (v : node) : t Graph :=
  match GC_original_node GC v with
  | Some w =>
    let GA := set_x GA w (x cGA v) in
    let GA := set_y GA w (y cGA v) in
    if has GA threeD then set_z GA w (z cGA v) else GA
  | None => GA
  end.

Definition copyEdgeOut (GC : GraphCopy) (cGA : t GraphCopy) (GA : t Graph)
  (e : edge) : t Graph :=
  match GC_original_edge GC e with
  | Some f => set_bends GA f (bends cGA e)
  | None => GA
  end.

(** One round of the component loop of [call]; the log records the call of
    the secondary layout. *)
Definition layoutComponent (secondaryLayout : LayoutModule) (ccs : CCsInfo)
  (s : t Graph * list event) (i : nat) : option (t Graph * list event) :=
  let '(GA, log) := s in
  let GC := GC_insert (constGraph GA) ccs i in
  let cGA := GraphAttributes_new GC (attributes GA) in
  do cGA <- foldM (copyNodeIn GC GA) (GC_nodes GC) cGA;
  do cGA <- foldM (copyEdgeIn GC GA) (GC_edges GC) cGA;
  let cGA := secondaryLayout cGA in
  let log := log ++ [SecondaryLayoutCall i] in
  let GA := fold_left (copyNodeOut GC cGA) (GC_nodes GC) GA in
  let GA := if has GA edgeGraphics
            then fold_left (copyEdgeOut GC cGA) (GC_edges GC) GA
            else GA in
  Some (GA, log).

Definition call (self : ComponentSplitterLayout) (GA : t Graph)
  : option (t Graph * list event) :=
  match m_secondaryLayout self with
  | Some secondaryLayout =>
    let G := constGraph GA in
    let ccs := CCsInfo_new G in
    let numberOfComponents := numberOfCCs ccs in
    if (numberOfComponents =? 0)%nat then Some (GA, [])
    else
      do s <- foldM (layoutComponent secondaryLayout ccs)
                    (seq 0 numberOfComponents) (GA, []);
      let '(GA, log) := s in
      do r <- reassembleDrawings self GA ccs;
      let '(GA, log') := r in
      Some (GA, log ++ ReassembleDrawingsCall :: log')
  | None => Some (GA, [])
  end.

(** ** Notions the further properties speak in *)

(** [GA'] has the graph, the attribute flags, the node sizes and the edge
    weights of [GA]. *)
Definition sameSizes G (GA GA' : t G) : Prop :=
  constGraph GA' = constGraph GA /\ attributes GA' = attributes GA /\
  width GA' = width GA /\ height GA' = height GA /\
  doubleWeight GA' = doubleWeight GA.

(** Outside the nodes [N] and the edges [E], [GA'] has the positions and the
    bends of [GA]. *)
Definition sameOutside G (N : list node) (E : list edge) (GA GA' : t G) : Prop :=
  (forall v, ~ In v N -> x GA' v = x GA v /\ y GA' v = y GA v) /\
  (forall e, ~ In e E -> bends GA' e = bends GA e).

(** The two copy loops of [call] before the secondary layout runs, and the
    two after it. *)
Definition copyIn (GC : GraphCopy) (GA : t Graph) : option (t GraphCopy) :=
  do cGA <- foldM (copyNodeIn GC GA) (GC_nodes GC)
                  (GraphAttributes_new GC (attributes GA));
  foldM (copyEdgeIn GC GA) (GC_edges GC) cGA.

Definition copyOut (GC : GraphCopy) (cGA : t GraphCopy) (GA : t Graph) : t Graph :=
  let GA := fold_left (copyNodeOut GC cGA) (GC_nodes GC) GA in
  if has GA edgeGraphics
  then fold_left (copyEdgeOut GC cGA) (GC_edges GC) GA
  else GA.

(** What [call] leaves alone: the graph, the flags, the sizes and the
    weights; z unless the attributes are three-dimensional; the bends unless
    the attributes have edge graphics. *)
Definition laidOut G (GA GA' : t G) : Prop :=
  sameSizes GA GA' /\
  (has GA threeD = false -> z GA' = z GA) /\
  (has GA edgeGraphics = false -> bends GA' = bends GA).

(** The width and the height of the box of a hull, before "save rect". *)
Definition sidesOf (hull : DPolygon) : Q * Q :=
  let '(_, best_width, best_height) := orientation (degenerate hull (findBest hull)) in
  (best_width, best_height).

(** What a round of the first loop needs of its hull: a front point, and
    casts and sums of "save rect" that stay within [int]. *)
Definition boxable (border : Z) (hull : DPolygon) : Prop :=
  hull <> [] /\
  in_int (truncate (fst (sidesOf hull))) = true /\
  in_int (truncate (snd (sidesOf hull))) = true /\
  in_int (truncate (fst (sidesOf hull)) + border) = true /\
  in_int (truncate (snd (sidesOf hull)) + border) = true.

(** The sums are the running sums over the points in the order they were
    collected in, from 0. *)
Definition summed (c : collected) : Prop :=
  sum_x c = fold_left (fun s p => s + m_x p) (points c) 0 /\
  sum_y c = fold_left (fun s p => s + m_y p) (points c) 0.

(** [GA'] has the positions and the bends of [GA] on component [cc]. *)
Definition agreeOn G (cc : component) (GA GA' : t G) : Prop :=
  (forall v, In v (cc_nodes cc) ->
     x GA' v = x GA v /\ y GA' v = y GA v /\ z GA' v = z GA v) /\
  (forall e, In e (cc_edges cc) -> bends GA' e = bends GA e).

(** [GA'] differs from [GA] at most in the positions of the nodes [N] and in
    the bends of the edges [E]. *)
Definition movesOnly G (N : list node) (E : list edge) (GA GA' : t G) : Prop :=
  sameSizes GA GA' /\ z GA' = z GA /\ sameOutside N E GA GA'.

End Layout.

End Splitter.

(* ================================================================= *)
(** * The centring in the doubles of the code *)

(** Lines 203-248 of [reassembleDrawings] once more, on the point vector
    alone and over IEEE 754 binary64 numbers, for what depends on the
    rounding of the sums, the quotient and the differences. *)
Module SplitterDouble.

Import Splitter.

Definition double := PrimFloat.float.

Definition DPoint := GenericPoint double.

(** The conversion of a count to [double]. *)
Definition of_count (n : nat) : double :=
  PrimFloat.of_uint63 (Uint63.of_Z (Z.of_nat n)).

(** [avg_x += dp.m_x; avg_y += dp.m_y] over the collected points, from 0.0. *)
Definition sums (points : list DPoint) : double * double :=
  fold_left
    (fun s dp => (PrimFloat.add (fst s) (m_x dp), PrimFloat.add (snd s) (m_y dp)))
    points (of_count 0, of_count 0).

(** [avg_x /= (ccs.numberOfNodes(j) + nbBends)], [avg_y] alike, and
    [points.at(count).m_x -= avg_x], [m_y] alike, for every point. *)
Definition centre (points : list DPoint) : list DPoint :=
  let avg_x := PrimFloat.div (fst (sums points)) (of_count (List.length points)) in
  let avg_y := PrimFloat.div (snd (sums points)) (of_count (List.length points)) in
  map (fun p => mkPoint (PrimFloat.sub (m_x p) avg_x) (PrimFloat.sub (m_y p) avg_y))
      points.

(** The rational number that a finite double is. *)
Definition exact (d : double) : Q :=
  match FloatOps.Prim2SF d with
  | SpecFloat.S754_finite s m e =>
    let v := match e with
             | Zneg p => Qmake (Zpos m) (2 ^ p)%positive
             | _ => inject_Z (Zpos m * 2 ^ e)
             end in
    if s then Qopp v else v
  | _ => 0
  end.

End SplitterDouble.

(* ================================================================= *)
(** * Concrete inputs for the examples *)

Module Examples.

Import LongestPath.

(** The path with arc lengths 5, 3 and 2. *)
Definition pathDAG : CompactionConstraintGraph :=
  mkGraph [0; 1; 2; 3]%nat
          [mkArc 0%nat 1%nat 5; mkArc 1%nat 2%nat 3; mkArc 2%nat 3%nat 2].

Import Splitter Splitter.GraphAttributes.
Local Open Scope Q_scope.

(** [Math::pi] as the double that it is. *)
Definition pi : Q := 884279719003555 # 281474976710656.

(** The number of quarter turns in [a], when [a] is a whole number of them. *)
Definition quarterTurns (a : Q) : option Z :=
  let k := Qred (a / (pi / 2)) in
  if Pos.eqb (Qden k) 1 then Some (Qnum k mod 4)%Z else None.

(** Cosine and sine on whole numbers of quarter turns (1 and 0 elsewhere). *)
Definition table_cos (a : Q) : Q :=
  match quarterTurns a with
  | Some 0%Z => 1
  | Some 2%Z => - (1)
  | Some _ => 0
  | None => 1
  end.

Definition table_sin (a : Q) : Q :=
  match quarterTurns a with
  | Some 1%Z => 1
  | Some 3%Z => - (1)
  | _ => 0
  end.

(** The values the C library gives [atan2] on the axes (0 elsewhere). *)
Definition table_atan2 (y x : Q) : Q :=
  match x ?= 0, y ?= 0 with
  | Eq, Gt => pi / 2
  | Eq, Lt => - (pi / 2)
  | Lt, Eq => pi
  | _, _ => 0
  end.

(** The square root of the square of a rational. *)
Definition exact_sqrt (q : Q) : Q :=
  let r := Qred q in Z.sqrt (Qnum r) # Pos.sqrt (Qden r).

(** Modelled from the spec: [ConvexHull::calcNormal], the spec's
    "normal(p, q) -> 2D vector" (ConvexHull.cpp is not among the sources), as
    the vector of length 1 orthogonal to the line from [start] to [finish]. *)
Definition unit_normal (start finish : DPoint) : DPoint :=
  let dx := m_x finish - m_x start in
  let dy := m_y finish - m_y start in
  let len := exact_sqrt (dx * dx + dy * dy) in
  mkPoint (Qred (dy / len)) (Qred (- dx / len)).

(** Modelled from the spec: [ConvexHull::leftOfLine], the spec's
    "signedDistance(normal, point, referencePoint) -> scalar", as the
    component of [point - pointOnLine] along [normal]. *)
Definition dot_leftOfLine (normal point pointOnLine : DPoint) : Q :=
  Qred ((m_x point - m_x pointOnLine) * m_x normal
        + (m_y point - m_y pointOnLine) * m_y normal).

(** Collaborators for the examples: the C functions by table, the hull of
    points that already are in convex position, a graph that is the list of
    its components, and copies that share the handles of their originals. *)
#[local] Instance tables : Externals := {|
  atan2 := table_atan2;
  cos := table_cos;
  sin := table_sin;
  sqrt := exact_sqrt;
  Math_pi := pi;
  CH_call := fun points => points;
  CH_calcNormal := unit_normal;
  CH_leftOfLine := dot_leftOfLine;
  Graph := CCsInfo;
  GraphCopy := component;
  CCsInfo_new := fun G => G;
  GC_insert := fun _ ccs i => nth i ccs (mkComponent [] []);
  GC_nodes := cc_nodes;
  GC_edges := cc_edges;
  GC_original_node := fun _ v => Some v;
  GC_original_edge := fun _ e => Some e;
  GraphAttributes_new := fun GC attrs =>
    GraphAttributes.mk GC attrs (fun _ => 0) (fun _ => 0) (fun _ => 0)
                       (fun _ => 0) (fun _ => 0) (fun _ => []) (fun _ => 0)
|}.

(** A packer that puts the boxes in one row, left to right. *)
Fixpoint rowPacker' (box : list IPoint) (at_x : Z) : list IPoint :=
  match box with
  | [] => []
  | b :: box' => mkPoint at_x 0%Z :: rowPacker' box' (at_x + m_x b)%Z
  end.

Definition rowPacker : CCLayoutPackModule := fun box _ _ => rowPacker' box 0%Z.

(** The corners of a centred 6 by 4 rectangle. *)
Definition rectangleHull : DPolygon :=
  [mkPoint (- (3)) (- (2)); mkPoint 3 (- (2)); mkPoint 3 2; mkPoint (- (3)) 2].




(** Attributes with node and edge graphics: nodes 0..3 on the corners of a
    6 by 4 rectangle, one bend of edge 3 on its left side, and node 4
    alone. *)
Definition twoComponents : CCsInfo :=
  [mkComponent [0; 1; 2; 3]%nat [0; 1; 2; 3]%nat; mkComponent [4%nat] []].

Definition rectangleGA : GraphAttributes.t CCsInfo :=
  GraphAttributes.mk
    twoComponents
    (fun a => match a with nodeGraphics | edgeGraphics => true | _ => false end)
    (fun v => match v with 0%nat => 10 | 1%nat => 16 | 2%nat => 16 | 3%nat => 10
                         | _ => 7 end)
    (fun v => match v with 0%nat => 20 | 1%nat => 20 | 2%nat => 24 | 3%nat => 24
                         | _ => 9 end)
    (fun _ => 0) (fun _ => 1) (fun _ => 1)
    (fun e => match e with 3%nat => [mkPoint 10 22] | _ => [] end)
    (fun _ => 1).

(** A secondary layout that doubles every x coordinate it is given. *)
Definition stretchLayout : LayoutModule :=
  fun cGA =>
    GraphAttributes.mk (constGraph cGA) (attributes cGA)
                       (fun v => 2 * x cGA v) (y cGA) (z cGA)
                       (width cGA) (height cGA) (bends cGA) (doubleWeight cGA).

(** The splitter of the constructor, with [stretchLayout] set. *)
Definition stretchSplitter : ComponentSplitterLayout :=
  mkCSL (Some stretchLayout) (Some rowPacker) 1 30%Z.

(** The points of the first component of [rectangleGA], as doubles: the four
    nodes, then the bend of edge 3. *)
Definition rectanglePoints : list SplitterDouble.DPoint :=
  map (fun p => mkPoint (SplitterDouble.of_count (fst p)) (SplitterDouble.of_count (snd p)))
      [(10, 20); (16, 20); (16, 24); (10, 24); (10, 22)]%nat.

End Examples.

(* ================================================================= *)
(** * Longest-path compaction: correctness of the constructive pass *)

Module LongestPathTheory.

Import LongestPath.
Local Open Scope Z_scope.

Lemma assign_same pos v c : assign pos v c v = c.
Proof. unfold assign. now rewrite Nat.eqb_refl. Qed.

Lemma assign_other pos v c w : w <> v -> assign pos v c w = pos w.
Proof. unfold assign. intros H. apply Nat.eqb_neq in H. now rewrite H. Qed.

(** ** Maximum of a non-empty list, as [fold_left Z.max] computes it *)

Lemma fold_max_ge cs : forall c, c <= fold_left Z.max cs c.
Proof.
  induction cs as [|d cs IH]; intros c; simpl; [lia|].
  specialize (IH (Z.max c d)). lia.
Qed.

Lemma fold_max_upper cs : forall c x, In x cs -> x <= fold_left Z.max cs c.
Proof.
  induction cs as [|d cs IH]; intros c x Hx; simpl in *; [contradiction|].
  destruct Hx as [->|Hx].
  - pose proof (fold_max_ge cs (Z.max c x)). lia.
  - now apply IH.
Qed.

Lemma fold_max_least cs : forall c b,
  c <= b -> (forall x, In x cs -> x <= b) -> fold_left Z.max cs c <= b.
Proof.
  induction cs as [|d cs IH]; intros c b Hc Hcs; simpl; [exact Hc|].
  apply IH.
  - specialize (Hcs d (or_introl eq_refl)). lia.
  - intros x Hx. apply Hcs. now right.
Qed.

Section Correctness.

Variable D : CompactionConstraintGraph.

Lemma incoming_In v e : In e (incoming D v) <-> In e (arcs D) /\ target e = v.
Proof.
  unfold incoming. rewrite filter_In. now rewrite Nat.eqb_eq.
Qed.

(** [maxIncoming] dominates every incoming candidate. *)
Lemma maxIncoming_upper pos v e :
  In e (incoming D v) -> pos (source e) + len e <= maxIncoming D pos v.
Proof.
  intros He. unfold maxIncoming.
  apply (in_map (fun e => pos (source e) + len e)) in He.
  destruct (map _ (incoming D v)) as [|c cs]; [contradiction|].
  destruct He as [<-|He]; [apply fold_max_ge | now apply fold_max_upper].
Qed.

(** [maxIncoming] is the least bound of the candidates (and of 0 without
    any). *)
Lemma maxIncoming_least pos v b :
  (incoming D v = [] -> 0 <= b) ->
  (forall e, In e (incoming D v) -> pos (source e) + len e <= b) ->
  maxIncoming D pos v <= b.
Proof.
  intros H0 Hb. unfold maxIncoming.
  destruct (incoming D v) as [|e es] eqn:E; simpl; [now apply H0|].
  apply fold_max_least.
  - apply Hb. now left.
  - intros x Hx. apply in_map_iff in Hx as (e' & <- & He'). apply Hb. now right.
Qed.

(** [maxIncoming] only reads the predecessors' coordinates. *)
Lemma maxIncoming_ext pos pos' v :
  (forall e, In e (incoming D v) -> pos (source e) = pos' (source e)) ->
  maxIncoming D pos v = maxIncoming D pos' v.
Proof.
  intros H. unfold maxIncoming.
  replace (map (fun e => pos' (source e) + len e) (incoming D v))
    with (map (fun e => pos (source e) + len e) (incoming D v)); [reflexivity|].
  apply map_ext_in. intros e He. now rewrite (H e He).
Qed.

(** ** A node without unprocessed predecessor exists while work is left *)

Lemma chain_app_r l1 : forall l2, chain D (l1 ++ l2) -> chain D l2.
Proof.
  induction l1 as [|a l1 IH]; intros l2 H; [exact H|].
  apply IH. simpl in H. destruct (l1 ++ l2); [exact I | apply H].
Qed.

Lemma chain_walk l2 : forall a b l3, chain D (a :: l2 ++ b :: l3) -> walk D a b.
Proof.
  induction l2 as [|c l2 IH]; intros a b l3 H.
  - simpl in H. destruct H as [(e & He & <- & <-) _]. now apply walk_arc.
  - change (chain D (a :: c :: l2 ++ b :: l3)) in H.
    destruct H as [(e & He & <- & Hc) H]. subst c.
    apply walk_step; [exact He|]. exact (IH _ _ _ H).
Qed.

Lemma repeated_element (l : list node) :
  ~ NoDup l -> exists a l1 l2 l3, l = l1 ++ a :: l2 ++ a :: l3.
Proof.
  induction l as [|h t IH]; intros H.
  - destruct H. constructor.
  - destruct (in_dec Nat.eq_dec h t) as [Hin|Hnin].
    + apply in_split in Hin as (l2 & l3 & ->). now exists h, [], l2, l3.
    + destruct IH as (a & l1 & l2 & l3 & ->).
      { intros Hnd. apply H. now constructor. }
      now exists a, (h :: l1), l2, l3.
Qed.

Lemma not_ready_witness done v :
  ready D done v = false ->
  exists e, In e (incoming D v) /\ ~ In (source e) done.
Proof.
  unfold ready. induction (incoming D v) as [|e es IH]; simpl; [discriminate|].
  intros H. apply andb_false_iff in H as [H|H].
  - exists e. split; [now left|]. intros Hin.
    assert (existsb (Nat.eqb (source e)) done = true) as Hx.
    { apply existsb_exists. exists (source e). split; [exact Hin | apply Nat.eqb_refl]. }
    congruence.
  - destruct (IH H) as (e' & He' & Hn). exists e'. split; [now right | exact Hn].
Qed.

Lemma ready_sources done v e :
  ready D done v = true -> In e (incoming D v) -> In (source e) done.
Proof.
  unfold ready. rewrite forallb_forall. intros H He.
  specialize (H e He). apply existsb_exists in H as (x & Hx & Heq).
  apply Nat.eqb_eq in Heq. now subst x.
Qed.

(** Were every node of [todo] blocked by another node of [todo], chains of
    any length would run inside [todo]. *)
Lemma blocked_chain todo :
  todo <> [] ->
  (forall x, In x todo -> exists e, In e (incoming D x) /\ In (source e) todo) ->
  forall n, exists l, List.length l = S n /\ incl l todo /\ chain D l.
Proof.
  intros Hne Hblk. induction n as [|n (l & Hlen & Hincl & Hch)].
  - destruct todo as [|x todo]; [congruence|].
    exists [x]. repeat split. intros y [<-|[]]. now left.
  - destruct l as [|h t]; [discriminate|].
    destruct (Hblk h (Hincl h (or_introl eq_refl))) as (e & He & Hsrc).
    apply incoming_In in He as [He Htgt].
    exists (source e :: h :: t). repeat split.
    + simpl in *. lia.
    + intros y [<-|Hy]; [exact Hsrc | now apply Hincl].
    + now exists e.
    + exact Hch.
Qed.

Lemma find_ready_progress todo done :
  wellFormed D -> acyclic D ->
  todo <> [] ->
  (forall v, In v (nodes D) -> In v todo \/ In v done) ->
  exists v, find (ready D done) todo = Some v.
Proof.
  intros Hwf Hac Hne Hcover.
  destruct (find (ready D done) todo) as [v|] eqn:Hfind; [now exists v|].
  exfalso.
  assert (forall x, In x todo ->
            exists e, In e (incoming D x) /\ In (source e) todo) as Hblk.
  { intros x Hx. pose proof (find_none _ _ Hfind x Hx) as Hnr.
    apply not_ready_witness in Hnr as (e & He & Hnd).
    exists e. split; [exact He|].
    apply incoming_In in He as [He _].
    destruct (Hcover _ (proj1 (Hwf e He))) as [H|H]; [exact H | contradiction]. }
  destruct (blocked_chain Hne Hblk (List.length todo)) as (l & Hlen & Hincl & Hch).
  assert (~ NoDup l) as Hnd.
  { intros Hnd. pose proof (NoDup_incl_length Hnd Hincl). lia. }
  apply repeated_element in Hnd as (a & l1 & l2 & l3 & ->).
  apply chain_app_r in Hch. apply chain_walk in Hch. exact (Hac a Hch).
Qed.

(** ** The loop invariant *)

Lemma processed_sources done :
  processed D done ->
  forall v e, In v done -> In e (incoming D v) ->
              In (source e) done /\ source e <> v.
Proof.
  induction done as [|w rest IH]; intros Hp v e Hv He; [contradiction|].
  destruct Hp as (Hsrc & Hnin & Hp). destruct Hv as [<-|Hv].
  - specialize (Hsrc e He). split; [now right|]. intros Heq. now rewrite Heq in Hsrc.
  - destruct (IH Hp v e Hv He) as [H1 H2]. split; [now right | exact H2].
Qed.

(** Induction along the processing order. *)
Lemma processed_ind (P : node -> Prop) done :
  processed D done ->
  (forall v, In v done -> (forall e, In e (incoming D v) -> P (source e)) -> P v) ->
  forall v, In v done -> P v.
Proof.
  induction done as [|w rest IH]; intros Hp Hstep v Hv; [contradiction|].
  destruct Hp as (Hsrc & Hnin & Hp).
  assert (forall v, In v rest -> P v) as Hrest.
  { apply IH; [exact Hp|]. intros u Hu Hpre. apply Hstep; [now right | exact Hpre]. }
  destruct Hv as [<-|Hv]; [|now apply Hrest].
  apply Hstep; [now left|]. intros e He. apply Hrest. now apply Hsrc.
Qed.

Lemma Inv_step todo done pos v :
  Inv D todo done pos ->
  find (ready D done) todo = Some v ->
  Inv D (remove Nat.eq_dec v todo) (v :: done) (assign pos v (maxIncoming D pos v)).
Proof.
  intros [Hcov Htodo Hord Hfix] Hfind.
  apply find_some in Hfind as [Hv Hready].
  assert (forall e, In e (incoming D v) -> source e <> v) as Hnoself.
  { intros e He Heq. apply (Htodo v Hv). rewrite <- Heq.
    exact (ready_sources _ _ _ Hready He). }
  constructor.
  - intros w Hw. destruct (Nat.eq_dec w v) as [->|Hne]; [right; now left|].
    destruct (Hcov w Hw) as [H|H]; [left; now apply in_in_remove | right; now right].
  - intros w Hw. apply in_remove in Hw as [Hw Hne].
    intros [Heq|Hin]; [now apply Hne | exact (Htodo w Hw Hin)].
  - simpl. repeat split; [|exact (Htodo v Hv) | exact Hord].
    intros e He. exact (ready_sources _ _ _ Hready He).
  - intros w [<-|Hw].
    + rewrite assign_same. apply maxIncoming_ext. intros e He.
      symmetry. apply assign_other. now apply Hnoself.
    + assert (w <> v) as Hne by (intros ->; exact (Htodo v Hv Hw)).
      rewrite (assign_other _ _ Hne), (Hfix w Hw).
      apply maxIncoming_ext. intros e He. symmetry. apply assign_other.
      intros Heq. destruct (processed_sources _ Hord _ _ Hw He) as [Hin _].
      rewrite Heq in Hin. exact (Htodo v Hv Hin).
Qed.

Lemma relaxation_total :
  wellFormed D -> acyclic D ->
  forall fuel todo done pos,
    (List.length todo <= fuel)%nat -> Inv D todo done pos ->
    exists pos' done', relaxation D fuel todo done pos = Some pos' /\
                       Inv D [] done' pos'.
Proof.
  intros Hwf Hac. induction fuel as [|fuel IH]; intros todo done pos Hlen HI.
  - destruct todo; [|simpl in Hlen; lia]. now exists pos, done.
  - destruct todo as [|t todo]; [now exists pos, done|].
    destruct (@find_ready_progress (t :: todo) done Hwf Hac) as (v & Hfind);
      [discriminate | exact (inv_cover HI) |].
    cbn [relaxation]. rewrite Hfind.
    apply IH; [|now apply Inv_step].
    pose proof (find_some _ _ Hfind) as [Hv _].
    pose proof (remove_length_lt Nat.eq_dec (t :: todo) v Hv) as Hlt.
    unfold node in *. lia.
Qed.

End Correctness.

(** C1. On a well-formed acyclic constraint graph the constructive pass
    returns an assignment [pos] such that every arc [(u,v,len)] has
    [pos v - pos u >= len]; every node sits at the maximum over its incoming
    arcs of [pos u + len], or at 0 without one; [pos] lies below every
    feasible assignment that keeps the nodes without incoming arc at 0 or
    above; and it is the only assignment that solves the maximum equation. *)
Theorem constructiveHeuristics_minimal_feasible (D : CompactionConstraintGraph) :
  wellFormed D -> acyclic D ->
  exists pos,
    constructiveHeuristics D = Some pos /\
    feasible D pos /\
    (forall v, In v (nodes D) -> pos v = maxIncoming D pos v) /\
    (forall q, feasible D q ->
       (forall v, In v (nodes D) -> incoming D v = [] -> 0 <= q v) ->
       forall v, In v (nodes D) -> pos v <= q v) /\
    (forall q, (forall v, In v (nodes D) -> q v = maxIncoming D q v) ->
       forall v, In v (nodes D) -> q v = pos v).
Proof.
  intros Hwf Hac.
  destruct (@relaxation_total D Hwf Hac (List.length (nodes D)) (nodes D) []
              (fun _ => 0)) as (pos & done & Hrun & [Hcov _ Hord Hfix]).
  { lia. }
  { constructor; [intros v Hv; now left | intros v _ [] | exact I | intros v []]. }
  assert (forall v, In v (nodes D) -> In v done) as Hall.
  { intros v Hv. destruct (Hcov v Hv) as [[]|H]. exact H. }
  assert (forall v, In v done -> In v (nodes D) \/ incoming D v = []) as Hback.
  { intros v _. destruct (incoming D v) as [|e es] eqn:E; [now right|]. left.
    assert (In e (incoming D v)) as He by (rewrite E; now left).
    apply incoming_In in He as [He <-]. exact (proj2 (Hwf e He)). }
  exists pos. split; [exact Hrun|]. split; [|split; [|split]].
  - intros e He. pose proof (Hfix _ (Hall _ (proj2 (Hwf e He)))) as Heq.
    assert (In e (incoming D (target e))) as Hin by now apply incoming_In.
    pose proof (maxIncoming_upper D pos _ _ Hin). lia.
  - intros v Hv. exact (Hfix v (Hall v Hv)).
  - intros q Hq Hq0.
    assert (forall v, In v done -> In v (nodes D) -> pos v <= q v) as H.
    { apply (processed_ind D (fun v => In v (nodes D) -> pos v <= q v) _ Hord).
      intros v Hv Hpre Hnv. rewrite (Hfix v Hv).
      apply maxIncoming_least; [now apply Hq0|].
      intros e He. apply incoming_In in He as [He <-].
      specialize (Hpre e (proj2 (incoming_In D _ e) (conj He eq_refl))
                    (proj1 (Hwf e He))).
      specialize (Hq e He). lia. }
    intros v Hv. apply H; [now apply Hall | exact Hv].
  - intros q Hq.
    assert (forall v, In v done -> In v (nodes D) -> q v = pos v) as H.
    { apply (processed_ind D (fun v => In v (nodes D) -> q v = pos v) _ Hord).
      intros v Hv Hpre Hnv. rewrite (Hfix v Hv), (Hq v Hnv).
      apply maxIncoming_ext. intros e He. apply Hpre; [exact He|].
      apply incoming_In in He as [He _]. exact (proj1 (Hwf e He)). }
    intros v Hv. apply H; [now apply Hall | exact Hv].
Qed.

(** ** The path of the specification *)

(** A graph whose arcs all climb along a ranking has no cycle. *)
Lemma ranked_acyclic (D : CompactionConstraintGraph) (rank : node -> nat) :
  (forall e, In e (arcs D) -> (rank (source e) < rank (target e))%nat) ->
  acyclic D.
Proof.
  intros Hrank.
  assert (forall u v, walk D u v -> (rank u < rank v)%nat) as Hwalk.
  { induction 1 as [e He|e w He _ IH].
    - now apply Hrank.
    - specialize (Hrank e He). lia. }
  intros v Hv. specialize (Hwalk v v Hv). lia.
Qed.

Lemma pathDAG_wellFormed : wellFormed Examples.pathDAG.
Proof.
  intros e [<-|[<-|[<-|[]]]]; simpl; intuition.
Qed.

Lemma pathDAG_acyclic : acyclic Examples.pathDAG.
Proof.
  apply ranked_acyclic with (rank := fun v => v).
  intros e [<-|[<-|[<-|[]]]]; simpl; lia.
Qed.

(** The path with arc lengths 5, 3 and 2 gets the positions 0, 5, 8, 10. *)
Example pathDAG_positions :
  option_map (fun pos => map pos (nodes Examples.pathDAG))
             (constructiveHeuristics Examples.pathDAG)
  = Some [0; 5; 8; 10].
Proof. reflexivity. Qed.

Lemma constructiveHeuristics_pathDAG :
  wellFormed Examples.pathDAG /\ acyclic Examples.pathDAG /\
  exists pos,
    constructiveHeuristics Examples.pathDAG = Some pos /\
    feasible Examples.pathDAG pos /\
    (forall v, In v (nodes Examples.pathDAG) ->
               pos v = maxIncoming Examples.pathDAG pos v) /\
    (forall q, feasible Examples.pathDAG q ->
       (forall v, In v (nodes Examples.pathDAG) ->
                  incoming Examples.pathDAG v = [] -> 0 <= q v) ->
       forall v, In v (nodes Examples.pathDAG) -> pos v <= q v) /\
    (forall q, (forall v, In v (nodes Examples.pathDAG) ->
                          q v = maxIncoming Examples.pathDAG q v) ->
       forall v, In v (nodes Examples.pathDAG) -> q v = pos v).
Proof.
  split; [exact pathDAG_wellFormed|]. split; [exact pathDAG_acyclic|].
  exact (constructiveHeuristics_minimal_feasible
           pathDAG_wellFormed pathDAG_acyclic).
Defined.

(** ** The options *)

(** X15. After any sequence of calls of the two setters, each getter returns
    the argument of the last call of its own setter, or what it returned
    before when there was none: calls of the other setter in between do not
    matter.  The setters leave the list of pseudo-sources and the
    pseudo-components alone. *)
Theorem options_last_call_wins (self : LongestPathCompaction)
  (calls : list optionCall) :
  (forall pre select post,
     calls = pre ++ Tighten select :: post ->
     (forall b, ~ In (Tighten b) post) ->
     tighten (setOptions self calls) = select) /\
  ((forall b, ~ In (Tighten b) calls) ->
   tighten (setOptions self calls) = tighten self) /\
  (forall pre maxSteps post,
     calls = pre ++ MaxImprovementSteps maxSteps :: post ->
     (forall n, ~ In (MaxImprovementSteps n) post) ->
     maxImprovementSteps (setOptions self calls) = maxSteps) /\
  ((forall n, ~ In (MaxImprovementSteps n) calls) ->
   maxImprovementSteps (setOptions self calls) = maxImprovementSteps self) /\
  m_pseudoSources (setOptions self calls) = m_pseudoSources self /\
  m_component (setOptions self calls) = m_component self.
Proof.
  assert (forall calls self,
            ((forall b, ~ In (Tighten b) calls) ->
             tighten (setOptions self calls) = tighten self) /\
            ((forall n, ~ In (MaxImprovementSteps n) calls) ->
             maxImprovementSteps (setOptions self calls) = maxImprovementSteps self) /\
            m_pseudoSources (setOptions self calls) = m_pseudoSources self /\
            m_component (setOptions self calls) = m_component self) as Hkeep.
  { clear. induction calls as [|c calls' IH]; intros self; [now repeat split|].
    change (setOptions self (c :: calls')) with (setOptions (setOption self c) calls').
    destruct (IH (setOption self c)) as (Ht & Hm & Hp & Hc).
    split; [|split; [|split]].
    - intros Hno. rewrite Ht by (intros b Hb; apply (Hno b); now right).
      destruct c as [b|n]; [|reflexivity]. exfalso. apply (Hno b). now left.
    - intros Hno. rewrite Hm by (intros n Hn; apply (Hno n); now right).
      destruct c as [b|n]; [reflexivity|]. exfalso. apply (Hno n). now left.
    - rewrite Hp. now destruct c.
    - rewrite Hc. now destruct c. }
  destruct (Hkeep calls self) as (Ht & Hm & Hp & Hc).
  split; [|split; [exact Ht|split; [|split; [exact Hm|split; [exact Hp|exact Hc]]]]].
  - intros pre select post -> Hno. unfold setOptions. rewrite fold_left_app. simpl.
    exact (proj1 (Hkeep post (set_tighten (fold_left setOption pre self) select)) Hno).
  - intros pre maxSteps post -> Hno. unfold setOptions. rewrite fold_left_app. simpl.
    exact (proj1 (proj2 (Hkeep post (set_maxImprovementSteps
                                      (fold_left setOption pre self) maxSteps))) Hno).
Qed.

(** ** The scratch state *)


(** On the path with its longest-path positions every arc is tight and the
    four nodes make one pseudo-component; with nodes 2 and 3 one unit further
    out the arc from 1 to 2 has slack and the path falls into two. *)
Example pseudoComponents_of_the_path :
  map (pseudoComponent Examples.pathDAG
         (fun v => nth v [0; 5; 8; 10] 0)) [0; 1; 2; 3]%nat = [0; 0; 0; 0] /\
  map (pseudoComponent Examples.pathDAG
         (fun v => nth v [0; 5; 9; 11] 0)) [0; 1; 2; 3]%nat = [0; 0; 2; 2].
Proof. split; reflexivity. Qed.



End LongestPathTheory.

(* ================================================================= *)
(** * Component splitter: properties of the reassembly *)

Module SplitterTheory.

Import Splitter Splitter.GraphAttributes.
Local Open Scope Q_scope.

(** ** Comparisons and truncation *)

Lemma Qltb_lt a b : Qltb a b = true <-> a < b.
Proof.
  unfold Qltb. rewrite negb_true_iff. split; intros H.
  - apply Qnot_le_lt. intros Hle. apply Qle_bool_iff in Hle. congruence.
  - destruct (Qle_bool b a) eqn:E; [|reflexivity].
    apply Qle_bool_iff in E. exfalso. exact (Qlt_not_le _ _ H E).
Qed.

Lemma Qltb_ge a b : Qltb a b = false <-> b <= a.
Proof.
  unfold Qltb. rewrite negb_false_iff. apply Qle_bool_iff.
Qed.

Lemma Qleb_le a b : Qleb a b = true <-> a <= b.
Proof. apply Qle_bool_iff. Qed.

Lemma Qleb_gt a b : Qleb a b = false <-> b < a.
Proof.
  unfold Qleb. split; intros H.
  - apply Qnot_le_lt. intros Hle. apply Qle_bool_iff in Hle. congruence.
  - destruct (Qle_bool a b) eqn:E; [|reflexivity].
    apply Qle_bool_iff in E. exfalso. exact (Qlt_not_le _ _ H E).
Qed.

Lemma updateMax_ge mx v : v <= updateMax mx v /\ mx <= updateMax mx v.
Proof.
  unfold updateMax. destruct (Qltb mx v) eqn:E.
  - apply Qltb_lt in E. split; lra.
  - apply Qltb_ge in E. split; lra.
Qed.

Lemma truncate_nonneg q : (0 <= Qnum q)%Z -> truncate q = Qfloor q.
Proof.
  destruct q as [n d]. simpl. intros Hn. unfold truncate. simpl.
  apply Z.quot_div_nonneg; lia.
Qed.

Lemma truncate_neg q : (Qnum q < 0)%Z -> truncate q = Qceiling q.
Proof.
  destruct q as [n d]. simpl. intros Hn.
  unfold truncate, Qceiling, Qfloor. simpl.
  rewrite <- (Z.opp_involutive n) at 1.
  rewrite Z.quot_opp_l by lia. f_equal.
  apply Z.quot_div_nonneg; lia.
Qed.

Lemma Qnum_nonneg q : (0 <= Qnum q)%Z <-> 0 <= q.
Proof. unfold Qle. simpl. lia. Qed.

(** Truncation towards zero is monotone. *)
Lemma truncate_le a b : a <= b -> (truncate a <= truncate b)%Z.
Proof.
  intros Hab.
  destruct (Z_lt_le_dec (Qnum a) 0) as [Ha|Ha];
    destruct (Z_lt_le_dec (Qnum b) 0) as [Hb|Hb].
  - rewrite !truncate_neg by assumption. now apply Qceiling_resp_le.
  - rewrite (truncate_neg _ Ha), (truncate_nonneg _ Hb).
    assert (Qceiling a <= 0)%Z.
    { rewrite <- (Qceiling_Z 0). apply Qceiling_resp_le.
      assert (~ 0 <= a) by (rewrite <- Qnum_nonneg; lia).
      change (a <= 0). lra. }
    assert (0 <= Qfloor b)%Z.
    { rewrite <- (Qfloor_Z 0). apply Qfloor_resp_le.
      change (0 <= b). now apply Qnum_nonneg. }
    lia.
  - exfalso. apply Qnum_nonneg in Ha.
    assert (~ 0 <= b) by (rewrite <- Qnum_nonneg; lia). lra.
  - rewrite !truncate_nonneg by assumption. now apply Qfloor_resp_le.
Qed.

Lemma truncate_inject n : truncate (inject_Z n) = n.
Proof. unfold truncate. simpl. apply Z.quot_1_r. Qed.

Lemma truncate_ge_1 q : 1 <= q -> (1 <= truncate q)%Z.
Proof.
  intros H. change 1%Z with (truncate 1). now apply truncate_le.
Qed.

Lemma static_cast_int_Some d n :
  static_cast_int d = Some n -> n = truncate d /\ in_int n = true.
Proof.
  unfold static_cast_int. destruct (in_int (truncate d)) eqn:E; [|discriminate].
  intros [= <-]. now split.
Qed.

Lemma int_add_Some a b n : int_add a b = Some n -> n = (a + b)%Z.
Proof.
  unfold int_add. destruct (in_int (a + b)); [|discriminate]. now intros [= <-].
Qed.

Lemma bind_Some {A B} (m : option A) (k : A -> option B) b :
  bind m k = Some b -> exists a, m = Some a /\ k a = Some b.
Proof. destruct m as [a|]; [|discriminate]. intros H. now exists a. Qed.

Section Reassembly.

Context {ext : Externals}.

(** ** The tie-break of the calipers *)

Lemma keepBest_accepts b c :
  cand_area c <= best_area b -> keepBest b c = proposal c.
Proof.
  intros H. unfold keepBest. apply Qleb_le in H. now rewrite H.
Qed.

Lemma keepBest_rejects b c :
  best_area b < cand_area c -> keepBest b c = b.
Proof.
  intros H. unfold keepBest. apply Qleb_gt in H. now rewrite H.
Qed.

(** Candidates that are no better than [a] leave a best of area at least [a]. *)
Lemma fold_keepBest_lower a cs : forall b,
  a <= best_area b ->
  (forall d, In d cs -> a <= cand_area d) ->
  a <= best_area (fold_left keepBest cs b).
Proof.
  induction cs as [|d cs IH]; intros b Hb Hcs; simpl; [exact Hb|].
  apply IH; [|intros d' Hd'; apply Hcs; now right].
  unfold keepBest. destruct (Qleb (cand_area d) (best_area b)); [|exact Hb].
  simpl. apply Hcs. now left.
Qed.

(** Candidates that are strictly worse than the stored best change nothing. *)
Lemma fold_keepBest_worse cs : forall b,
  (forall d, In d cs -> best_area b < cand_area d) ->
  fold_left keepBest cs b = b.
Proof.
  induction cs as [|d cs IH]; intros b Hcs; simpl; [reflexivity|].
  rewrite keepBest_rejects by (apply Hcs; now left).
  apply IH. intros d' Hd'. apply Hcs. now right.
Qed.

Lemma candidateOf_normal hull iter k :
  cand_normal (candidateOf hull (iter, k)) = CH_calcNormal k iter.
Proof.
  unfold candidateOf. now destruct (leftRight _ _ _).
Qed.

(** C4. The comparison [area <= best_area] is not strict.  A candidate whose
    area equals the stored best area (or lies below it) replaces all four
    stored values: the height by its clamped distance, the width by its
    clamped width, the area by their product and the normal by the normal of
    its hull edge; a candidate of larger area leaves them as they are.  So
    the search over a hull ends with the values of the last hull edge, in the
    order of the hull, whose candidate has the least area: the edge that no
    earlier edge beats, that every later edge exceeds, and whose area passes
    the initial [best_area]. *)
Theorem calipers_last_minimum_wins :
  (forall b c, cand_area c == best_area b \/ cand_area c < best_area b ->
     best_height (keepBest b c) = cand_dist c /\
     best_width (keepBest b c) = cand_width c /\
     best_area (keepBest b c) = cand_dist c * cand_width c /\
     best_normal (keepBest b c) = cand_normal c) /\
  (forall b c, best_area b < cand_area c -> keepBest b c = b) /\
  (forall (hull : DPolygon) es1 iter k es2,
     hullEdges hull = es1 ++ (iter, k) :: es2 ->
     cand_area (candidateOf hull (iter, k)) <= DBL_MAX ->
     (forall e, In e es1 ->
        cand_area (candidateOf hull (iter, k)) <= cand_area (candidateOf hull e)) ->
     (forall e, In e es2 ->
        cand_area (candidateOf hull (iter, k)) < cand_area (candidateOf hull e)) ->
     best_height (findBest hull) = cand_dist (candidateOf hull (iter, k)) /\
     best_width (findBest hull) = cand_width (candidateOf hull (iter, k)) /\
     best_area (findBest hull)
     = cand_dist (candidateOf hull (iter, k)) * cand_width (candidateOf hull (iter, k)) /\
     best_normal (findBest hull) = CH_calcNormal k iter).
Proof.
  split; [|split].
  - intros b c Hle. rewrite keepBest_accepts; [now repeat split|].
    destruct Hle as [Heq|Hlt]; [rewrite Heq; apply Qle_refl | now apply Qlt_le_weak].
  - apply keepBest_rejects.
  - intros hull es1 iter k es2 Hes Hmax Hbefore Hafter.
    assert (findBest hull = proposal (candidateOf hull (iter, k))) as ->.
    { unfold findBest, candidates. rewrite Hes, map_app, fold_left_app. simpl.
      rewrite keepBest_accepts.
      - apply fold_keepBest_worse. intros d Hd.
        apply in_map_iff in Hd as (e & <- & He). now apply Hafter.
      - apply fold_keepBest_lower; [exact Hmax|]. intros d Hd.
        apply in_map_iff in Hd as (e & <- & He). now apply Hbefore. }
    unfold proposal, cand_area. cbn [best_height best_width best_area best_normal].
    rewrite candidateOf_normal. now repeat split.
Qed.

(** ** Clamping, orientation and the box *)

Lemma candidateOf_clamped hull ik :
  1 <= cand_dist (candidateOf hull ik) /\ 1 <= cand_width (candidateOf hull ik).
Proof.
  unfold candidateOf. destruct ik as [iter k].
  destruct (leftRight _ _ _) as [l r]. simpl.
  split; apply updateMax_ge.
Qed.

Lemma candidates_clamped hull :
  Forall (fun c => 1 <= cand_dist c /\ 1 <= cand_width c) (candidates hull).
Proof.
  unfold candidates. apply Forall_forall. intros c Hc.
  apply in_map_iff in Hc as (ik & <- & _). apply candidateOf_clamped.
Qed.

Lemma fold_keepBest_unit cs : forall b,
  Forall (fun c => 1 <= cand_dist c /\ 1 <= cand_width c) cs ->
  unitBox b -> unitBox (fold_left keepBest cs b).
Proof.
  induction cs as [|c cs IH]; intros b Hcs Hb; simpl; [exact Hb|].
  inversion Hcs as [|? ? [Hd Hw] Hcs']; subst.
  apply IH; [exact Hcs'|].
  unfold keepBest. destruct (Qleb _ _); [|exact Hb]. split; assumption.
Qed.

Lemma fold_keepBest_accepts_one cs : forall b,
  Forall (fun c => 1 <= cand_dist c /\ 1 <= cand_width c) cs ->
  unitBox b \/ DBL_MAX <= best_area b ->
  Exists (fun c => cand_area c <= DBL_MAX) cs ->
  unitBox (fold_left keepBest cs b).
Proof.
  induction cs as [|c cs IH]; intros b Hcs Hb Hex; [inversion Hex|].
  inversion Hcs as [|? ? [Hd Hw] Hcs']; subst. simpl.
  unfold keepBest at 2. destruct (Qleb (cand_area c) (best_area b)) eqn:E.
  - apply fold_keepBest_unit; [exact Hcs' | split; assumption].
  - apply Qleb_gt in E. destruct Hb as [Hb|Hb].
    + now apply fold_keepBest_unit.
    + apply IH; [exact Hcs' | now right |].
      inversion Hex as [? ? Hc|? ? Hex']; subst; [lra | exact Hex'].
Qed.

(** Where the search stores a box at all, its sides are at least 1. *)
Lemma findBest_unit hull :
  (List.length hull <= 1)%nat \/
  Exists (fun c => cand_area c <= DBL_MAX) (candidates hull) ->
  unitBox (degenerate hull (findBest hull)).
Proof.
  intros H. unfold degenerate.
  destruct (List.length hull <=? 1)%nat eqn:E.
  - split; simpl; lra.
  - apply Nat.leb_gt in E. destruct H as [H|H]; [lia|].
    unfold findBest. apply fold_keepBest_accepts_one.
    + apply candidates_clamped.
    + right. simpl. apply Qle_refl.
    + exact H.
Qed.

Lemma orientation_cases b :
  (best_width b < best_height b /\
   orientation b = (baseAngle b + (1 # 2) * Math_pi, best_height b, best_width b)) \/
  (best_height b <= best_width b /\
   orientation b = (baseAngle b, best_width b, best_height b)).
Proof.
  unfold orientation, baseAngle. destruct (Qltb _ _) eqn:E.
  - left. apply Qltb_lt in E. now split.
  - right. apply Qltb_ge in E. now split.
Qed.

(** What [boxOf] returns, read off its result. *)
Lemma boxOf_inv border hull pl :
  boxOf border hull = Some pl ->
  exists w h,
    orientation (degenerate hull (findBest hull)) = (rotation pl, w, h) /\
    box pl = mkPoint (truncate w + border)%Z (truncate h + border)%Z /\
    in_int (truncate w) = true /\ in_int (truncate h) = true.
Proof.
  unfold boxOf. destruct (orientation _) as [[angle w] h].
  intros H. apply bind_Some in H as ([[l t'] bt] & _ & H).
  apply bind_Some in H as (bx & Hbx & [= <-]). simpl.
  unfold saveRect in Hbx.
  apply bind_Some in Hbx as (wi & Hw & Hbx).
  apply bind_Some in Hbx as (hi & Hh & Hbx).
  apply bind_Some in Hbx as (bw & Hbw & Hbx).
  apply bind_Some in Hbx as (bh & Hbh & [= <-]).
  apply static_cast_int_Some in Hw as [-> Hw], Hh as [-> Hh].
  apply int_add_Some in Hbw, Hbh. subst.
  exists w, h. repeat split; assumption.
Qed.

Lemma Forall2_transfer {A B} (R : A -> B -> Prop) (P : A -> Prop)
  (Q : B -> Prop) l1 l2 :
  Forall2 R l1 l2 -> Forall P l1 ->
  (forall a b, R a b -> P a -> Q b) -> Forall Q l2.
Proof.
  intros H2 HP Hstep. induction H2 as [|a b l1 l2 HR _ IH]; constructor.
  - apply (Hstep a b HR). now inversion HP.
  - apply IH. now inversion HP.
Qed.

(** Every placement that the first loop records is the box of the hull of
    its component. *)
Lemma analyseAll_placements G border (ccs : CCsInfo) :
  forall (GA : t G) done GA' pls,
    analyseAll border GA ccs done = Some (GA', pls) ->
    exists hulls new,
      hullsOf GA ccs = Some hulls /\ pls = done ++ new /\
      Forall2 (fun hull pl => boxOf border hull = Some pl) hulls new.
Proof.
  induction ccs as [|cc ccs IH]; intros GA done GA' pls H; simpl in H.
  - injection H as <- <-. exists [], []. rewrite app_nil_r. repeat split. constructor.
  - apply bind_Some in H as ([GA1 pl] & Han & H).
    apply IH in H as (hulls & new & Hhulls & -> & Hall).
    unfold analyse in Han.
    apply bind_Some in Han as ([GA2 hull] & Hc & Han).
    apply bind_Some in Han as (pl' & Hbox & [= <- <-]).
    exists (hull :: hulls), (pl' :: new). split; [|split].
    + simpl. rewrite Hc. cbn [bind]. rewrite Hhulls. reflexivity.
    + rewrite <- app_assoc. reflexivity.
    + constructor; assumption.
Qed.

(** The phases of [reassembleDrawings], read off a successful run. *)
Lemma reassembleDrawings_inv G (self : ComponentSplitterLayout) (GA : t G) ccs GA' log :
  reassembleDrawings self GA ccs = Some (GA', log) ->
  exists GA1 pls packer,
    analyseAll (m_border self) GA ccs [] = Some (GA1, pls) /\
    m_packer self = Some packer /\
    transformAll (map rotation pls)
                 (packer (map box pls)
                         (repeat (mkPoint 0%Z 0%Z) (List.length (map box pls)))
                         (m_targetRatio self))
                 (map oldOffset pls) O GA1 ccs = Some GA' /\
    log = [PackerCall (map box pls) (m_targetRatio self)].
Proof.
  unfold reassembleDrawings. intros H.
  apply bind_Some in H as ([GA1 pls] & Han & H).
  apply bind_Some in H as (packer & Hp & H).
  apply bind_Some in H as (GA2 & Htr & [= <- <-]).
  now exists GA1, pls, packer.
Qed.

(** The box of a hull is at least as wide as it is high; which of the two
    branches built it is decided by the winning width and height. *)
Lemma boxOf_oriented border hull pl :
  boxOf border hull = Some pl ->
  let b := degenerate hull (findBest hull) in
  (m_y (box pl) <= m_x (box pl))%Z /\
  (best_width b < best_height b ->
   rotation pl = baseAngle b + (1 # 2) * Math_pi /\
   box pl = mkPoint (truncate (best_height b) + border)%Z
                    (truncate (best_width b) + border)%Z) /\
  (best_height b <= best_width b ->
   rotation pl = baseAngle b /\
   box pl = mkPoint (truncate (best_width b) + border)%Z
                    (truncate (best_height b) + border)%Z).
Proof.
  intros H b. apply boxOf_inv in H as (w & h & Hor & Hbox & _).
  fold b in Hor.
  destruct (orientation_cases b) as [[Hlt Heq]|[Hle Heq]];
    rewrite Heq in Hor; injection Hor as Hr Hw Hh; subst w h.
  - split; [|split].
    + rewrite Hbox. simpl.
      assert (truncate (best_width b) <= truncate (best_height b))%Z
        by (apply truncate_le; lra). lia.
    + intros _. now split.
    + intros Hle. lra.
  - split; [|split].
    + rewrite Hbox. simpl.
      pose proof (truncate_le Hle). lia.
    + intros Hlt. lra.
    + intros _. now split.
Qed.

Lemma degenerate_small hull b :
  (List.length hull <= 1)%nat ->
  degenerate hull b = mkBest (best_area b) (mkPoint 1 1) 1 1.
Proof.
  intros H. unfold degenerate. apply Nat.leb_le in H. now rewrite H.
Qed.

Lemma saveRect_unit border :
  in_int (1 + border) = true ->
  saveRect border 1 1 = Some (mkPoint (1 + border)%Z (1 + border)%Z).
Proof.
  intros Hb. unfold saveRect.
  change (static_cast_int 1) with (Some 1%Z). cbn [bind].
  unfold int_add. rewrite Hb. reflexivity.
Qed.

(** A hull of one point gets the unit box. *)
Lemma boxOf_single border p :
  in_int (1 + border) = true ->
  exists pl, boxOf border [p] = Some pl /\
             box pl = mkPoint (1 + border)%Z (1 + border)%Z.
Proof.
  intros Hb. unfold boxOf.
  rewrite degenerate_small by (simpl; lia).
  unfold orientation. cbn [best_width best_height].
  change (Qltb 1 1) with false. cbn iota.
  cbn [hullExtent bind].
  destruct (fold_left _ _ _) as [[l t'] bt].
  rewrite (saveRect_unit _ Hb). cbn [bind].
  eexists. split; reflexivity.
Qed.

(** A component of one node without edges: one point is collected and the
    hull is computed from that point alone. *)
Lemma analyse_single_node G border (GA : t G) v :
  in_int (1 + border) = true ->
  (forall p, List.length (CH_call [p]) = 1%nat) ->
  exists GA' pl,
    analyse border GA (mkComponent [v] []) = Some (GA', pl) /\
    box pl = mkPoint (1 + border)%Z (1 + border)%Z.
Proof.
  intros Hb Hhull. unfold analyse, centredHull.
  assert (collectPoints GA (mkComponent [v] [])
          = push_back (mkCollected [] 0 0 0) (mkPoint (x GA v) (y GA v))) as ->.
  { unfold collectPoints. cbn [cc_nodes cc_edges collectNodes collectBends fold_left].
    now destruct (has GA edgeGraphics). }
  unfold centre. cbn [cc_nodes cc_edges foldM points push_back app].
  unfold centreNode at 1. cbn [replace_at bind].
  assert (forall B (s : B), (if has GA edgeGraphics then Some s else Some s) = Some s)
    as Hif by (intros; now destruct (has GA edgeGraphics)).
  rewrite Hif. cbn [bind].
  match goal with |- context [CH_call [?q]] =>
    specialize (Hhull q); destruct (CH_call [q]) as [|h [|h' hull]] eqn:E;
      try discriminate end.
  destruct (@boxOf_single border h Hb) as (pl & Hpl & Hbox).
  rewrite Hpl. cbn [bind]. now eexists _, pl.
Qed.

(** What a run records: one placement per component, the one [boxOf] gives
    for the hull of the component; the boxes are what the packer is called
    with, the rotations and old offsets what the last loop turns and shifts
    by. *)
Lemma reassembleDrawings_placements G (self : ComponentSplitterLayout)
  (GA : t G) (ccs : CCsInfo) GA' log :
  reassembleDrawings self GA ccs = Some (GA', log) ->
  exists hulls pls centred packer,
    hullsOf GA ccs = Some hulls /\
    List.length hulls = List.length ccs /\
    Forall2 (fun hull pl => boxOf (m_border self) hull = Some pl) hulls pls /\
    analyseAll (m_border self) GA ccs [] = Some (centred, pls) /\
    m_packer self = Some packer /\
    log = [PackerCall (map box pls) (m_targetRatio self)] /\
    transformAll (map rotation pls)
                 (packer (map box pls)
                         (repeat (mkPoint 0%Z 0%Z) (List.length (map box pls)))
                         (m_targetRatio self))
                 (map oldOffset pls) O centred ccs = Some GA'.
Proof.
  intros Hrun.
  apply reassembleDrawings_inv in Hrun as (GA1 & pls & packer & Han & Hp & Htr & ->).
  pose proof Han as Han'.
  apply analyseAll_placements in Han' as (hulls & new & Hhulls & -> & Hall).
  exists hulls, new, GA1, packer. rewrite app_nil_l in *.
  split; [exact Hhulls|]. split.
  { clear - Hhulls. revert GA hulls Hhulls.
    induction ccs as [|cc ccs IH]; intros GA hulls H; simpl in H.
    - now injection H as <-.
    - apply bind_Some in H as ([GA1 hull] & _ & H).
      apply bind_Some in H as (hulls' & H & [= <-]). simpl. f_equal.
      exact (IH _ _ H). }
  now repeat split.
Qed.

(** C5. A run of [reassembleDrawings] records one box for every component and
    hands them, in the order of the components, to the packer; every one of
    them is at least as wide as it is high.  The box of a component is built
    from the hull of the component after the orientation is normalised: when
    the winning width is smaller than the winning height, a quarter turn is
    added to the rotation angle and the box takes the height as its width and
    the width as its height; otherwise angle, width and height are kept.  The
    angles so recorded are the ones the last loop turns the components by. *)
Theorem box_width_at_least_height G (self : ComponentSplitterLayout)
  (GA : t G) (ccs : CCsInfo) GA' log :
  reassembleDrawings self GA ccs = Some (GA', log) ->
  exists hulls pls centred packer,
    hullsOf GA ccs = Some hulls /\
    List.length hulls = List.length ccs /\
    log = [PackerCall (map box pls) (m_targetRatio self)] /\
    Forall (fun b : IPoint => (m_y b <= m_x b)%Z) (map box pls) /\
    Forall2
      (fun hull pl =>
         boxOf (m_border self) hull = Some pl /\
         (best_width (degenerate hull (findBest hull))
          < best_height (degenerate hull (findBest hull)) ->
          rotation pl
          = baseAngle (degenerate hull (findBest hull)) + (1 # 2) * Math_pi /\
          box pl
          = mkPoint (truncate (best_height (degenerate hull (findBest hull)))
                     + m_border self)%Z
                    (truncate (best_width (degenerate hull (findBest hull)))
                     + m_border self)%Z) /\
         (best_height (degenerate hull (findBest hull))
          <= best_width (degenerate hull (findBest hull)) ->
          rotation pl = baseAngle (degenerate hull (findBest hull)) /\
          box pl
          = mkPoint (truncate (best_width (degenerate hull (findBest hull)))
                     + m_border self)%Z
                    (truncate (best_height (degenerate hull (findBest hull)))
                     + m_border self)%Z))
      hulls pls /\
    analyseAll (m_border self) GA ccs [] = Some (centred, pls) /\
    m_packer self = Some packer /\
    transformAll (map rotation pls)
                 (packer (map box pls)
                         (repeat (mkPoint 0%Z 0%Z) (List.length (map box pls)))
                         (m_targetRatio self))
                 (map oldOffset pls) O centred ccs = Some GA'.
Proof.
  intros Hrun.
  apply reassembleDrawings_placements in Hrun
    as (hulls & pls & centred & packer & Hh & Hlen & Hall & Han & Hp & Hlog & Htr).
  exists hulls, pls, centred, packer.
  split; [exact Hh|]. split; [exact Hlen|]. split; [exact Hlog|].
  split; [|split; [|now repeat split]].
  - apply Forall_map.
    eapply Forall2_transfer with (P := fun _ => True); [exact Hall | |].
    + apply Forall_forall. trivial.
    + intros hull pl Hbox _. now apply boxOf_oriented in Hbox.
  - clear - Hall. induction Hall as [|hull pl hulls pls Hbox _ IH]; constructor;
      [|exact IH].
    split; [exact Hbox|]. apply boxOf_oriented in Hbox. cbv zeta in Hbox.
    destruct Hbox as (_ & Hlt & Hle). now split.
Qed.

(** Where the clamps reach the packer.  In a run of [reassembleDrawings] the
    calipers clamp the height and the width of every candidate to at least 1.
    When each hull that the run computes either has at most one point or has
    a candidate whose area does not exceed the initial [best_area],
    [DBL_MAX], both sides of every box handed to the packer are at least
    [1 + border], hence at least 31 with the border the constructor sets. *)
Theorem box_at_least_unit_plus_border G (self : ComponentSplitterLayout)
  (GA : t G) (ccs : CCsInfo) GA' log hulls bx r :
  reassembleDrawings self GA ccs = Some (GA', log) ->
  hullsOf GA ccs = Some hulls ->
  Forall (fun hull =>
            (List.length hull <= 1)%nat \/
            Exists (fun c => cand_area c <= DBL_MAX) (candidates hull)) hulls ->
  In (PackerCall bx r) log ->
  Forall (fun hull =>
            Forall (fun c => 1 <= cand_dist c /\ 1 <= cand_width c)
                   (candidates hull)) hulls /\
  Forall (fun b : IPoint =>
            (1 + m_border self <= m_x b)%Z /\ (1 + m_border self <= m_y b)%Z) bx /\
  (forall packer, self = ComponentSplitterLayout_new packer ->
     Forall (fun b : IPoint => (31 <= m_x b)%Z /\ (31 <= m_y b)%Z) bx).
Proof.
  intros Hrun Hhulls Hok Hlog.
  apply reassembleDrawings_inv in Hrun as (GA1 & pls & packer & Han & _ & _ & ->).
  destruct Hlog as [[= <- <-]|[]].
  apply analyseAll_placements in Han as (hulls' & new & Hhulls' & -> & Hall).
  rewrite Hhulls in Hhulls'. injection Hhulls' as <-.
  assert (Forall (fun b : IPoint =>
            (1 + m_border self <= m_x b)%Z /\ (1 + m_border self <= m_y b)%Z)
            (map box ([] ++ new))) as Hbound.
  { rewrite app_nil_l. apply Forall_map.
    eapply Forall2_transfer; [exact Hall | exact Hok |].
    intros hull pl Hbox Hhull.
    apply findBest_unit in Hhull as [Hw Hh].
    apply boxOf_inv in Hbox as (w & h & Hor & Hbox & _).
    rewrite Hbox. cbn [m_x m_y].
    destruct (orientation_cases (degenerate hull (findBest hull)))
      as [[_ Heq]|[_ Heq]];
      rewrite Heq in Hor; injection Hor as _ <- <-;
      pose proof (truncate_ge_1 Hw); pose proof (truncate_ge_1 Hh); lia. }
  split; [|split].
  - apply Forall_forall. intros hull _. apply candidates_clamped.
  - exact Hbound.
  - intros packer' ->. exact Hbound.
Qed.

(** C8. A hull of at most one point gets width 1, height 1 and the normal
    (1,1), whatever the search stored; with the border the constructor sets,
    the box of a one-point hull is (31,31), and so is the box of a component
    of a single node, whose hull is computed from one point. *)
Theorem degenerate_hull_unit_box (hull : DPolygon) :
  (List.length hull <= 1)%nat ->
  (best_width (degenerate hull (findBest hull)) = 1 /\
   best_height (degenerate hull (findBest hull)) = 1 /\
   best_normal (degenerate hull (findBest hull)) = mkPoint 1 1) /\
  (forall packer, hull <> [] ->
     exists pl,
       boxOf (m_border (ComponentSplitterLayout_new packer)) hull = Some pl /\
       box pl = mkPoint 31%Z 31%Z) /\
  (forall packer G (GA : t G) v,
     (forall p, List.length (CH_call [p]) = 1%nat) ->
     exists GA' pl,
       analyse (m_border (ComponentSplitterLayout_new packer)) GA
               (mkComponent [v] []) = Some (GA', pl) /\
       box pl = mkPoint 31%Z 31%Z).
Proof.
  intros Hlen. split; [|split].
  - rewrite degenerate_small by exact Hlen. now repeat split.
  - intros packer Hne. destruct hull as [|p [|q hull]];
      [congruence | | simpl in Hlen; lia].
    now apply boxOf_single.
  - intros packer G GA v Hhull. now apply analyse_single_node.
Qed.

(** C9. Without a secondary layout, or on a graph without connected
    component, [call] returns the attributes as they were and has called
    neither the secondary layout, nor [reassembleDrawings], nor the
    packer. *)
Theorem call_is_noop (self : ComponentSplitterLayout) (GA : t Graph) :
  m_secondaryLayout self = None \/
  numberOfCCs (CCsInfo_new (constGraph GA)) = 0%nat ->
  call self GA = Some (GA, []).
Proof.
  intros [H|H]; unfold call.
  - now rewrite H.
  - destruct (m_secondaryLayout self); [|reflexivity]. now rewrite H.
Qed.

(** ** Collecting the points of a component *)

Lemma Qsum_app l1 l2 : Qsum (l1 ++ l2) == Qsum l1 + Qsum l2.
Proof.
  induction l1 as [|a l1 IH]; simpl; [ring|]. rewrite IH. ring.
Qed.

Lemma push_back_fold bs : forall c,
  points (fold_left push_back bs c) = points c ++ bs /\
  sum_x (fold_left push_back bs c) == sum_x c + Qsum (map (@m_x Q) bs) /\
  sum_y (fold_left push_back bs c) == sum_y c + Qsum (map (@m_y Q) bs) /\
  nbBends (fold_left push_back bs c) = nbBends c.
Proof.
  induction bs as [|b bs IH]; intros c; simpl.
  - rewrite app_nil_r. repeat split; ring.
  - destruct (IH (push_back c b)) as (Hp & Hx & Hy & Hn).
    rewrite Hp, Hx, Hy, Hn. simpl. rewrite <- app_assoc. simpl.
    repeat split; ring.
Qed.

Lemma length_nodePoints G (GA : t G) nodes :
  List.length (nodePoints GA nodes) = List.length nodes.
Proof. apply length_map. Qed.

Lemma collectNodes_spec G (GA : t G) nodes : forall c,
  points (collectNodes GA nodes c) = points c ++ nodePoints GA nodes /\
  sum_x (collectNodes GA nodes c)
    == sum_x c + Qsum (map (@m_x Q) (nodePoints GA nodes)) /\
  sum_y (collectNodes GA nodes c)
    == sum_y c + Qsum (map (@m_y Q) (nodePoints GA nodes)) /\
  nbBends (collectNodes GA nodes c) = nbBends c.
Proof.
  unfold collectNodes, nodePoints.
  induction nodes as [|v nodes IH]; intros c; simpl.
  - rewrite app_nil_r. repeat split; ring.
  - destruct (IH (push_back c (mkPoint (x GA v) (y GA v)))) as (Hp & Hx & Hy & Hn).
    rewrite Hp, Hx, Hy, Hn. simpl. rewrite <- app_assoc. simpl.
    repeat split; ring.
Qed.

Lemma collectBends_spec G (GA : t G) edges : forall c,
  points (collectBends GA edges c) = points c ++ bendPoints GA edges /\
  sum_x (collectBends GA edges c)
    == sum_x c + Qsum (map (@m_x Q) (bendPoints GA edges)) /\
  sum_y (collectBends GA edges c)
    == sum_y c + Qsum (map (@m_y Q) (bendPoints GA edges)) /\
  nbBends (collectBends GA edges c)
    = (nbBends c + List.length (bendPoints GA edges))%nat.
Proof.
  unfold collectBends, bendPoints.
  induction edges as [|e edges IH]; intros c; simpl.
  - rewrite app_nil_r, Nat.add_0_r. repeat split; ring.
  - match goal with |- context [fold_left _ edges ?c'] =>
      destruct (IH c') as (Hp & Hx & Hy & Hn) end.
    rewrite Hp, Hx, Hy, Hn. simpl.
    destruct (push_back_fold (bends GA e) c) as (Hp' & Hx' & Hy' & Hn').
    rewrite Hp', Hx', Hy', Hn'.
    rewrite !map_app, !Qsum_app, length_app, <- app_assoc.
    unfold DPolyline, DPoint in *. repeat split; ring.
Qed.

(** What [collectPoints] collects: the node positions, then the bends edge
    by edge; the sums run over exactly these points and the divisor is their
    number. *)
Lemma collectPoints_spec G (GA : t G) cc :
  let c := collectPoints GA cc in
  points c = nodePoints GA (cc_nodes cc)
             ++ (if has GA edgeGraphics then bendPoints GA (cc_edges cc) else []) /\
  sum_x c == Qsum (map (@m_x Q) (points c)) /\
  sum_y c == Qsum (map (@m_y Q) (points c)) /\
  divisor cc c = inject_Z (Z.of_nat (List.length (points c))).
Proof.
  unfold collectPoints, divisor.
  destruct (collectNodes_spec GA (cc_nodes cc) (mkCollected [] 0 0 0))
    as (Hp & Hx & Hy & Hn). simpl in Hp, Hx, Hy, Hn.
  destruct (has GA edgeGraphics).
  - destruct (collectBends_spec GA (cc_edges cc)
                (collectNodes GA (cc_nodes cc) (mkCollected [] 0 0 0)))
      as (Hp' & Hx' & Hy' & Hn').
    cbv zeta. rewrite Hp', Hx', Hy', Hn', Hp, Hx, Hy, Hn.
    rewrite !map_app, !Qsum_app, length_app, length_nodePoints.
    unfold DPolyline, DPoint in *. repeat split; ring.
  - cbv zeta. rewrite Hp, Hx, Hy, Hn, app_nil_r.
    rewrite length_nodePoints, Nat.add_0_r.
    unfold DPolyline, DPoint in *. repeat split; ring.
Qed.

(** ** Centring *)

Lemma update_same {A} (arr : nat -> A) i a : update arr i a i = a.
Proof. unfold update. now rewrite Nat.eqb_refl. Qed.

Lemma update_other {A} (arr : nat -> A) i a j : j <> i -> update arr i a j = arr j.
Proof. unfold update. intros H. apply Nat.eqb_neq in H. now rewrite H. Qed.

Lemma replace_at_middle {A} (f : A -> A) pre a post :
  replace_at (pre ++ a :: post) (List.length pre) f = Some (pre ++ f a :: post).
Proof.
  induction pre as [|b pre IH]; simpl; [reflexivity|]. now rewrite IH.
Qed.

Lemma split_length {A} (l : list A) a b :
  List.length l = (a + b)%nat ->
  exists l1 l2, l = l1 ++ l2 /\ List.length l1 = a /\ List.length l2 = b.
Proof.
  intros H. exists (firstn a l), (skipn a l).
  rewrite firstn_skipn, length_firstn, length_skipn. repeat split; lia.
Qed.

Section Centring.

Variables (G : Type) (avg_x avg_y : Q).

(** The node loop: it moves the nodes it visits, and the points of the
    vector from [count] on, one for each node. *)
Lemma centreNodes_spec nodes : forall (GA : t G) pre mid post,
  List.length mid = List.length nodes -> NoDup nodes ->
  exists GA',
    foldM (centreNode avg_x avg_y) nodes (GA, pre ++ mid ++ post, List.length pre)
    = Some (GA', pre ++ map (translate avg_x avg_y) mid ++ post,
            (List.length pre + List.length nodes)%nat) /\
    attributes GA' = attributes GA /\ bends GA' = bends GA /\
    (forall v, In v nodes ->
               x GA' v = x GA v - avg_x /\ y GA' v = y GA v - avg_y) /\
    (forall v, ~ In v nodes -> x GA' v = x GA v /\ y GA' v = y GA v).
Proof.
  induction nodes as [|v nodes IH]; intros GA pre mid post Hlen Hnd.
  - destruct mid; [|discriminate]. exists GA. simpl. rewrite Nat.add_0_r.
    split; [reflexivity|]. split; [reflexivity|]. split; [reflexivity|].
    split; [intros ? [] | intros; now split].
  - destruct mid as [|m mid]; [discriminate|]. injection Hlen as Hlen.
    inversion Hnd as [|? ? Hnin Hnd']; subst.
    cbn [foldM]. unfold centreNode at 1. cbn [app].
    rewrite replace_at_middle. cbn [bind].
    set (GA1 := set_y (set_x GA v (x GA v - avg_x)) v _).
    destruct (IH GA1 (pre ++ [translate avg_x avg_y m]) mid post Hlen Hnd')
      as (GA' & Hrun & Hattr & Hbends & Hin & Hout).
    exists GA'. split; [|split; [|split; [|split]]].
    + rewrite <- app_assoc, length_app in Hrun. simpl in Hrun.
      rewrite Nat.add_1_r in Hrun. rewrite Hrun. simpl.
      rewrite <- app_assoc. simpl. do 2 f_equal. lia.
    + rewrite Hattr. reflexivity.
    + rewrite Hbends. reflexivity.
    + intros w [<-|Hw].
      * destruct (Hout v Hnin) as [-> ->]. subst GA1. simpl.
        now rewrite !update_same.
      * destruct (Hin w Hw) as [-> ->].
        assert (w <> v) as Hne by (intros ->; contradiction).
        subst GA1. simpl. now rewrite !(update_other _ _ Hne).
    + intros w Hw.
      assert (w <> v) as Hne by (intros ->; apply Hw; now left).
      destruct (Hout w) as [-> ->]; [intros H; apply Hw; now right|].
      subst GA1. simpl. now rewrite !(update_other _ _ Hne).
Qed.

(** The inner bend loop on one polyline. *)
Lemma centrePolyline_spec bs : forall pre mid post,
  List.length mid = List.length bs ->
  centrePolyline avg_x avg_y bs (pre ++ mid ++ post) (List.length pre)
  = Some (map (translate avg_x avg_y) bs, pre ++ map (translate avg_x avg_y) mid ++ post,
          (List.length pre + List.length bs)%nat).
Proof.
  induction bs as [|b bs IH]; intros pre mid post Hlen.
  - destruct mid; [|discriminate]. simpl. now rewrite Nat.add_0_r.
  - destruct mid as [|m mid]; [discriminate|]. injection Hlen as Hlen.
    cbn [centrePolyline app]. rewrite replace_at_middle. cbn [bind].
    specialize (IH (pre ++ [translate avg_x avg_y m]) mid post Hlen).
    rewrite <- app_assoc, length_app in IH. simpl in IH.
    rewrite Nat.add_1_r in IH. rewrite IH. cbn [bind]. simpl.
    rewrite <- app_assoc. simpl. do 2 f_equal. lia.
Qed.

(** The edge loop: it moves the bends of the edges it visits, and as many
    points of the vector from [count] on. *)
Lemma centreEdges_spec edges : forall (GA : t G) pre mid post,
  List.length mid = List.length (bendPoints GA edges) -> NoDup edges ->
  exists GA',
    foldM (centreEdge avg_x avg_y) edges (GA, pre ++ mid ++ post, List.length pre)
    = Some (GA', pre ++ map (translate avg_x avg_y) mid ++ post,
            (List.length pre + List.length mid)%nat) /\
    attributes GA' = attributes GA /\ x GA' = x GA /\ y GA' = y GA /\
    (forall e, In e edges -> bends GA' e = map (translate avg_x avg_y) (bends GA e)) /\
    (forall e, ~ In e edges -> bends GA' e = bends GA e).
Proof.
  induction edges as [|e edges IH]; intros GA pre mid post Hlen Hnd.
  - destruct mid; [|discriminate]. exists GA. simpl. rewrite Nat.add_0_r.
    split; [reflexivity|]. split; [reflexivity|]. split; [reflexivity|].
    split; [reflexivity|]. split; [intros ? [] | reflexivity].
  - inversion Hnd as [|? ? Hnin Hnd']; subst.
    unfold bendPoints in Hlen. simpl in Hlen. rewrite length_app in Hlen.
    apply split_length in Hlen as (m1 & m2 & -> & Hm1 & Hm2).
    cbn [foldM]. unfold centreEdge at 1.
    rewrite <- (app_assoc m1 m2 post), (centrePolyline_spec _ _ _ _ Hm1).
    cbn [bind].
    set (GA1 := set_bends GA e (map (translate avg_x avg_y) (bends GA e))).
    assert (bendPoints GA1 edges = bendPoints GA edges) as Hsame.
    { unfold bendPoints. rewrite !flat_map_concat_map. f_equal.
      apply map_ext_in. intros e' He'. subst GA1. simpl.
      apply update_other. intros ->. contradiction. }
    destruct (IH GA1 (pre ++ map (translate avg_x avg_y) m1) m2 post) as
      (GA' & Hrun & Hattr & Hx & Hy & Hin & Hout);
      [now rewrite Hsame | exact Hnd' |].
    exists GA'. split; [|split; [|split; [|split; [|split]]]].
    + rewrite <- app_assoc, length_app, length_map in Hrun.
      rewrite Hm1 in Hrun. rewrite Hrun.
      rewrite map_app, length_app, Hm1, <- !app_assoc, Nat.add_assoc.
      reflexivity.
    + rewrite Hattr. reflexivity.
    + rewrite Hx. reflexivity.
    + rewrite Hy. reflexivity.
    + intros e' [<-|He'].
      * rewrite (Hout e Hnin). subst GA1. simpl. now rewrite update_same.
      * rewrite (Hin e' He'). subst GA1. simpl. rewrite update_other; [reflexivity|].
        intros ->. contradiction.
    + intros e' He'. rewrite Hout by (intros H; apply He'; now right).
      subst GA1. simpl. apply update_other. intros ->. apply He'. now left.
Qed.

End Centring.

Lemma inject_Z_succ n :
  inject_Z (Z.of_nat (S n)) == inject_Z (Z.of_nat n) + 1.
Proof.
  rewrite Nat2Z.inj_succ. unfold Z.succ. rewrite inject_Z_plus. reflexivity.
Qed.

Lemma Qsum_translate_x avg_x avg_y (l : list DPoint) :
  Qsum (map (@m_x Q) (map (translate avg_x avg_y) l))
  == Qsum (map (@m_x Q) l) - inject_Z (Z.of_nat (List.length l)) * avg_x.
Proof.
  induction l as [|p l IH].
  - simpl. ring.
  - cbn [map Qsum fold_right List.length]. fold (Qsum (map (@m_x Q) l)).
    fold (Qsum (map (@m_x Q) (map (translate avg_x avg_y) l))).
    rewrite IH, inject_Z_succ. simpl. ring.
Qed.

Lemma Qsum_translate_y avg_x avg_y (l : list DPoint) :
  Qsum (map (@m_y Q) (map (translate avg_x avg_y) l))
  == Qsum (map (@m_y Q) l) - inject_Z (Z.of_nat (List.length l)) * avg_y.
Proof.
  induction l as [|p l IH].
  - simpl. ring.
  - cbn [map Qsum fold_right List.length]. fold (Qsum (map (@m_y Q) l)).
    fold (Qsum (map (@m_y Q) (map (translate avg_x avg_y) l))).
    rewrite IH, inject_Z_succ. simpl. ring.
Qed.

Lemma inject_Z_length_nonzero {A} (l : list A) :
  l <> [] -> ~ inject_Z (Z.of_nat (List.length l)) == 0.
Proof.
  intros Hne. destruct l; [congruence|].
  unfold Qeq. simpl. lia.
Qed.

(** Subtracting the mean of the points from each of them leaves points of
    mean zero. *)
Lemma mean_translate_zero (l : list DPoint) sx sy :
  l <> [] ->
  sx == Qsum (map (@m_x Q) l) -> sy == Qsum (map (@m_y Q) l) ->
  let n := inject_Z (Z.of_nat (List.length l)) in
  mean (map (@m_x Q) (map (translate (sx / n) (sy / n)) l)) == 0 /\
  mean (map (@m_y Q) (map (translate (sx / n) (sy / n)) l)) == 0.
Proof.
  intros Hne Hx Hy n. unfold mean. rewrite !length_map. fold n.
  pose proof (inject_Z_length_nonzero Hne) as Hn. fold n in Hn.
  rewrite Qsum_translate_x, Qsum_translate_y. fold n. rewrite <- Hx, <- Hy.
  split; field; exact Hn.
Qed.

Lemma bendPoints_map G (GA GA' : t G) (f : DPoint -> DPoint) edges :
  (forall e, In e edges -> bends GA' e = map f (bends GA e)) ->
  bendPoints GA' edges = map f (bendPoints GA edges).
Proof.
  unfold bendPoints. induction edges as [|e edges IH]; intros H; simpl.
  - reflexivity.
  - rewrite map_app, (H e (or_introl eq_refl)), IH; [reflexivity|].
    intros e' He'. apply H. now right.
Qed.

(** ** The final transform *)

Lemma NoDup_app_disjoint {A} (l1 l2 : list A) :
  NoDup (l1 ++ l2) -> forall a, In a l1 -> ~ In a l2.
Proof.
  induction l1 as [|b l1 IH]; intros Hnd a Ha; [contradiction|].
  inversion Hnd as [|? ? Hnin Hnd']; subst. destruct Ha as [<-|Ha].
  - intros H. apply Hnin. apply in_or_app. now right.
  - now apply IH.
Qed.

Lemma mapM_Forall2 {A B} (f : A -> option B) l : forall l',
  mapM f l = Some l' -> Forall2 (fun a b => f a = Some b) l l'.
Proof.
  induction l as [|a l IH]; intros l' H; simpl in H.
  - injection H as <-. constructor.
  - apply bind_Some in H as (b & Hb & H).
    apply bind_Some in H as (bs & Hbs & [= <-]).
    constructor; [exact Hb | now apply IH].
Qed.

Section FinalTransform.

Variables (G : Type) (rot : list Q) (offset : list IPoint) (old : list DPoint).

Lemma transformNodes_spec index nodes : forall (GA GA' : t G),
  NoDup nodes ->
  foldM (transformNode rot offset old index) nodes GA = Some GA' ->
  attributes GA' = attributes GA /\ bends GA' = bends GA /\
  (forall v, In v nodes ->
     pointTransform rot offset old index (mkPoint (x GA v) (y GA v))
     = Some (mkPoint (x GA' v) (y GA' v))) /\
  (forall v, ~ In v nodes -> x GA' v = x GA v /\ y GA' v = y GA v).
Proof.
  induction nodes as [|v nodes IH]; intros GA GA' Hnd H; simpl in H.
  - injection H as <-. repeat split; try reflexivity. intros ? [].
  - inversion Hnd as [|? ? Hnin Hnd']; subst.
    apply bind_Some in H as (GA1 & Hstep & H).
    unfold transformNode in Hstep.
    apply bind_Some in Hstep as (rp & Hrp & [= <-]).
    destruct (IH _ _ Hnd' H) as (Hattr & Hbends & Hin & Hout).
    split; [now rewrite Hattr|]. split; [now rewrite Hbends|]. split.
    + intros w [<-|Hw].
      * destruct (Hout v Hnin) as [-> ->]. simpl. rewrite !update_same.
        unfold pointTransform. rewrite Hrp. now destruct rp.
      * assert (w <> v) as Hne by (intros ->; contradiction).
        rewrite <- (Hin w Hw). simpl. now rewrite !(update_other _ _ Hne).
    + intros w Hw.
      assert (w <> v) as Hne by (intros ->; apply Hw; now left).
      destruct (Hout w) as [-> ->]; [intros Hx; apply Hw; now right|].
      simpl. now rewrite !(update_other _ _ Hne).
Qed.

Lemma transformEdges_spec index edges : forall (GA GA' : t G),
  NoDup edges ->
  foldM (transformEdge rot offset old index) edges GA = Some GA' ->
  attributes GA' = attributes GA /\ x GA' = x GA /\ y GA' = y GA /\
  (forall e, In e edges ->
     mapM (pointTransform rot offset old index) (bends GA e) = Some (bends GA' e)) /\
  (forall e, ~ In e edges -> bends GA' e = bends GA e).
Proof.
  induction edges as [|e edges IH]; intros GA GA' Hnd H; simpl in H.
  - injection H as <-. repeat split; try reflexivity. intros ? [].
  - inversion Hnd as [|? ? Hnin Hnd']; subst.
    apply bind_Some in H as (GA1 & Hstep & H).
    unfold transformEdge in Hstep.
    apply bind_Some in Hstep as (bs & Hbs & [= <-]).
    destruct (IH _ _ Hnd' H) as (Hattr & Hx & Hy & Hin & Hout).
    split; [now rewrite Hattr|]. split; [now rewrite Hx|].
    split; [now rewrite Hy|]. split.
    + intros e' [<-|He'].
      * rewrite (Hout e Hnin). simpl. rewrite update_same. exact Hbs.
      * rewrite <- (Hin e' He'). simpl. rewrite update_other; [reflexivity|].
        intros ->. contradiction.
    + intros e' He'. rewrite Hout by (intros Hx'; apply He'; now right).
      simpl. apply update_other. intros ->. apply He'. now left.
Qed.

Lemma transformComponent_spec index cc (GA GA' : t G) :
  NoDup (cc_nodes cc) -> NoDup (cc_edges cc) ->
  transformComponent rot offset old index GA cc = Some GA' ->
  attributes GA' = attributes GA /\
  (forall v, In v (cc_nodes cc) ->
     pointTransform rot offset old index (mkPoint (x GA v) (y GA v))
     = Some (mkPoint (x GA' v) (y GA' v))) /\
  (forall v, ~ In v (cc_nodes cc) -> x GA' v = x GA v /\ y GA' v = y GA v) /\
  (has GA edgeGraphics = true ->
   forall e, In e (cc_edges cc) ->
     mapM (pointTransform rot offset old index) (bends GA e) = Some (bends GA' e)) /\
  (forall e, ~ In e (cc_edges cc) -> bends GA' e = bends GA e).
Proof.
  intros Hnd_n Hnd_e H. unfold transformComponent in H.
  apply bind_Some in H as (GA1 & Hn & H).
  apply transformNodes_spec in Hn as (Hattr1 & Hbends1 & Hin1 & Hout1);
    [|exact Hnd_n].
  unfold has in *. rewrite Hattr1 in H.
  destruct (attributes GA edgeGraphics) eqn:Hhas.
  - apply transformEdges_spec in H as (Hattr2 & Hx2 & Hy2 & Hin2 & Hout2);
      [|exact Hnd_e].
    split; [now rewrite Hattr2|]. rewrite Hx2, Hy2.
    split; [exact Hin1|]. split; [exact Hout1|]. split.
    + intros _ e He. rewrite <- Hbends1. now apply Hin2.
    + intros e He. rewrite <- Hbends1. now apply Hout2.
  - injection H as <-.
    split; [exact Hattr1|]. split; [exact Hin1|]. split; [exact Hout1|]. split.
    + discriminate.
    + intros e _. now rewrite Hbends1.
Qed.

(** The last loop: component [j] of [ccs] is transformed with index
    [index + j], and nothing outside the components is touched. *)
Lemma transformAll_spec ccs : forall index (GA GA' : t G),
  NoDup (flat_map cc_nodes ccs) -> NoDup (flat_map cc_edges ccs) ->
  transformAll rot offset old index GA ccs = Some GA' ->
  attributes GA' = attributes GA /\
  (forall j cc, nth_error ccs j = Some cc ->
     (forall v, In v (cc_nodes cc) ->
        pointTransform rot offset old (index + j) (mkPoint (x GA v) (y GA v))
        = Some (mkPoint (x GA' v) (y GA' v))) /\
     (has GA edgeGraphics = true ->
      forall e, In e (cc_edges cc) ->
        mapM (pointTransform rot offset old (index + j)) (bends GA e) = Some (bends GA' e))) /\
  (forall v, ~ In v (flat_map cc_nodes ccs) ->
             x GA' v = x GA v /\ y GA' v = y GA v) /\
  (forall e, ~ In e (flat_map cc_edges ccs) -> bends GA' e = bends GA e).
Proof.
  induction ccs as [|cc ccs IH]; intros index GA GA' Hnd_n Hnd_e H; simpl in H.
  - injection H as <-. split; [reflexivity|]. split; [|split].
    + intros [|j] cc' Hj; discriminate.
    + intros; now split.
    + reflexivity.
  - apply bind_Some in H as (GA1 & Hc & H). simpl in Hnd_n, Hnd_e.
    apply transformComponent_spec in Hc
      as (Hattr1 & Hin1 & Hout1 & Hbin1 & Hbout1);
      [| exact (NoDup_app_remove_r _ _ Hnd_n)
       | exact (NoDup_app_remove_r _ _ Hnd_e)].
    destruct (IH _ _ _ (NoDup_app_remove_l _ _ Hnd_n)
                (NoDup_app_remove_l _ _ Hnd_e) H)
      as (Hattr & Hcomp & Hout & Hbout).
    pose proof (NoDup_app_disjoint _ _ Hnd_n) as Hdis_n.
    pose proof (NoDup_app_disjoint _ _ Hnd_e) as Hdis_e.
    split; [now rewrite Hattr|]. split; [|split].
    + intros [|j] cc' Hj; simpl in Hj.
      * injection Hj as <-. rewrite Nat.add_0_r. split.
        -- intros v Hv. destruct (Hout v (Hdis_n v Hv)) as [-> ->].
           now apply Hin1.
        -- intros Hhas e He. rewrite (Hbout e (Hdis_e e He)). now apply Hbin1.
      * destruct (Hcomp j cc' Hj) as [Hn He].
        rewrite Nat.add_succ_r. split.
        -- intros v Hv.
           assert (~ In v (cc_nodes cc)) as Hnot.
           { intros Hin. apply (Hdis_n v Hin). apply in_flat_map.
             exists cc'. split; [now apply nth_error_In in Hj | exact Hv]. }
           destruct (Hout1 v Hnot) as [<- <-]. now apply Hn.
        -- intros Hhas e Hin_e.
           assert (~ In e (cc_edges cc)) as Hnot.
           { intros Hin. apply (Hdis_e e Hin). apply in_flat_map.
             exists cc'. split; [now apply nth_error_In in Hj | exact Hin_e]. }
           rewrite <- (Hbout1 e Hnot). apply He; [|exact Hin_e].
           unfold has in *. now rewrite Hattr1.
    + intros v Hv.
      destruct (Hout v) as [-> ->]; [intros Hx; apply Hv; apply in_or_app; now right|].
      apply Hout1. intros Hx; apply Hv; apply in_or_app; now left.
    + intros e He.
      rewrite Hbout by (intros Hx; apply He; apply in_or_app; now right).
      apply Hbout1. intros Hx; apply He; apply in_or_app; now left.
Qed.

End FinalTransform.

Lemma foldM_invariant {S A} (f : S -> A -> option S) (P : S -> Prop) :
  (forall s a s', P s -> f s a = Some s' -> P s') ->
  forall l s s', P s -> foldM f l s = Some s' -> P s'.
Proof.
  intros Hstep. induction l as [|a l IH]; intros s s' Hs H; simpl in H.
  - now injection H as <-.
  - apply bind_Some in H as (s1 & H1 & H). exact (IH _ _ (Hstep _ _ _ Hs H1) H).
Qed.

(** The first loop leaves the attribute flags alone. *)
Lemma centre_attributes G (GA : t G) cc pts avg_x avg_y GA' pts' count :
  centre GA cc pts avg_x avg_y = Some (GA', pts', count) ->
  attributes GA' = attributes GA.
Proof.
  unfold centre. intros H. apply bind_Some in H as (s1 & H1 & H).
  assert (attributes (fst (fst s1)) = attributes GA) as Hs1.
  { apply (foldM_invariant (centreNode avg_x avg_y)
             (fun s => attributes (fst (fst s)) = attributes GA)) in H1;
      [exact H1 | | reflexivity].
    intros [[GA0 p0] c0] v s' Hs Hstep. unfold centreNode in Hstep.
    apply bind_Some in Hstep as (p1 & _ & [= <-]). exact Hs. }
  destruct (has GA edgeGraphics).
  - apply (foldM_invariant (centreEdge avg_x avg_y)
             (fun s => attributes (fst (fst s)) = attributes GA)) in H;
      [exact H | | exact Hs1].
    intros [[GA0 p0] c0] e s' Hs Hstep. unfold centreEdge in Hstep.
    apply bind_Some in Hstep as ([[bs p1] c1] & _ & [= <-]). exact Hs.
  - injection H as ->. exact Hs1.
Qed.

Lemma analyseAll_attributes G border ccs : forall (GA : t G) done GA' pls,
  analyseAll border GA ccs done = Some (GA', pls) ->
  attributes GA' = attributes GA.
Proof.
  induction ccs as [|cc ccs IH]; intros GA done GA' pls H; simpl in H.
  - now injection H as <- _.
  - apply bind_Some in H as ([GA1 pl] & Han & H).
    apply IH in H. rewrite H. unfold analyse, centredHull in Han.
    apply bind_Some in Han as ([GA2 hull] & Hc & Han).
    apply bind_Some in Han as (pl' & _ & [= <- _]).
    apply bind_Some in Hc as ([[GA3 pts] cnt] & Hc & [= <- _]).
    exact (centre_attributes _ _ _ _ _ Hc).
Qed.

(** What [rotatePoint] computes: the point turned by the angle of the
    component, plus the offset of the packer, minus the old offset. *)
Lemma rotatePoint_inv rot offset old p index q :
  rotatePoint rot offset old p index = Some q ->
  exists angle o d,
    nth_error rot index = Some angle /\ nth_error offset index = Some o /\
    nth_error old index = Some d /\
    q = mkPoint (m_x (turn angle p) + inject_Z (m_x o) - m_x d)
                (m_y (turn angle p) + inject_Z (m_y o) - m_y d).
Proof.
  unfold rotatePoint. intros H.
  apply bind_Some in H as (angle & Ha & H).
  apply bind_Some in H as (o & Ho & H).
  apply bind_Some in H as (d & Hd & [= <-]).
  now exists angle, o, d.
Qed.

(** C6. On components that share no node and no edge, a successful run of
    [reassembleDrawings] writes back, for every node and for every bend of
    every component, the image of its centred position under one and the same
    function, [rotatePoint] with the index of the component: the turn by the
    component's rotation angle, plus the offset the packer gave the component,
    minus the component's own old offset.  Nodes and bends are not told
    apart. *)
Theorem final_transform_uniform G (self : ComponentSplitterLayout)
  (GA : t G) (ccs : CCsInfo) GA' log :
  NoDup (flat_map cc_nodes ccs) -> NoDup (flat_map cc_edges ccs) ->
  reassembleDrawings self GA ccs = Some (GA', log) ->
  exists centred placements packer,
    analyseAll (m_border self) GA ccs [] = Some (centred, placements) /\
    m_packer self = Some packer /\
    let offset :=
      packer (map box placements)
             (repeat (mkPoint 0%Z 0%Z) (List.length (map box placements)))
             (m_targetRatio self) in
    let transform index p :=
      rotatePoint (map rotation placements) offset (map oldOffset placements)
                  p index in
    forall j cc, nth_error ccs j = Some cc ->
      (forall v, In v (cc_nodes cc) ->
         transform j (mkPoint (x centred v) (y centred v))
         = Some (mkPoint (x GA' v) (y GA' v))) /\
      (has GA edgeGraphics = true ->
       forall e, In e (cc_edges cc) ->
         Forall2 (fun bend bend' => transform j bend = Some bend')
                 (bends centred e) (bends GA' e)) /\
      (forall p q, transform j p = Some q ->
         exists pl o,
           nth_error placements j = Some pl /\ nth_error offset j = Some o /\
           q = mkPoint
                 (m_x (turn (rotation pl) p) + inject_Z (m_x o) - m_x (oldOffset pl))
                 (m_y (turn (rotation pl) p) + inject_Z (m_y o) - m_y (oldOffset pl))).
Proof.
  intros Hnd_n Hnd_e Hrun.
  apply reassembleDrawings_inv in Hrun as (GA1 & pls & packer & Han & Hp & Htr & _).
  exists GA1, pls, packer. split; [exact Han|]. split; [exact Hp|].
  intros offset transform j cc Hj.
  apply transformAll_spec in Htr as (_ & Hcomp & _); [|exact Hnd_n|exact Hnd_e].
  destruct (Hcomp j cc Hj) as [Hn He]. split; [|split].
  - exact Hn.
  - intros Hhas e Hin. apply mapM_Forall2. apply He; [|exact Hin].
    unfold has in *. now rewrite (analyseAll_attributes _ _ _ _ Han).
  - intros p q Hq. apply rotatePoint_inv in Hq as (angle & o & d & Ha & Ho & Hd & ->).
    rewrite nth_error_map in Ha, Hd.
    destruct (nth_error pls j) as [pl|]; [|discriminate].
    injection Ha as <-. injection Hd as <-. now exists pl, o.
Qed.

(** ** [atan2ex] and the angle computations *)

Lemma Qeq_bool_true a b : a == b -> Qeq_bool a b = true.
Proof. apply Qeq_bool_iff. Qed.

Lemma Qeq_bool_false a b : ~ a == b -> Qeq_bool a b = false.
Proof.
  intros H. destruct (Qeq_bool a b) eqn:E; [|reflexivity].
  apply Qeq_bool_iff in E. contradiction.
Qed.

Lemma Qleb_true a b : a <= b -> Qleb a b = true.
Proof. apply Qleb_le. Qed.

Lemma Qleb_false a b : b < a -> Qleb a b = false.
Proof. apply Qleb_gt. Qed.

(** C2, as amended.  [atan2ex] gives the axis-parallel vectors a definite
    angle: with x zero, a quarter turn for positive y and three quarter turns
    for negative y; with y zero (the origin included), 0 for x at least 0 and
    a half turn for negative x; [atan2] itself elsewhere.  The three angle
    computations of the reassembly do not go through it: the rotation angle,
    the turning of the hull and the final transform take the value of
    [atan2] as it is. *)
Theorem atan2ex_special_cases_unused :
  (forall y x, x == 0 -> 0 < y -> atan2ex y x = (1 # 2) * Math_pi) /\
  (forall y x, x == 0 -> y < 0 -> atan2ex y x = (3 # 2) * Math_pi) /\
  (forall y x, y == 0 -> 0 <= x -> atan2ex y x = 0) /\
  (forall y x, y == 0 -> x < 0 -> atan2ex y x = Math_pi) /\
  (forall y x, ~ x == 0 -> ~ y == 0 -> atan2ex y x = atan2 y x) /\
  (forall b,
     baseAngle b
     = - atan2 (m_y (best_normal b)) (m_x (best_normal b)) + (3 # 2) * Math_pi) /\
  (forall angle p,
     turn angle p
     = mkPoint (cos (atan2 (m_y p) (m_x p) + angle)
                * sqrt (m_x p * m_x p + m_y p * m_y p))
               (sin (atan2 (m_y p) (m_x p) + angle)
                * sqrt (m_x p * m_x p + m_y p * m_y p))) /\
  (forall rot off old p i angle o d,
     nth_error rot i = Some angle -> nth_error off i = Some o ->
     nth_error old i = Some d ->
     rotatePoint rot off old p i
     = Some (mkPoint (cos (atan2 (m_y p) (m_x p) + angle)
                      * sqrt (m_x p * m_x p + m_y p * m_y p)
                      + inject_Z (m_x o) - m_x d)
                     (sin (atan2 (m_y p) (m_x p) + angle)
                      * sqrt (m_x p * m_x p + m_y p * m_y p)
                      + inject_Z (m_y o) - m_y d))).
Proof.
  repeat split.
  - intros y x Hx Hy. unfold atan2ex.
    rewrite (Qeq_bool_true Hx). rewrite (@Qleb_true 0 y) by lra.
    rewrite (@Qeq_bool_false y 0) by lra. reflexivity.
  - intros y x Hx Hy. unfold atan2ex.
    rewrite (Qeq_bool_true Hx). rewrite (@Qleb_false 0 y) by lra.
    rewrite (@Qeq_bool_false y 0) by lra. reflexivity.
  - intros y x Hy Hx. unfold atan2ex.
    now rewrite (Qeq_bool_true Hy), (Qleb_true Hx).
  - intros y x Hy Hx. unfold atan2ex.
    now rewrite (Qeq_bool_true Hy), (Qleb_false Hx).
  - intros y x Hx Hy. unfold atan2ex.
    now rewrite (Qeq_bool_false Hx), (Qeq_bool_false Hy).
  - intros rot off old p i angle o d Hr Ho Hd. unfold rotatePoint.
    rewrite Hr, Ho, Hd. reflexivity.
Qed.

End Reassembly.

(** ** The results on the rectangle and the single node *)

#[local] Existing Instance Examples.tables.

Lemma NoDup_nodes_twoComponents : NoDup (flat_map cc_nodes Examples.twoComponents).
Proof.
  repeat (constructor; [simpl; intuition discriminate|]). constructor.
Qed.

Lemma NoDup_edges_twoComponents : NoDup (flat_map cc_edges Examples.twoComponents).
Proof.
  repeat (constructor; [simpl; intuition discriminate|]). constructor.
Qed.

(** The run of the examples: the rectangle is boxed 36 by 34, the single node
    31 by 31. *)
Lemma rectangle_run :
  exists GA',
    reassembleDrawings (ComponentSplitterLayout_new Examples.rowPacker)
                       Examples.rectangleGA Examples.twoComponents
    = Some (GA', [PackerCall [mkPoint 36%Z 34%Z; mkPoint 31%Z 31%Z] 1]).
Proof. eexists. vm_compute. reflexivity. Qed.

(** The four sides of the rectangle propose boxes of the same area 24; the
    values of the last one, the left side, are kept. *)
Lemma calipers_rectangle :
  best_height (findBest Examples.rectangleHull) = 6 /\
  best_width (findBest Examples.rectangleHull) = 4 /\
  best_area (findBest Examples.rectangleHull) = 6 * 4 /\
  best_normal (findBest Examples.rectangleHull) = mkPoint 1 0.
Proof.
  assert (hullEdges Examples.rectangleHull
          = [(mkPoint (- (3)) (- (2)), mkPoint 3 (- (2)));
             (mkPoint 3 (- (2)), mkPoint 3 2);
             (mkPoint 3 2, mkPoint (- (3)) 2)]
            ++ (mkPoint (- (3)) 2, mkPoint (- (3)) (- (2))) :: []) as Hes
    by reflexivity.
  refine (proj2 (proj2 (@calipers_last_minimum_wins _)) Examples.rectangleHull
            _ _ _ _ Hes _ _ _).
  - apply Qle_bool_iff. vm_compute. reflexivity.
  - intros e [<-|[<-|[<-|[]]]]; apply Qle_bool_iff; vm_compute; reflexivity.
  - intros e [].
Defined.

Lemma box_width_at_least_height_rectangle :
  exists GA' hulls pls,
    reassembleDrawings (ComponentSplitterLayout_new Examples.rowPacker)
                       Examples.rectangleGA Examples.twoComponents
    = Some (GA', [PackerCall [mkPoint 36%Z 34%Z; mkPoint 31%Z 31%Z] 1]) /\
    hullsOf Examples.rectangleGA Examples.twoComponents = Some hulls /\
    List.length hulls = 2%nat /\
    [PackerCall [mkPoint 36%Z 34%Z; mkPoint 31%Z 31%Z] 1]
    = [PackerCall (map box pls) 1] /\
    Forall (fun b : IPoint => (m_y b <= m_x b)%Z) (map box pls).
Proof.
  destruct rectangle_run as [GA' Hrun]. exists GA'.
  destruct (@box_width_at_least_height _ _ _ _ _ _ _ Hrun)
    as (hulls & pls & centred & packer & Hh & Hlen & Hlog & Hwide & _).
  exists hulls, pls. now repeat split.
Defined.

(** The hulls of the example: the rectangle with the bend on its left side,
    and the single node, both centred. *)
Lemma rectangle_hulls :
  exists hulls,
    hullsOf Examples.rectangleGA Examples.twoComponents = Some hulls /\
    Forall (fun hull =>
              (List.length hull <= 1)%nat \/
              Exists (fun c => cand_area c <= DBL_MAX) (candidates hull)) hulls.
Proof.
  eexists. split; [vm_compute; reflexivity|].
  constructor; [|constructor; [|constructor]].
  - right. apply Exists_cons_hd. apply Qle_bool_iff. vm_compute. reflexivity.
  - left. simpl. lia.
Qed.

Lemma box_at_least_unit_plus_border_rectangle :
  Forall (fun b : IPoint => (1 + 30 <= m_x b)%Z /\ (1 + 30 <= m_y b)%Z)
         [mkPoint 36%Z 34%Z; mkPoint 31%Z 31%Z].
Proof.
  destruct rectangle_run as [GA' Hrun].
  destruct rectangle_hulls as (hulls & Hhulls & Hok).
  exact (proj1 (proj2 (@box_at_least_unit_plus_border _ _ _ _ _ _ _ _ _ _
                         Hrun Hhulls Hok (or_introl eq_refl)))).
Defined.

Lemma final_transform_uniform_rectangle :
  exists GA' centred placements packer,
    reassembleDrawings (ComponentSplitterLayout_new Examples.rowPacker)
                       Examples.rectangleGA Examples.twoComponents
    = Some (GA', [PackerCall [mkPoint 36%Z 34%Z; mkPoint 31%Z 31%Z] 1]) /\
    analyseAll 30 Examples.rectangleGA Examples.twoComponents []
    = Some (centred, placements) /\
    Some Examples.rowPacker = Some packer /\
    let offset :=
      packer (map box placements)
             (repeat (mkPoint 0%Z 0%Z) (List.length (map box placements))) 1 in
    let transform index p :=
      rotatePoint (map rotation placements) offset (map oldOffset placements)
                  p index in
    forall j cc, nth_error Examples.twoComponents j = Some cc ->
      (forall v, In v (cc_nodes cc) ->
         transform j (mkPoint (x centred v) (y centred v))
         = Some (mkPoint (x GA' v) (y GA' v))) /\
      (has Examples.rectangleGA edgeGraphics = true ->
       forall e, In e (cc_edges cc) ->
         Forall2 (fun bend bend' => transform j bend = Some bend')
                 (bends centred e) (bends GA' e)) /\
      (forall p q, transform j p = Some q ->
         exists pl o,
           nth_error placements j = Some pl /\ nth_error offset j = Some o /\
           q = mkPoint
                 (m_x (turn (rotation pl) p) + inject_Z (m_x o) - m_x (oldOffset pl))
                 (m_y (turn (rotation pl) p) + inject_Z (m_y o) - m_y (oldOffset pl))).
Proof.
  destruct rectangle_run as [GA' Hrun]. exists GA'.
  destruct (final_transform_uniform _ _ _
              NoDup_nodes_twoComponents NoDup_edges_twoComponents Hrun)
    as (centred & placements & packer & H).
  exists centred, placements, packer. split; [exact Hrun | exact H].
Defined.

Lemma degenerate_hull_single_point :
  exists pl,
    boxOf (m_border (ComponentSplitterLayout_new Examples.rowPacker)) [origin]
    = Some pl /\
    box pl = mkPoint 31%Z 31%Z.
Proof.
  assert (List.length [origin] <= 1)%nat as Hlen by (simpl; lia).
  destruct (@degenerate_hull_unit_box _ [origin] Hlen) as (_ & Hbox & _).
  apply Hbox. discriminate.
Defined.

Lemma call_without_secondary_layout :
  call (ComponentSplitterLayout_new Examples.rowPacker) Examples.rectangleGA
  = Some (Examples.rectangleGA, []).
Proof.
  apply (@call_is_noop Examples.tables). left. reflexivity.
Defined.

Lemma atan2ex_on_the_axes :
  atan2ex 1 0 = (1 # 2) * Examples.pi /\
  atan2ex (- (1)) 0 = (3 # 2) * Examples.pi /\
  atan2ex 0 0 = 0 /\
  atan2ex 0 (- (1)) = Examples.pi.
Proof.
  destruct (@atan2ex_special_cases_unused Examples.tables)
    as (H1 & H2 & H3 & H4 & _).
  split; [apply H1; [reflexivity | reflexivity]|].
  split; [apply H2; [reflexivity | reflexivity]|].
  split; [apply H3; [reflexivity | apply Qle_refl]|].
  apply H4; reflexivity.
Defined.


(** C2, as stated, fails where the rotation angle is derived: with the
    arctangent of the C library, the normal (0,-1) gets the raw value, a
    quarter turn backwards, and not three quarter turns. *)
Lemma rotation_angle_takes_raw_arctangent :
  ~ (forall (ext : Externals) (b : best),
       m_x (best_normal b) == 0 -> m_y (best_normal b) < 0 ->
       baseAngle b == - ((3 # 2) * Math_pi) + (3 # 2) * Math_pi).
Proof.
  intros H.
  specialize (H Examples.tables (mkBest 1 (mkPoint 0 (- (1))) 1 1)).
  cbn [best_normal m_x m_y] in H.
  assert (0 == 0) as H0 by reflexivity.
  assert (- (1) < 0) as H1 by reflexivity.
  specialize (H H0 H1). vm_compute in H. discriminate H.
Qed.

End SplitterTheory.

(* ================================================================= *)
(** * Component splitter: what a run touches, and whom it calls *)

Module SplitterFrame.

Import Splitter Splitter.GraphAttributes SplitterTheory.
Local Open Scope Q_scope.

Lemma foldM_invariant_in {S A} (f : S -> A -> option S) (P : S -> Prop) l :
  (forall s a s', In a l -> P s -> f s a = Some s' -> P s') ->
  forall s s', P s -> foldM f l s = Some s' -> P s'.
Proof.
  induction l as [|a l IH]; intros Hstep s s' Hs H; simpl in H.
  - now injection H as <-.
  - apply bind_Some in H as (s1 & H1 & H).
    apply (IH (fun s a s' Ha => Hstep s a s' (or_intror Ha)) s1 s');
      [|exact H].
    exact (Hstep s a s1 (or_introl eq_refl) Hs H1).
Qed.

Lemma fold_left_invariant {S A} (f : S -> A -> S) (P : S -> Prop) l :
  (forall s a, In a l -> P s -> P (f s a)) ->
  forall s, P s -> P (fold_left f l s).
Proof.
  induction l as [|a l IH]; intros Hstep s Hs; simpl; [exact Hs|].
  apply IH.
  - intros s' a' Ha'. apply Hstep. now right.
  - apply Hstep; [now left | exact Hs].
Qed.

Lemma sameSizes_refl G (GA : t G) : sameSizes GA GA.
Proof. now repeat split. Qed.

Lemma sameSizes_trans G (GA1 GA2 GA3 : t G) :
  sameSizes GA1 GA2 -> sameSizes GA2 GA3 -> sameSizes GA1 GA3.
Proof.
  intros (a1 & a2 & a3 & a4 & a5) (b1 & b2 & b3 & b4 & b5).
  repeat split; congruence.
Qed.

Lemma sameOutside_refl G N E (GA : t G) : sameOutside N E GA GA.
Proof. split; intros; [now split | reflexivity]. Qed.

Lemma sameOutside_trans G N E (GA1 GA2 GA3 : t G) :
  sameOutside N E GA1 GA2 -> sameOutside N E GA2 GA3 -> sameOutside N E GA1 GA3.
Proof.
  intros [a1 a2] [b1 b2]. split.
  - intros v Hv. destruct (a1 v Hv) as [<- <-]. now apply b1.
  - intros e He. rewrite <- (a2 e He). now apply b2.
Qed.

Lemma sameOutside_mono G N N' E E' (GA GA' : t G) :
  incl N N' -> incl E E' -> sameOutside N E GA GA' -> sameOutside N' E' GA GA'.
Proof.
  intros HN HE [a1 a2]. split.
  - intros v Hv. apply a1. intros H. apply Hv. now apply HN.
  - intros e He. apply a2. intros H. apply He. now apply HE.
Qed.

(** What one write does. *)
Lemma set_xy_frame G (GA : t G) v cx cy N E :
  In v N ->
  sameSizes GA (set_y (set_x GA v cx) v cy) /\ z (set_y (set_x GA v cx) v cy) = z GA /\
  bends (set_y (set_x GA v cx) v cy) = bends GA /\
  sameOutside N E GA (set_y (set_x GA v cx) v cy).
Proof.
  intros Hv. split; [now repeat split|]. split; [reflexivity|].
  split; [reflexivity|]. split; [|reflexivity].
  intros w Hw. assert (w <> v) as Hne by (intros ->; contradiction).
  simpl. now rewrite !(update_other _ _ Hne).
Qed.

Lemma set_bends_frame G (GA : t G) e bs N E :
  In e E ->
  sameSizes GA (set_bends GA e bs) /\ z (set_bends GA e bs) = z GA /\
  sameOutside N E GA (set_bends GA e bs).
Proof.
  intros He. split; [now repeat split|]. split; [reflexivity|].
  split; [intros; now split|].
  intros e' He'. simpl. apply update_other. intros ->. contradiction.
Qed.

Lemma movesOnly_refl G N E (GA : t G) : movesOnly N E GA GA.
Proof.
  split; [apply sameSizes_refl|]. split; [reflexivity | apply sameOutside_refl].
Qed.

Lemma movesOnly_trans G N E (GA1 GA2 GA3 : t G) :
  movesOnly N E GA1 GA2 -> movesOnly N E GA2 GA3 -> movesOnly N E GA1 GA3.
Proof.
  intros (a1 & a2 & a3) (b1 & b2 & b3). split; [|split].
  - exact (sameSizes_trans a1 b1).
  - congruence.
  - exact (sameOutside_trans a3 b3).
Qed.

Lemma movesOnly_mono G N N' E E' (GA GA' : t G) :
  incl N N' -> incl E E' -> movesOnly N E GA GA' -> movesOnly N' E' GA GA'.
Proof.
  intros HN HE (a1 & a2 & a3). split; [exact a1|]. split; [exact a2|].
  exact (sameOutside_mono HN HE a3).
Qed.

Lemma movesOnly_set_xy G N E (GA0 GA : t G) v cx cy :
  In v N -> movesOnly N E GA0 GA ->
  movesOnly N E GA0 (set_y (set_x GA v cx) v cy).
Proof.
  intros Hv H. apply (movesOnly_trans H).
  destruct (@set_xy_frame _ GA v cx cy N E Hv) as (a & b & _ & c).
  split; [exact a | split; [exact b | exact c]].
Qed.

Lemma movesOnly_set_bends G N E (GA0 GA : t G) e bs :
  In e E -> movesOnly N E GA0 GA -> movesOnly N E GA0 (set_bends GA e bs).
Proof.
  intros He H. apply (movesOnly_trans H).
  destruct (@set_bends_frame _ GA e bs N E He) as (a & b & c).
  split; [exact a | split; [exact b | exact c]].
Qed.

Section Frame.

Context {ext : Externals}.

(** The centring loops write positions of the component's nodes and bends of
    its edges, nothing else; without bends in the attributes they write no
    bend at all. *)
Lemma centre_frame G (GA : t G) cc pts avg_x avg_y GA' pts' count :
  centre GA cc pts avg_x avg_y = Some (GA', pts', count) ->
  movesOnly (cc_nodes cc) (cc_edges cc) GA GA' /\
  (has GA edgeGraphics = false -> bends GA' = bends GA).
Proof.
  unfold centre. intros H. apply bind_Some in H as (s1 & H1 & H).
  set (P := fun s : centring G =>
              movesOnly (cc_nodes cc) (cc_edges cc) GA (fst (fst s))).
  assert (P s1 /\ bends (fst (fst s1)) = bends GA) as [Hs1 Hb1].
  { apply (foldM_invariant_in (centreNode avg_x avg_y)
             (fun s => P s /\ bends (fst (fst s)) = bends GA) (cc_nodes cc))
      with (s := (GA, pts, O)); [| split; [apply movesOnly_refl | reflexivity] | exact H1].
    intros [[GA0 p0] c0] v s' Hv [Hs Hb] Hstep. unfold centreNode in Hstep.
    apply bind_Some in Hstep as (p1 & _ & [= <-]). split.
    - now apply movesOnly_set_xy.
    - exact Hb. }
  destruct (has GA edgeGraphics).
  - split; [|discriminate].
    apply (foldM_invariant_in (centreEdge avg_x avg_y) P (cc_edges cc))
      with (s := s1) (s' := (GA', pts', count)); [| exact Hs1 | exact H].
    intros [[GA0 p0] c0] e s' He Hs Hstep. unfold centreEdge in Hstep.
    apply bind_Some in Hstep as ([[bs p1] c1] & _ & [= <-]).
    now apply movesOnly_set_bends.
  - injection H as ->. split; [exact Hs1 | intros _; exact Hb1].
Qed.

Lemma analyseAll_frame G border ccs : forall (GA : t G) done GA' pls,
  analyseAll border GA ccs done = Some (GA', pls) ->
  movesOnly (flat_map cc_nodes ccs) (flat_map cc_edges ccs) GA GA' /\
  (has GA edgeGraphics = false -> bends GA' = bends GA).
Proof.
  induction ccs as [|cc ccs IH]; intros GA done GA' pls H; simpl in H.
  - injection H as <- _. split; [apply movesOnly_refl | reflexivity].
  - apply bind_Some in H as ([GA1 pl] & Han & H).
    unfold analyse, centredHull in Han.
    apply bind_Some in Han as ([GA2 hull] & Hc & Han).
    apply bind_Some in Han as (pl' & _ & [= <- _]).
    apply bind_Some in Hc as ([[GA3 pts] cnt] & Hc & [= <- _]).
    apply centre_frame in Hc as [Hm Hb].
    apply IH in H as [Hm' Hb']. split.
    + apply movesOnly_trans with GA3.
      * eapply movesOnly_mono; [| |exact Hm]; simpl; apply incl_appl, incl_refl.
      * eapply movesOnly_mono; [| |exact Hm']; simpl; apply incl_appr, incl_refl.
    + intros Hhas. rewrite Hb'; [now apply Hb|].
      destruct Hm as ((_ & Hattr & _) & _). unfold has in *. now rewrite Hattr.
Qed.

Lemma transformComponent_frame G rot offset old index (GA GA' : t G) cc :
  transformComponent rot offset old index GA cc = Some GA' ->
  movesOnly (cc_nodes cc) (cc_edges cc) GA GA' /\
  (has GA edgeGraphics = false -> bends GA' = bends GA).
Proof.
  unfold transformComponent. intros H. apply bind_Some in H as (GA1 & H1 & H).
  assert (movesOnly (cc_nodes cc) (cc_edges cc) GA GA1 /\ bends GA1 = bends GA)
    as [Hs1 Hb1].
  { apply (foldM_invariant_in (transformNode rot offset old index)
             (fun s => movesOnly (cc_nodes cc) (cc_edges cc) GA s /\
                       bends s = bends GA) (cc_nodes cc))
      with (s := GA); [| split; [apply movesOnly_refl | reflexivity] | exact H1].
    intros GA0 v s' Hv [Hs Hb] Hstep. unfold transformNode in Hstep.
    apply bind_Some in Hstep as (rp & _ & [= <-]). split.
    - now apply movesOnly_set_xy.
    - exact Hb. }
  assert (has GA1 edgeGraphics = has GA edgeGraphics) as Hhas.
  { destruct Hs1 as ((_ & Hattr & _) & _). unfold has. now rewrite Hattr. }
  rewrite Hhas in H. destruct (has GA edgeGraphics).
  - split; [|discriminate].
    apply (foldM_invariant_in (transformEdge rot offset old index)
             (movesOnly (cc_nodes cc) (cc_edges cc) GA) (cc_edges cc))
      with (s := GA1); [| exact Hs1 | exact H].
    intros GA0 e s' He Hs Hstep. unfold transformEdge in Hstep.
    apply bind_Some in Hstep as (bs & _ & [= <-]).
    now apply movesOnly_set_bends.
  - injection H as <-. split; [exact Hs1 | intros _; exact Hb1].
Qed.

Lemma transformAll_frame G rot offset old ccs : forall index (GA GA' : t G),
  transformAll rot offset old index GA ccs = Some GA' ->
  movesOnly (flat_map cc_nodes ccs) (flat_map cc_edges ccs) GA GA' /\
  (has GA edgeGraphics = false -> bends GA' = bends GA).
Proof.
  induction ccs as [|cc ccs IH]; intros index GA GA' H; simpl in H.
  - injection H as <-. split; [apply movesOnly_refl | reflexivity].
  - apply bind_Some in H as (GA1 & Hc & H).
    apply transformComponent_frame in Hc as [Hm Hb].
    apply IH in H as [Hm' Hb']. split.
    + apply movesOnly_trans with GA1.
      * eapply movesOnly_mono; [| |exact Hm]; simpl; apply incl_appl, incl_refl.
      * eapply movesOnly_mono; [| |exact Hm']; simpl; apply incl_appr, incl_refl.
    + intros Hhas. rewrite Hb'; [now apply Hb|].
      destruct Hm as ((_ & Hattr & _) & _). unfold has in *. now rewrite Hattr.
Qed.

Lemma reassembleDrawings_frame G
  (self : ComponentSplitterLayout) (GA : t G) (ccs : CCsInfo) GA' log :
  reassembleDrawings self GA ccs = Some (GA', log) ->
  movesOnly (flat_map cc_nodes ccs) (flat_map cc_edges ccs) GA GA' /\
  (has GA edgeGraphics = false -> bends GA' = bends GA).
Proof.
  intros H.
  apply reassembleDrawings_inv in H as (GA1 & pls & packer & Han & _ & Htr & _).
  apply analyseAll_frame in Han as [Hm Hb].
  apply transformAll_frame in Htr as [Hm' Hb']. split.
  - exact (movesOnly_trans Hm Hm').
  - intros Hhas. rewrite Hb'; [now apply Hb|].
    destruct Hm as ((_ & Hattr & _) & _). unfold has in *. now rewrite Hattr.
Qed.

(** X1. A run of [reassembleDrawings] changes nothing but positions of nodes
    of the components and bends of edges of the components: the graph, the
    attribute flags, z, the node sizes and the edge weights stay, the nodes
    and edges outside the components stay where they are, and without edge
    graphics in the attributes no bend is written. *)
Theorem reassembleDrawings_moves_only_components G
  (self : ComponentSplitterLayout) (GA : t G) (ccs : CCsInfo) GA' log :
  reassembleDrawings self GA ccs = Some (GA', log) ->
  (constGraph GA' = constGraph GA /\ attributes GA' = attributes GA /\
   z GA' = z GA /\ width GA' = width GA /\ height GA' = height GA /\
   doubleWeight GA' = doubleWeight GA) /\
  (forall v, ~ In v (flat_map cc_nodes ccs) ->
             x GA' v = x GA v /\ y GA' v = y GA v) /\
  (forall e, ~ In e (flat_map cc_edges ccs) -> bends GA' e = bends GA e) /\
  (has GA edgeGraphics = false -> bends GA' = bends GA).
Proof.
  intros H.
  apply reassembleDrawings_frame in H
    as [((Hg & Hattr & Hw & Hh & Hd) & Hz & Hn & He) Hb].
  split; [now repeat split|]. split; [exact Hn|]. split; [exact He | exact Hb].
Qed.

End Frame.

Section Calling.

Context {ext : Externals}.

Lemma has_sameSizes G (GA GA' : t G) a :
  sameSizes GA GA' -> has GA' a = has GA a.
Proof. intros (_ & Hattr & _). unfold has. now rewrite Hattr. Qed.

Lemma laidOut_refl G (GA : t G) : laidOut GA GA.
Proof. split; [apply sameSizes_refl|]. now split. Qed.

Lemma laidOut_trans G (GA1 GA2 GA3 : t G) :
  laidOut GA1 GA2 -> laidOut GA2 GA3 -> laidOut GA1 GA3.
Proof.
  intros (a1 & a2 & a3) (b1 & b2 & b3). split; [exact (sameSizes_trans a1 b1)|].
  split; intros H.
  - rewrite b2; [now apply a2 | now rewrite (has_sameSizes _ a1)].
  - rewrite b3; [now apply a3 | now rewrite (has_sameSizes _ a1)].
Qed.

(** One round of the component loop, taken apart. *)
Lemma layoutComponent_inv L ccs (GA : t Graph) log i GA' log' :
  layoutComponent L ccs (GA, log) i = Some (GA', log') ->
  exists cGA,
    copyIn (GC_insert (constGraph GA) ccs i) GA = Some cGA /\
    GA' = copyOut (GC_insert (constGraph GA) ccs i) (L cGA) GA /\
    log' = log ++ [SecondaryLayoutCall i].
Proof.
  unfold layoutComponent, copyIn, copyOut. intros H.
  apply bind_Some in H as (c1 & H1 & H). apply bind_Some in H as (c2 & H2 & H).
  injection H as <- <-. exists c2. rewrite H1. simpl. now rewrite H2.
Qed.

Lemma copyNodeOut_laidOut GC cGA (GA0 GA : t Graph) v :
  laidOut GA0 GA -> laidOut GA0 (copyNodeOut GC cGA GA v) /\
  bends (copyNodeOut GC cGA GA v) = bends GA.
Proof.
  intros H. unfold copyNodeOut. destruct (GC_original_node GC v) as [w|].
  2: now split.
  destruct H as (a1 & a2 & a3).
  assert (sameSizes GA0 (set_y (set_x GA w (x cGA v)) w (y cGA v))) as Hs.
  { apply (sameSizes_trans a1). now repeat split. }
  destruct (has (set_y (set_x GA w (x cGA v)) w (y cGA v)) threeD) eqn:H3.
  - split; [|reflexivity]. split; [|split].
    + apply (sameSizes_trans a1). now repeat split.
    + intros H0. rewrite (has_sameSizes _ Hs) in H3. congruence.
    + exact a3.
  - split; [|reflexivity]. split; [exact Hs|]. split; [exact a2 | exact a3].
Qed.

Lemma copyEdgeOut_laidOut GC cGA (GA0 GA : t Graph) e :
  has GA0 edgeGraphics = true ->
  laidOut GA0 GA -> laidOut GA0 (copyEdgeOut GC cGA GA e).
Proof.
  intros Hhas H. unfold copyEdgeOut. destruct (GC_original_edge GC e) as [f|].
  2: exact H.
  destruct H as (a1 & a2 & a3). split; [|split].
  - apply (sameSizes_trans a1). now repeat split.
  - exact a2.
  - congruence.
Qed.

Lemma copyOut_laidOut GC cGA (GA : t Graph) : laidOut GA (copyOut GC cGA GA).
Proof.
  unfold copyOut.
  assert (laidOut GA (fold_left (copyNodeOut GC cGA) (GC_nodes GC) GA) /\
          bends (fold_left (copyNodeOut GC cGA) (GC_nodes GC) GA) = bends GA)
    as [H1 Hb].
  { apply (fold_left_invariant (copyNodeOut GC cGA)
             (fun s => laidOut GA s /\ bends s = bends GA)).
    - intros s v _ [Hs Hbs]. destruct (copyNodeOut_laidOut GC cGA v Hs) as [H Hb].
      split; [exact H | congruence].
    - split; [apply laidOut_refl | reflexivity]. }
  rewrite (has_sameSizes _ (proj1 H1)).
  destruct (has GA edgeGraphics) eqn:Hhas; [|exact H1].
  apply (fold_left_invariant (copyEdgeOut GC cGA) (laidOut GA)); [|exact H1].
  intros s e _ Hs. now apply copyEdgeOut_laidOut.
Qed.

(** The component loop appends one call of the secondary layout per index,
    in the order of the indices, and keeps what [laidOut] lists. *)
Lemma layoutComponents_run L ccs l : forall (GA : t Graph) log GA' log',
  foldM (layoutComponent L ccs) l (GA, log) = Some (GA', log') ->
  laidOut GA GA' /\ log' = log ++ map SecondaryLayoutCall l.
Proof.
  induction l as [|i l IH]; intros GA log GA' log' H; simpl in H.
  - injection H as <- <-. split; [apply laidOut_refl | now rewrite app_nil_r].
  - apply bind_Some in H as ([GA1 log1] & H1 & H).
    apply layoutComponent_inv in H1 as (cGA & _ & -> & ->).
    apply IH in H as [Hl ->]. split.
    + exact (laidOut_trans (copyOut_laidOut _ _ _) Hl).
    + now rewrite <- app_assoc.
Qed.

Lemma analyseAll_length G border ccs : forall (GA : t G) done GA' pls,
  analyseAll border GA ccs done = Some (GA', pls) ->
  List.length pls = (List.length done + List.length ccs)%nat.
Proof.
  induction ccs as [|cc ccs IH]; intros GA done GA' pls H; simpl in H.
  - injection H as _ <-. now rewrite Nat.add_0_r.
  - apply bind_Some in H as ([GA1 pl] & _ & H). apply IH in H.
    rewrite H, length_app. simpl. lia.
Qed.

Lemma call_inv (self : ComponentSplitterLayout) L (GA : t Graph) GA' log :
  m_secondaryLayout self = Some L ->
  numberOfCCs (CCsInfo_new (constGraph GA)) <> 0%nat ->
  call self GA = Some (GA', log) ->
  exists GA1 log1 log2,
    foldM (layoutComponent L (CCsInfo_new (constGraph GA)))
          (seq 0 (numberOfCCs (CCsInfo_new (constGraph GA)))) (GA, [])
    = Some (GA1, log1) /\
    reassembleDrawings self GA1 (CCsInfo_new (constGraph GA)) = Some (GA', log2) /\
    log = log1 ++ ReassembleDrawingsCall :: log2.
Proof.
  intros HL Hn H. unfold call in H. rewrite HL in H.
  apply Nat.eqb_neq in Hn. rewrite Hn in H.
  apply bind_Some in H as ([GA1 log1] & H1 & H).
  apply bind_Some in H as ([GA2 log2] & H2 & [= <- <-]).
  now exists GA1, log1, log2.
Qed.

(** X2. [call] never changes the graph, the attribute flags, the widths and
    heights of the nodes or the weights of the edges; it leaves z alone unless
    the attributes are three-dimensional, and the bends unless the attributes
    have edge graphics. *)
Theorem call_keeps_sizes (self : ComponentSplitterLayout) (GA GA' : t Graph) log :
  call self GA = Some (GA', log) -> laidOut GA GA'.
Proof.
  intros H. destruct (m_secondaryLayout self) as [L|] eqn:HL.
  2: { unfold call in H. rewrite HL in H. injection H as <- _. apply laidOut_refl. }
  destruct (Nat.eq_dec (numberOfCCs (CCsInfo_new (constGraph GA))) 0) as [Hn|Hn].
  { unfold call in H. rewrite HL, Hn in H. injection H as <- _. apply laidOut_refl. }
  destruct (@call_inv _ _ _ _ _ HL Hn H) as (GA1 & log1 & log2 & H1 & H2 & _).
  apply layoutComponents_run in H1 as [Hl _]. apply (laidOut_trans Hl).
  apply reassembleDrawings_frame in H2 as [(Hs & Hz & _) Hb].
  split; [exact Hs|]. split; [intros _; exact Hz | exact Hb].
Qed.

(** X3. With a secondary layout and [n > 0] components, [call] calls the
    secondary layout once per component, in the order 0, ..., n-1, then
    [reassembleDrawings], and in it the packer exactly once, with one box per
    component and the target ratio. *)
Theorem call_sequence (self : ComponentSplitterLayout) L (GA GA' : t Graph) log :
  m_secondaryLayout self = Some L ->
  numberOfCCs (CCsInfo_new (constGraph GA)) <> 0%nat ->
  call self GA = Some (GA', log) ->
  exists bx,
    List.length bx = numberOfCCs (CCsInfo_new (constGraph GA)) /\
    log = map SecondaryLayoutCall (seq 0 (numberOfCCs (CCsInfo_new (constGraph GA))))
          ++ [ReassembleDrawingsCall; PackerCall bx (m_targetRatio self)].
Proof.
  intros HL Hn H.
  destruct (@call_inv _ _ _ _ _ HL Hn H) as (GA1 & log1 & log2 & H1 & H2 & ->).
  apply layoutComponents_run in H1 as [_ ->].
  apply reassembleDrawings_inv in H2 as (GA2 & pls & packer & Han & _ & _ & ->).
  exists (map box pls). split; [|reflexivity].
  rewrite length_map. apply analyseAll_length in Han. exact Han.
Qed.

(** ** What the secondary layout is given, and what is taken from it *)

Lemma copyNodesIn_spec GC (GA : t Graph) l : forall c c',
  foldM (copyNodeIn GC GA) l c = Some c' ->
  (constGraph c' = constGraph c /\ attributes c' = attributes c /\ z c' = z c /\
   bends c' = bends c /\ doubleWeight c' = doubleWeight c) /\
  (forall v, In v l ->
     exists w, GC_original_node GC v = Some w /\
       width c' v = width GA w /\ height c' v = height GA w /\
       x c' v = x GA w /\ y c' v = y GA w) /\
  (forall v, ~ In v l ->
     width c' v = width c v /\ height c' v = height c v /\
     x c' v = x c v /\ y c' v = y c v).
Proof.
  induction l as [|a l IH]; intros c c' H; simpl in H.
  - injection H as <-. split; [now repeat split|]. split; [intros v []|].
    intros v _. now repeat split.
  - apply bind_Some in H as (c1 & H1 & H). unfold copyNodeIn in H1.
    apply bind_Some in H1 as (wa & Hwa & [= <-]).
    apply IH in H as ((e1 & e2 & e3 & e4 & e5) & Hin & Hout).
    split; [now repeat split|]. split.
    + intros v Hv. destruct (in_dec Nat.eq_dec v l) as [Hl|Hl]; [now apply Hin|].
      destruct Hv as [<-|Hv]; [|contradiction]. exists wa. split; [exact Hwa|].
      destruct (Hout a Hl) as (-> & -> & -> & ->). simpl.
      now rewrite !update_same.
    + intros v Hv. assert (v <> a) as Hne by (intros ->; apply Hv; now left).
      destruct (Hout v (fun H => Hv (or_intror H))) as (-> & -> & -> & ->). simpl.
      now rewrite !(update_other _ _ Hne).
Qed.

Lemma copyEdgesIn_spec GC (GA : t Graph) l : forall c c',
  foldM (copyEdgeIn GC GA) l c = Some c' ->
  (constGraph c' = constGraph c /\ attributes c' = attributes c /\ z c' = z c /\
   width c' = width c /\ height c' = height c /\ x c' = x c /\ y c' = y c) /\
  (forall e, In e l ->
     (has GA edgeGraphics = true ->
      exists f, GC_original_edge GC e = Some f /\ bends c' e = bends GA f) /\
     (has GA edgeDoubleWeight = true ->
      exists f, GC_original_edge GC e = Some f /\
                doubleWeight c' e = doubleWeight GA f)) /\
  (forall e, ~ In e l \/ has GA edgeGraphics = false -> bends c' e = bends c e) /\
  (forall e, ~ In e l \/ has GA edgeDoubleWeight = false ->
             doubleWeight c' e = doubleWeight c e).
Proof.
  induction l as [|a l IH]; intros c c' H; simpl in H.
  - injection H as <-. split; [now repeat split|]. split; [intros e []|].
    now split.
  - apply bind_Some in H as (c1 & H1 & H). unfold copyEdgeIn in H1.
    apply bind_Some in H1 as (c0 & H0 & H1).
    apply IH in H as ((e1 & e2 & e3 & e4 & e5 & e6 & e7) & Hin & Hb & Hw).
    assert (width c1 = width c /\ height c1 = height c /\ x c1 = x c /\
            y c1 = y c /\ z c1 = z c /\ constGraph c1 = constGraph c /\
            attributes c1 = attributes c) as (f1 & f2 & f3 & f4 & f5 & f6 & f7).
    { destruct (has GA edgeDoubleWeight), (has GA edgeGraphics).
      - apply bind_Some in H0 as (f & _ & [= <-]).
        apply bind_Some in H1 as (f' & _ & [= <-]). now repeat split.
      - apply bind_Some in H0 as (f & _ & [= <-]). injection H1 as <-.
        now repeat split.
      - injection H0 as <-. apply bind_Some in H1 as (f' & _ & [= <-]).
        now repeat split.
      - injection H0 as <-. injection H1 as <-. now repeat split. }
    split; [repeat split; congruence|].
    assert (forall e, e <> a \/ has GA edgeGraphics = false ->
                      bends c1 e = bends c e) as Hb1.
    { intros e He. destruct (has GA edgeGraphics) eqn:Hg.
      - destruct He as [He|]; [|discriminate].
        apply bind_Some in H1 as (f' & _ & [= <-]). simpl.
        rewrite (update_other _ _ He).
        destruct (has GA edgeDoubleWeight).
        + apply bind_Some in H0 as (f & _ & [= <-]). reflexivity.
        + now injection H0 as <-.
      - injection H1 as <-. destruct (has GA edgeDoubleWeight).
        + apply bind_Some in H0 as (f & _ & [= <-]). reflexivity.
        + now injection H0 as <-. }
    assert (forall e, e <> a \/ has GA edgeDoubleWeight = false ->
                      doubleWeight c1 e = doubleWeight c e) as Hw1.
    { intros e He.
      assert (doubleWeight c1 = doubleWeight c0) as ->.
      { destruct (has GA edgeGraphics).
        - apply bind_Some in H1 as (f' & _ & [= <-]). reflexivity.
        - now injection H1 as <-. }
      destruct (has GA edgeDoubleWeight) eqn:Hd.
      - destruct He as [He|]; [|discriminate].
        apply bind_Some in H0 as (f & _ & [= <-]). simpl.
        now rewrite (update_other _ _ He).
      - now injection H0 as <-. }
    split; [|split].
    + intros e He. destruct (in_dec Nat.eq_dec e l) as [Hl|Hl]; [now apply Hin|].
      destruct He as [<-|He]; [|contradiction]. split; intros Hflag.
      * rewrite Hflag in H1. apply bind_Some in H1 as (f & Hf & [= <-]).
        exists f. split; [exact Hf|]. rewrite (Hb a (or_introl Hl)). simpl.
        now rewrite update_same.
      * rewrite Hflag in H0. apply bind_Some in H0 as (f & Hf & [= <-]).
        exists f. split; [exact Hf|]. rewrite (Hw a (or_introl Hl)).
        destruct (has GA edgeGraphics).
        -- apply bind_Some in H1 as (f' & _ & [= <-]). simpl.
           now rewrite update_same.
        -- injection H1 as <-. simpl. now rewrite update_same.
    + intros e He. rewrite Hb, Hb1; [reflexivity| |].
      * destruct He as [He|He]; [left; intros ->; apply He; now left | now right].
      * destruct He as [He|He]; [left; intros Hl; apply He; now right | now right].
    + intros e He. rewrite Hw, Hw1; [reflexivity| |].
      * destruct He as [He|He]; [left; intros ->; apply He; now left | now right].
      * destruct He as [He|He]; [left; intros Hl; apply He; now right | now right].
Qed.

Lemma copyIn_spec GC (GA : t Graph) cGA :
  copyIn GC GA = Some cGA ->
  (constGraph cGA = constGraph (GraphAttributes_new GC (attributes GA)) /\
   attributes cGA = attributes (GraphAttributes_new GC (attributes GA)) /\
   z cGA = z (GraphAttributes_new GC (attributes GA))) /\
  (forall v, In v (GC_nodes GC) ->
     exists w, GC_original_node GC v = Some w /\
       width cGA v = width GA w /\ height cGA v = height GA w /\
       x cGA v = x GA w /\ y cGA v = y GA w) /\
  (forall e, In e (GC_edges GC) ->
     (has GA edgeGraphics = true ->
      exists f, GC_original_edge GC e = Some f /\ bends cGA e = bends GA f) /\
     (has GA edgeDoubleWeight = true ->
      exists f, GC_original_edge GC e = Some f /\
                doubleWeight cGA e = doubleWeight GA f)) /\
  (has GA edgeGraphics = false ->
   forall e, bends cGA e = bends (GraphAttributes_new GC (attributes GA)) e) /\
  (has GA edgeDoubleWeight = false ->
   forall e, doubleWeight cGA e
             = doubleWeight (GraphAttributes_new GC (attributes GA)) e).
Proof.
  unfold copyIn. intros H. apply bind_Some in H as (c1 & H1 & H2).
  apply copyNodesIn_spec in H1 as ((a1 & a2 & a3 & a4 & a5) & Hn & _).
  apply copyEdgesIn_spec in H2
    as ((b1 & b2 & b3 & b4 & b5 & b6 & b7) & He & Hb & Hw).
  split; [repeat split; congruence|]. split; [|split; [exact He|split]].
  - intros v Hv. destruct (Hn v Hv) as (w & Hw' & c1' & c2 & c3 & c4).
    exists w. rewrite b4, b5, b6, b7. now repeat split.
  - intros Hflag e. rewrite Hb by now right. now rewrite a4.
  - intros Hflag e. rewrite Hw by now right. now rewrite a5.
Qed.

(** X4. The attributes that the secondary layout is given for a component:
    every node of the copy has the width, height, x and y of its original;
    every edge of the copy has the bends of its original when the attributes
    have edge graphics, and its weight when they have edge weights.  The z
    coordinates are not copied: they are those of the fresh attributes. *)
Theorem secondary_layout_sees_originals GC (GA : t Graph) cGA :
  copyIn GC GA = Some cGA ->
  (forall v, In v (GC_nodes GC) ->
     exists w, GC_original_node GC v = Some w /\
       width cGA v = width GA w /\ height cGA v = height GA w /\
       x cGA v = x GA w /\ y cGA v = y GA w) /\
  (forall e, In e (GC_edges GC) ->
     (has GA edgeGraphics = true ->
      exists f, GC_original_edge GC e = Some f /\ bends cGA e = bends GA f) /\
     (has GA edgeDoubleWeight = true ->
      exists f, GC_original_edge GC e = Some f /\
                doubleWeight cGA e = doubleWeight GA f)) /\
  z cGA = z (GraphAttributes_new GC (attributes GA)).
Proof.
  intros H. apply copyIn_spec in H as ((_ & _ & Hz) & Hn & He & _).
  now split; [|split].
Qed.

Lemma option_nat_dec (a b : option nat) : {a = b} + {a <> b}.
Proof. decide equality. apply Nat.eq_dec. Qed.

Lemma writer_dec (orig : nat -> option nat) l w :
  {exists v, In v l /\ orig v = Some w} + {forall v, In v l -> orig v <> Some w}.
Proof.
  induction l as [|a l [IH|IH]].
  - right. intros v [].
  - left. destruct IH as (v & Hv & Ho). exists v. split; [now right | exact Ho].
  - destruct (option_nat_dec (orig a) (Some w)) as [Ha|Ha].
    + left. exists a. split; [now left | exact Ha].
    + right. intros v [<-|Hv]; [exact Ha | now apply IH].
Qed.

Lemma copyNodesOut_spec GC cGA (GA : t Graph) l :
  laidOut GA (fold_left (copyNodeOut GC cGA) l GA) /\
  bends (fold_left (copyNodeOut GC cGA) l GA) = bends GA /\
  (forall w, (forall v, In v l -> GC_original_node GC v <> Some w) ->
     x (fold_left (copyNodeOut GC cGA) l GA) w = x GA w /\
     y (fold_left (copyNodeOut GC cGA) l GA) w = y GA w /\
     z (fold_left (copyNodeOut GC cGA) l GA) w = z GA w) /\
  (forall w v, In v l -> GC_original_node GC v = Some w ->
     exists v', In v' l /\ GC_original_node GC v' = Some w /\
       x (fold_left (copyNodeOut GC cGA) l GA) w = x cGA v' /\
       y (fold_left (copyNodeOut GC cGA) l GA) w = y cGA v' /\
       (has GA threeD = true ->
        z (fold_left (copyNodeOut GC cGA) l GA) w = z cGA v')).
Proof.
  induction l as [|a l IH] using rev_ind.
  - simpl. split; [apply laidOut_refl|]. split; [reflexivity|].
    split; [now intros|]. intros w v [].
  - rewrite fold_left_app. simpl.
    destruct IH as (Hl & Hb & Hout & Hin).
    set (G1 := fold_left (copyNodeOut GC cGA) l GA) in *.
    destruct (copyNodeOut_laidOut GC cGA a Hl) as [Hl' Hb'].
    split; [exact Hl'|]. split; [congruence|].
    assert (has G1 threeD = has GA threeD) as H3
      by apply (has_sameSizes _ (proj1 Hl)).
    unfold copyNodeOut in *. destruct (GC_original_node GC a) as [wa|] eqn:Ha.
    + assert (has (set_y (set_x G1 wa (x cGA a)) wa (y cGA a)) threeD
              = has GA threeD) as H3' by exact H3.
      rewrite H3'. split.
      * intros w Hw.
        assert (w <> wa) as Hne.
        { intros ->. apply (Hw a); [apply in_or_app; right; now left | exact Ha]. }
        destruct (Hout w) as (ex & ey & ez).
        { intros v Hv. apply Hw. apply in_or_app. now left. }
        destruct (has GA threeD); simpl; rewrite !(update_other _ _ Hne);
          now repeat split.
      * intros w v Hv Hvw. destruct (Nat.eq_dec w wa) as [->|Hne].
        -- exists a. split; [apply in_or_app; right; now left|].
           split; [exact Ha|].
           destruct (has GA threeD); simpl; rewrite !update_same;
             repeat split; intros; congruence.
        -- apply in_app_or in Hv as [Hv|[<-|[]]]; [|congruence].
           destruct (Hin w v Hv Hvw) as (v' & Hv' & Ho & ex & ey & ez).
           exists v'. split; [apply in_or_app; now left|]. split; [exact Ho|].
           destruct (has GA threeD); simpl; rewrite !(update_other _ _ Hne);
             repeat split; assumption.
    + split.
      * intros w Hw. apply Hout. intros v Hv. apply Hw, in_or_app. now left.
      * intros w v Hv Hvw. apply in_app_or in Hv as [Hv|[<-|[]]]; [|congruence].
        destruct (Hin w v Hv Hvw) as (v' & Hv' & Ho & ex & ey & ez).
        exists v'. split; [apply in_or_app; now left|]. now repeat split.
Qed.

Lemma copyEdgesOut_spec GC cGA (GA : t Graph) l :
  (constGraph (fold_left (copyEdgeOut GC cGA) l GA) = constGraph GA /\
   attributes (fold_left (copyEdgeOut GC cGA) l GA) = attributes GA /\
   x (fold_left (copyEdgeOut GC cGA) l GA) = x GA /\
   y (fold_left (copyEdgeOut GC cGA) l GA) = y GA /\
   z (fold_left (copyEdgeOut GC cGA) l GA) = z GA) /\
  (forall f, (forall e, In e l -> GC_original_edge GC e <> Some f) ->
     bends (fold_left (copyEdgeOut GC cGA) l GA) f = bends GA f) /\
  (forall f e, In e l -> GC_original_edge GC e = Some f ->
     exists e', In e' l /\ GC_original_edge GC e' = Some f /\
       bends (fold_left (copyEdgeOut GC cGA) l GA) f = bends cGA e').
Proof.
  induction l as [|a l IH] using rev_ind.
  - simpl. split; [now repeat split|]. split; [now intros|]. intros f e [].
  - rewrite fold_left_app. simpl.
    destruct IH as ((a1 & a2 & a3 & a4 & a5) & Hout & Hin).
    set (G1 := fold_left (copyEdgeOut GC cGA) l GA) in *.
    unfold copyEdgeOut. destruct (GC_original_edge GC a) as [fa|] eqn:Ha.
    + split; [now repeat split|]. split.
      * intros f Hf.
        assert (f <> fa) as Hne.
        { intros ->. apply (Hf a); [apply in_or_app; right; now left | exact Ha]. }
        simpl. rewrite (update_other _ _ Hne). apply Hout.
        intros e He. apply Hf, in_or_app. now left.
      * intros f e He Hef. destruct (Nat.eq_dec f fa) as [->|Hne].
        -- exists a. split; [apply in_or_app; right; now left|].
           split; [exact Ha|]. simpl. now rewrite update_same.
        -- apply in_app_or in He as [He|[<-|[]]]; [|congruence].
           destruct (Hin f e He Hef) as (e' & He' & Ho & eb).
           exists e'. split; [apply in_or_app; now left|]. split; [exact Ho|].
           simpl. now rewrite (update_other _ _ Hne).
    + split; [now repeat split|]. split.
      * intros f Hf. apply Hout. intros e He. apply Hf, in_or_app. now left.
      * intros f e He Hef. apply in_app_or in He as [He|[<-|[]]]; [|congruence].
        destruct (Hin f e He Hef) as (e' & He' & Ho & eb).
        exists e'. split; [apply in_or_app; now left|]. now split.
Qed.

Lemma copyOut_spec GC cGA (GA : t Graph) :
  (forall w, (forall v, In v (GC_nodes GC) -> GC_original_node GC v <> Some w) ->
     x (copyOut GC cGA GA) w = x GA w /\ y (copyOut GC cGA GA) w = y GA w /\
     z (copyOut GC cGA GA) w = z GA w) /\
  (forall w v, In v (GC_nodes GC) -> GC_original_node GC v = Some w ->
     exists v', In v' (GC_nodes GC) /\ GC_original_node GC v' = Some w /\
       x (copyOut GC cGA GA) w = x cGA v' /\ y (copyOut GC cGA GA) w = y cGA v' /\
       (has GA threeD = true -> z (copyOut GC cGA GA) w = z cGA v')) /\
  (forall f, has GA edgeGraphics = false \/
             (forall e, In e (GC_edges GC) -> GC_original_edge GC e <> Some f) ->
     bends (copyOut GC cGA GA) f = bends GA f) /\
  (has GA edgeGraphics = true ->
   forall f e, In e (GC_edges GC) -> GC_original_edge GC e = Some f ->
     exists e', In e' (GC_edges GC) /\ GC_original_edge GC e' = Some f /\
       bends (copyOut GC cGA GA) f = bends cGA e').
Proof.
  unfold copyOut.
  destruct (copyNodesOut_spec GC cGA GA (GC_nodes GC)) as (Hl & Hb & Hout & Hin).
  set (G1 := fold_left (copyNodeOut GC cGA) (GC_nodes GC) GA) in *.
  rewrite (has_sameSizes _ (proj1 Hl)).
  destruct (has GA edgeGraphics) eqn:Hg.
  - destruct (copyEdgesOut_spec GC cGA G1 (GC_edges GC))
      as ((a1 & a2 & a3 & a4 & a5) & Heout & Hein).
    rewrite a3, a4, a5. split; [exact Hout|]. split; [exact Hin|]. split.
    + intros f [Hf|Hf]; [discriminate|]. rewrite Heout by exact Hf. now rewrite Hb.
    + intros _. exact Hein.
  - split; [exact Hout|]. split; [exact Hin|]. split.
    + intros f _. now rewrite Hb.
    + discriminate.
Qed.

(** X5. What one round of the component loop writes back: a node that is the
    original of no copy node keeps x, y and z; a node that is the original of
    a copy node gets x and y, and with three-dimensional attributes z, from a
    copy node of which it is the original.  With edge graphics the same holds
    for the bends of the edges; without, no bend is written. *)
Theorem copyOut_writes_originals GC cGA (GA : t Graph) :
  (forall w, (forall v, In v (GC_nodes GC) -> GC_original_node GC v <> Some w) ->
     x (copyOut GC cGA GA) w = x GA w /\ y (copyOut GC cGA GA) w = y GA w /\
     z (copyOut GC cGA GA) w = z GA w) /\
  (forall w v, In v (GC_nodes GC) -> GC_original_node GC v = Some w ->
     exists v', In v' (GC_nodes GC) /\ GC_original_node GC v' = Some w /\
       x (copyOut GC cGA GA) w = x cGA v' /\ y (copyOut GC cGA GA) w = y cGA v' /\
       (has GA threeD = true -> z (copyOut GC cGA GA) w = z cGA v')) /\
  (forall f, has GA edgeGraphics = false \/
             (forall e, In e (GC_edges GC) -> GC_original_edge GC e <> Some f) ->
     bends (copyOut GC cGA GA) f = bends GA f) /\
  (has GA edgeGraphics = true ->
   forall f e, In e (GC_edges GC) -> GC_original_edge GC e = Some f ->
     exists e', In e' (GC_edges GC) /\ GC_original_edge GC e' = Some f /\
       bends (copyOut GC cGA GA) f = bends cGA e').
Proof. apply copyOut_spec. Qed.

(** X6. Copying in and copying out are inverse to each other on positions
    and bends: when the secondary layout hands back the x, y and bends it was
    given, a round of the component loop leaves every x, y and bend of [GA]
    as it was. *)
Theorem copy_round_trip GC (GA : t Graph) cGA (L : LayoutModule) :
  copyIn GC GA = Some cGA ->
  (forall v, In v (GC_nodes GC) -> x (L cGA) v = x cGA v /\ y (L cGA) v = y cGA v) ->
  (forall e, In e (GC_edges GC) -> bends (L cGA) e = bends cGA e) ->
  forall w f,
    x (copyOut GC (L cGA) GA) w = x GA w /\
    y (copyOut GC (L cGA) GA) w = y GA w /\
    bends (copyOut GC (L cGA) GA) f = bends GA f.
Proof.
  intros Hin Hxy Hbends w f.
  apply copyIn_spec in Hin as (_ & Hn & He & _).
  destruct (copyOut_spec GC (L cGA) GA) as (Hout & Hback & Hbout & Hbback).
  assert (x (copyOut GC (L cGA) GA) w = x GA w /\
          y (copyOut GC (L cGA) GA) w = y GA w) as [Hx Hy].
  { destruct (writer_dec (GC_original_node GC) (GC_nodes GC) w) as [(v & Hv & Ho)|Hno].
    - destruct (Hback w v Hv Ho) as (v' & Hv' & Ho' & -> & -> & _).
      destruct (Hxy v' Hv') as [-> ->].
      destruct (Hn v' Hv') as (w' & Ho'' & _ & _ & -> & ->).
      rewrite Ho' in Ho''. injection Ho'' as <-. now split.
    - destruct (Hout w Hno) as (ex & ey & _). now split. }
  split; [exact Hx|]. split; [exact Hy|].
  destruct (has GA edgeGraphics) eqn:Hg; [|apply Hbout; now left].
  destruct (writer_dec (GC_original_edge GC) (GC_edges GC) f) as [(e & He' & Ho)|Hno].
  - destruct (Hbback eq_refl f e He' Ho) as (e' & He'' & Ho' & ->).
    rewrite (Hbends e' He'').
    destruct (proj1 (He e' He'') eq_refl) as (f' & Ho'' & ->).
    rewrite Ho' in Ho''. now injection Ho'' as <-.
  - apply Hbout. now right.
Qed.

(** ** The rounds of the component loop do not interfere *)

Lemma foldM_ext_in {S A} (f g : S -> A -> option S) l :
  (forall s a, In a l -> f s a = g s a) ->
  forall s, foldM f l s = foldM g l s.
Proof.
  induction l as [|a l IH]; intros H s; simpl; [reflexivity|].
  rewrite (H s a (or_introl eq_refl)). destruct (g s a) as [s1|]; [|reflexivity].
  simpl. apply IH. intros s' a' Ha'. apply H. now right.
Qed.

(** What is copied in depends on the originals of the copy only. *)
Lemma copyIn_ext GC (GA GA' : t Graph) :
  sameSizes GA GA' ->
  (forall v w, In v (GC_nodes GC) -> GC_original_node GC v = Some w ->
     x GA' w = x GA w /\ y GA' w = y GA w) ->
  (forall e f, In e (GC_edges GC) -> GC_original_edge GC e = Some f ->
     bends GA' f = bends GA f) ->
  copyIn GC GA' = copyIn GC GA.
Proof.
  intros (_ & Hattr & Hw & Hh & Hd) Hn He. unfold copyIn. rewrite Hattr.
  rewrite (foldM_ext_in (copyNodeIn GC GA') (copyNodeIn GC GA)).
  2: { intros c v Hv. unfold copyNodeIn.
       destruct (GC_original_node GC v) as [w|] eqn:Ho; [|reflexivity]. simpl.
       destruct (Hn v w Hv Ho) as [-> ->]. now rewrite Hw, Hh. }
  destruct (foldM (copyNodeIn GC GA) _ _) as [c1|]; [|reflexivity]. simpl.
  apply foldM_ext_in. intros c e Hin. unfold copyEdgeIn, has. rewrite Hattr, Hd.
  destruct (GC_original_edge GC e) as [f|] eqn:Ho; [|reflexivity].
  cbn [bind]. now rewrite (He e f Hin Ho).
Qed.

(** Copying out keeps two attributes equal where they were. *)
Lemma copyNodesOut_agree GC cGA w l : forall (A B : t Graph),
  attributes A = attributes B ->
  x A w = x B w /\ y A w = y B w /\ z A w = z B w ->
  x (fold_left (copyNodeOut GC cGA) l A) w = x (fold_left (copyNodeOut GC cGA) l B) w /\
  y (fold_left (copyNodeOut GC cGA) l A) w = y (fold_left (copyNodeOut GC cGA) l B) w /\
  z (fold_left (copyNodeOut GC cGA) l A) w = z (fold_left (copyNodeOut GC cGA) l B) w.
Proof.
  induction l as [|v l IH]; intros A B Hattr Hag; simpl; [exact Hag|].
  apply IH.
  - unfold copyNodeOut. destruct (GC_original_node GC v) as [w'|]; [|exact Hattr].
    unfold has. simpl. rewrite Hattr. now destruct (attributes B threeD).
  - unfold copyNodeOut. destruct (GC_original_node GC v) as [w'|]; [|exact Hag].
    unfold has. simpl. rewrite Hattr. destruct Hag as (ex & ey & ez).
    destruct (attributes B threeD); simpl; unfold update;
      destruct (Nat.eqb w w'); now repeat split.
Qed.

Lemma copyEdgesOut_agree GC cGA f l : forall (A B : t Graph),
  bends A f = bends B f ->
  bends (fold_left (copyEdgeOut GC cGA) l A) f
  = bends (fold_left (copyEdgeOut GC cGA) l B) f.
Proof.
  induction l as [|e l IH]; intros A B Hag; simpl; [exact Hag|].
  apply IH. unfold copyEdgeOut. destruct (GC_original_edge GC e) as [f'|]; [|exact Hag].
  simpl. unfold update. now destruct (Nat.eqb f f').
Qed.

Lemma copyOut_agree GC cGA cc (A B : t Graph) :
  sameSizes A B -> agreeOn cc A B ->
  agreeOn cc (copyOut GC cGA A) (copyOut GC cGA B).
Proof.
  intros Hs [Hn He].
  assert (attributes B = attributes A) as Hattr by apply Hs.
  destruct (copyNodesOut_spec GC cGA A (GC_nodes GC)) as (HlA & HbA & _).
  destruct (copyNodesOut_spec GC cGA B (GC_nodes GC)) as (HlB & HbB & _).
  unfold copyOut.
  rewrite (has_sameSizes _ (proj1 HlA)), (has_sameSizes _ (proj1 HlB)).
  unfold has, agreeOn. rewrite Hattr.
  assert (forall v, In v (cc_nodes cc) ->
            x (fold_left (copyNodeOut GC cGA) (GC_nodes GC) B) v
            = x (fold_left (copyNodeOut GC cGA) (GC_nodes GC) A) v /\
            y (fold_left (copyNodeOut GC cGA) (GC_nodes GC) B) v
            = y (fold_left (copyNodeOut GC cGA) (GC_nodes GC) A) v /\
            z (fold_left (copyNodeOut GC cGA) (GC_nodes GC) B) v
            = z (fold_left (copyNodeOut GC cGA) (GC_nodes GC) A) v) as Hnodes.
  { intros v Hv. apply copyNodesOut_agree; [exact Hattr | now apply Hn]. }
  destruct (attributes A edgeGraphics).
  - destruct (copyEdgesOut_spec GC cGA
                (fold_left (copyNodeOut GC cGA) (GC_nodes GC) A) (GC_edges GC))
      as ((_ & _ & -> & -> & ->) & _).
    destruct (copyEdgesOut_spec GC cGA
                (fold_left (copyNodeOut GC cGA) (GC_nodes GC) B) (GC_edges GC))
      as ((_ & _ & -> & -> & ->) & _).
    split; [exact Hnodes|]. intros e Hin. apply copyEdgesOut_agree.
    rewrite HbA, HbB. now apply He.
  - split; [exact Hnodes|]. intros e Hin. rewrite HbA, HbB. now apply He.
Qed.

Lemma components_disjoint {A} (f : component -> list A) (ccs : CCsInfo) :
  NoDup (flat_map f ccs) ->
  forall i j a b w, i <> j -> nth_error ccs i = Some a -> nth_error ccs j = Some b ->
    In w (f a) -> ~ In w (f b).
Proof.
  induction ccs as [|c ccs IH]; intros Hnd i j a b w Hij Hi Hj Ha Hb.
  - destruct i; discriminate.
  - simpl in Hnd. destruct i as [|i], j as [|j]; simpl in Hi, Hj.
    + congruence.
    + injection Hi as <-. apply (NoDup_app_disjoint _ _ Hnd w Ha).
      apply in_flat_map. exists b. split; [eapply nth_error_In; eassumption | exact Hb].
    + injection Hj as <-. apply (NoDup_app_disjoint _ _ Hnd w Hb).
      apply in_flat_map. exists a. split; [eapply nth_error_In; eassumption | exact Ha].
    + apply (IH (NoDup_app_remove_l _ _ Hnd) i j a b w); auto.
Qed.

Section Rounds.

Variables (L : LayoutModule) (ccs : CCsInfo) (GA : t Graph).

(** The copy of a component has its originals in the component. *)
Hypothesis nodes_of_component : forall i cc v w,
  nth_error ccs i = Some cc ->
  In v (GC_nodes (GC_insert (constGraph GA) ccs i)) ->
  GC_original_node (GC_insert (constGraph GA) ccs i) v = Some w ->
  In w (cc_nodes cc).

Hypothesis edges_of_component : forall i cc e f,
  nth_error ccs i = Some cc ->
  In e (GC_edges (GC_insert (constGraph GA) ccs i)) ->
  GC_original_edge (GC_insert (constGraph GA) ccs i) e = Some f ->
  In f (cc_edges cc).

Hypothesis disjoint_nodes : NoDup (flat_map cc_nodes ccs).
Hypothesis disjoint_edges : NoDup (flat_map cc_edges ccs).

(** A round leaves the other components alone. *)
Lemma round_frame (A : t Graph) cGA i cc j cc' :
  nth_error ccs i = Some cc -> nth_error ccs j = Some cc' -> i <> j ->
  agreeOn cc' A (copyOut (GC_insert (constGraph GA) ccs i) cGA A).
Proof.
  intros Hi Hj Hij.
  destruct (copyOut_spec (GC_insert (constGraph GA) ccs i) cGA A)
    as (Hout & _ & Hbout & _).
  split.
  - intros w Hw. apply Hout. intros v Hv Ho.
    exact (@components_disjoint _ cc_nodes ccs disjoint_nodes i j cc cc' w Hij Hi Hj
             (@nodes_of_component i cc v w Hi Hv Ho) Hw).
  - intros f Hf. apply Hbout. right. intros e He Ho.
    exact (@components_disjoint _ cc_edges ccs disjoint_edges i j cc cc' f Hij Hi Hj
             (@edges_of_component i cc e f Hi He Ho) Hf).
Qed.

Lemma agreeOn_trans (cc : component) (A B C : t Graph) :
  agreeOn cc A B -> agreeOn cc B C -> agreeOn cc A C.
Proof.
  intros [a1 a2] [b1 b2]. split.
  - intros v Hv. destruct (a1 v Hv) as (<- & <- & <-). now apply b1.
  - intros e He. rewrite <- (a2 e He). now apply b2.
Qed.

Lemma agreeOn_sym (cc : component) (A B : t Graph) :
  agreeOn cc A B -> agreeOn cc B A.
Proof.
  intros [a1 a2]. split.
  - intros v Hv. destruct (a1 v Hv) as (-> & -> & ->). now repeat split.
  - intros e He. now rewrite (a2 e He).
Qed.

Lemma rounds_frame l : forall (A : t Graph) logA GA1 log,
  sameSizes GA A ->
  (forall i, In i l -> (i < List.length ccs)%nat) ->
  foldM (layoutComponent L ccs) l (A, logA) = Some (GA1, log) ->
  forall j cc', nth_error ccs j = Some cc' -> ~ In j l -> agreeOn cc' A GA1.
Proof.
  induction l as [|i l IH]; intros A logA GA1 log Hs Hlt H j cc' Hj Hnin;
    simpl in H.
  - injection H as <- _. split; [intros; now repeat split | reflexivity].
  - apply bind_Some in H as ([A1 log1] & H1 & H).
    apply layoutComponent_inv in H1 as (cGA & _ & -> & ->).
    assert (constGraph A = constGraph GA) as Hg by apply Hs. rewrite Hg in *.
    destruct (nth_error ccs i) as [cc|] eqn:Hi.
    2: { apply nth_error_None in Hi. specialize (Hlt i (or_introl eq_refl)). lia. }
    apply agreeOn_trans with (copyOut (GC_insert (constGraph GA) ccs i) (L cGA) A).
    + apply (round_frame _ _ Hi Hj). intros ->. apply Hnin. now left.
    + apply (IH _ _ _ _ (sameSizes_trans Hs (proj1 (copyOut_laidOut _ _ _)))
               (fun k Hk => Hlt k (or_intror Hk)) H j cc' Hj).
      intros Hin. apply Hnin. now right.
Qed.

Lemma rounds_spec l : forall (A : t Graph) logA GA1 log,
  NoDup l -> (forall i, In i l -> (i < List.length ccs)%nat) ->
  sameSizes GA A ->
  (forall j cc', In j l -> nth_error ccs j = Some cc' -> agreeOn cc' GA A) ->
  foldM (layoutComponent L ccs) l (A, logA) = Some (GA1, log) ->
  forall i cc, In i l -> nth_error ccs i = Some cc ->
    exists GA_i,
      layoutComponent L ccs (GA, []) i = Some (GA_i, [SecondaryLayoutCall i]) /\
      agreeOn cc GA_i GA1.
Proof.
  induction l as [|i0 l IH]; intros A logA GA1 log Hnd Hlt Hs Hag H i cc Hin Hi;
    [contradiction|].
  simpl in H. apply bind_Some in H as ([A1 log1] & H1 & H).
  inversion Hnd as [|? ? Hnin Hnd']; subst.
  assert (constGraph A = constGraph GA) as Hg by apply Hs.
  destruct (nth_error ccs i0) as [cc0|] eqn:Hi0.
  2: { apply nth_error_None in Hi0. specialize (Hlt i0 (or_introl eq_refl)). lia. }
  pose proof H1 as H1'.
  apply layoutComponent_inv in H1' as (cGA & Hin0 & -> & ->). rewrite Hg in *.
  assert (copyIn (GC_insert (constGraph GA) ccs i0) GA = Some cGA) as Hin0'.
  { rewrite <- Hin0. symmetry. apply copyIn_ext; [exact Hs| |].
    - intros v w Hv Ho.
      destruct (proj1 (Hag i0 cc0 (or_introl eq_refl) Hi0) w
                  (@nodes_of_component i0 cc0 v w Hi0 Hv Ho)) as (ex & ey & _).
      now split.
    - intros e f He Ho.
      apply (proj2 (Hag i0 cc0 (or_introl eq_refl) Hi0) f
               (@edges_of_component i0 cc0 e f Hi0 He Ho)). }
  destruct Hin as [<-|Hin].
  - rewrite Hi0 in Hi. injection Hi as <-.
    exists (copyOut (GC_insert (constGraph GA) ccs i0) (L cGA) GA). split.
    + unfold layoutComponent. unfold copyIn in Hin0'.
      apply bind_Some in Hin0' as (c1 & Hc1 & Hc2).
      rewrite Hc1. cbn [bind]. rewrite Hc2. cbn [bind]. reflexivity.
    + apply agreeOn_trans
        with (copyOut (GC_insert (constGraph GA) ccs i0) (L cGA) A).
      * apply copyOut_agree; [exact Hs|].
        apply (Hag i0 cc0 (or_introl eq_refl) Hi0).
      * exact (@rounds_frame l _ _ _ _
                 (sameSizes_trans Hs (proj1 (copyOut_laidOut _ _ _)))
                 (fun k Hk => Hlt k (or_intror Hk)) H i0 cc0 Hi0 Hnin).
  - apply (IH _ _ _ _ Hnd' (fun k Hk => Hlt k (or_intror Hk))
             (sameSizes_trans Hs (proj1 (copyOut_laidOut _ _ _))))
      with (i := i) (cc := cc) in H; [exact H | | exact Hin | exact Hi].
    intros j cc' Hj Hjc.
    apply agreeOn_trans with A; [apply (Hag j cc' (or_intror Hj) Hjc)|].
    apply (round_frame _ _ Hi0 Hjc). intros ->. contradiction.
Qed.

End Rounds.

(** X14. The rounds of the component loop of [call] do not interfere.  When
    the components share no node and no edge and the copy of a component has
    its originals in the component, the loop leaves on every component the
    positions and bends that its round alone gives on the input: the secondary
    layout is given the input drawing of the component, whatever the rounds
    before it did, and what it returns is not touched by the rounds after
    it. *)
Theorem component_rounds_independent (L : LayoutModule) (ccs : CCsInfo)
  (GA GA1 : t Graph) log :
  (forall i cc v w,
     nth_error ccs i = Some cc ->
     In v (GC_nodes (GC_insert (constGraph GA) ccs i)) ->
     GC_original_node (GC_insert (constGraph GA) ccs i) v = Some w ->
     In w (cc_nodes cc)) ->
  (forall i cc e f,
     nth_error ccs i = Some cc ->
     In e (GC_edges (GC_insert (constGraph GA) ccs i)) ->
     GC_original_edge (GC_insert (constGraph GA) ccs i) e = Some f ->
     In f (cc_edges cc)) ->
  NoDup (flat_map cc_nodes ccs) -> NoDup (flat_map cc_edges ccs) ->
  foldM (layoutComponent L ccs) (seq 0 (numberOfCCs ccs)) (GA, []) = Some (GA1, log) ->
  forall i cc, nth_error ccs i = Some cc ->
    exists GA_i,
      layoutComponent L ccs (GA, []) i = Some (GA_i, [SecondaryLayoutCall i]) /\
      agreeOn cc GA_i GA1.
Proof.
  intros Hn He Hdn Hde H i cc Hi.
  apply (@rounds_spec L ccs GA Hn He Hdn Hde (seq 0 (numberOfCCs ccs)) GA [] GA1 log).
  - apply seq_NoDup.
  - intros k Hk. apply in_seq in Hk. unfold numberOfCCs in Hk. lia.
  - apply sameSizes_refl.
  - intros j cc' _ _. split; [intros; now repeat split | reflexivity].
  - exact H.
  - apply in_seq. unfold numberOfCCs. split; [lia|]. simpl.
    apply nth_error_Some. congruence.
  - exact Hi.
Qed.

End Calling.

#[local] Existing Instance Examples.tables.

(** The run of the examples moves nodes 0 to 4 and edges 0 to 3 only. *)
Lemma reassembleDrawings_moves_only_rectangle :
  exists GA',
    reassembleDrawings (ComponentSplitterLayout_new Examples.rowPacker)
                       Examples.rectangleGA Examples.twoComponents
    = Some (GA', [PackerCall [mkPoint 36%Z 34%Z; mkPoint 31%Z 31%Z] 1]) /\
    (constGraph GA' = Examples.twoComponents /\
     attributes GA' = attributes Examples.rectangleGA /\
     z GA' = z Examples.rectangleGA /\ width GA' = width Examples.rectangleGA /\
     height GA' = height Examples.rectangleGA /\
     doubleWeight GA' = doubleWeight Examples.rectangleGA) /\
    (forall v, ~ In v [0; 1; 2; 3; 4]%nat ->
               x GA' v = x Examples.rectangleGA v /\
               y GA' v = y Examples.rectangleGA v) /\
    (forall e, ~ In e [0; 1; 2; 3]%nat ->
               bends GA' e = bends Examples.rectangleGA e) /\
    (has Examples.rectangleGA edgeGraphics = false ->
     bends GA' = bends Examples.rectangleGA).
Proof.
  destruct rectangle_run as [GA' Hrun]. exists GA'. split; [exact Hrun|].
  exact (@reassembleDrawings_moves_only_components _ _ _ _ _ _ _ Hrun).
Defined.

(** [call] on the examples, with the layout that doubles x: the rectangle
    with its bend is then 22 wide. *)
Lemma stretch_run :
  exists GA',
    call Examples.stretchSplitter Examples.rectangleGA
    = Some (GA', [SecondaryLayoutCall 0; SecondaryLayoutCall 1;
                  ReassembleDrawingsCall;
                  PackerCall [mkPoint 52%Z 34%Z; mkPoint 31%Z 31%Z] 1]).
Proof. eexists. vm_compute. reflexivity. Qed.

Lemma call_keeps_sizes_stretch :
  exists GA',
    call Examples.stretchSplitter Examples.rectangleGA
    = Some (GA', [SecondaryLayoutCall 0; SecondaryLayoutCall 1;
                  ReassembleDrawingsCall;
                  PackerCall [mkPoint 52%Z 34%Z; mkPoint 31%Z 31%Z] 1]) /\
    laidOut Examples.rectangleGA GA'.
Proof.
  destruct stretch_run as [GA' Hrun]. exists GA'. split; [exact Hrun|].
  exact (@call_keeps_sizes _ _ _ _ _ Hrun).
Defined.

Lemma call_sequence_stretch :
  exists bx,
    List.length bx = 2%nat /\
    [SecondaryLayoutCall 0; SecondaryLayoutCall 1; ReassembleDrawingsCall;
     PackerCall [mkPoint 52%Z 34%Z; mkPoint 31%Z 31%Z] 1]
    = map SecondaryLayoutCall (seq 0 2)
      ++ [ReassembleDrawingsCall; PackerCall bx 1].
Proof.
  destruct stretch_run as [GA' Hrun].
  refine (@call_sequence _ Examples.stretchSplitter Examples.stretchLayout
            Examples.rectangleGA GA' _ eq_refl _ Hrun).
  simpl. lia.
Defined.

(** The copy of the first component of the examples. *)
Lemma rectangle_copyIn :
  exists cGA,
    copyIn (mkComponent [0; 1; 2; 3]%nat [0; 1; 2; 3]%nat) Examples.rectangleGA
    = Some cGA.
Proof. eexists. vm_compute. reflexivity. Qed.

Lemma secondary_layout_sees_rectangle :
  exists cGA,
    copyIn (mkComponent [0; 1; 2; 3]%nat [0; 1; 2; 3]%nat) Examples.rectangleGA
    = Some cGA /\
    (forall v, In v [0; 1; 2; 3]%nat ->
       exists w, Some v = Some w /\
         width cGA v = width Examples.rectangleGA w /\
         height cGA v = height Examples.rectangleGA w /\
         x cGA v = x Examples.rectangleGA w /\
         y cGA v = y Examples.rectangleGA w) /\
    (forall e, In e [0; 1; 2; 3]%nat ->
       (has Examples.rectangleGA edgeGraphics = true ->
        exists f, Some e = Some f /\ bends cGA e = bends Examples.rectangleGA f) /\
       (has Examples.rectangleGA edgeDoubleWeight = true ->
        exists f, Some e = Some f /\
                  doubleWeight cGA e = doubleWeight Examples.rectangleGA f)) /\
    z cGA = fun _ => 0.
Proof.
  destruct rectangle_copyIn as [cGA Hin]. exists cGA. split; [exact Hin|].
  exact (@secondary_layout_sees_originals _ _ _ _ Hin).
Defined.

Lemma copy_round_trip_rectangle :
  exists cGA,
    copyIn (mkComponent [0; 1; 2; 3]%nat [0; 1; 2; 3]%nat) Examples.rectangleGA
    = Some cGA /\
    x (copyOut (mkComponent [0; 1; 2; 3]%nat [0; 1; 2; 3]%nat) cGA
               Examples.rectangleGA) 2%nat = 16 /\
    y (copyOut (mkComponent [0; 1; 2; 3]%nat [0; 1; 2; 3]%nat) cGA
               Examples.rectangleGA) 2%nat = 24 /\
    bends (copyOut (mkComponent [0; 1; 2; 3]%nat [0; 1; 2; 3]%nat) cGA
                   Examples.rectangleGA) 3%nat = [mkPoint 10 22].
Proof.
  destruct rectangle_copyIn as [cGA Hin]. exists cGA. split; [exact Hin|].
  refine (@copy_round_trip _ _ Examples.rectangleGA cGA (fun c => c) Hin _ _
            2%nat 3%nat).
  - intros v _. now split.
  - reflexivity.
Defined.

(** The two rounds of the examples, with the layout that doubles x. *)
Lemma stretch_rounds :
  exists GA1,
    foldM (layoutComponent Examples.stretchLayout Examples.twoComponents)
          (seq 0 (numberOfCCs Examples.twoComponents)) (Examples.rectangleGA, [])
    = Some (GA1, [SecondaryLayoutCall 0; SecondaryLayoutCall 1]).
Proof. eexists. vm_compute. reflexivity. Qed.

Lemma component_rounds_independent_rectangle :
  exists GA1 GA_0,
    foldM (layoutComponent Examples.stretchLayout Examples.twoComponents)
          (seq 0 (numberOfCCs Examples.twoComponents)) (Examples.rectangleGA, [])
    = Some (GA1, [SecondaryLayoutCall 0; SecondaryLayoutCall 1]) /\
    layoutComponent Examples.stretchLayout Examples.twoComponents
                    (Examples.rectangleGA, []) 0
    = Some (GA_0, [SecondaryLayoutCall 0]) /\
    agreeOn (mkComponent [0; 1; 2; 3]%nat [0; 1; 2; 3]%nat) GA_0 GA1.
Proof.
  destruct stretch_rounds as [GA1 Hrun]. exists GA1.
  destruct (@component_rounds_independent _ Examples.stretchLayout
              Examples.twoComponents Examples.rectangleGA GA1
              [SecondaryLayoutCall 0; SecondaryLayoutCall 1])
    with (i := 0%nat) (cc := mkComponent [0; 1; 2; 3]%nat [0; 1; 2; 3]%nat)
    as (GA_0 & H0 & Hag).
  - intros i cc v w Hi Hv [= <-].
    destruct i as [|[|i]]; simpl in Hi, Hv.
    + injection Hi as <-. exact Hv.
    + injection Hi as <-. exact Hv.
    + destruct i; discriminate.
  - intros i cc e f Hi He [= <-].
    destruct i as [|[|i]]; simpl in Hi, He.
    + injection Hi as <-. exact He.
    + injection Hi as <-. exact He.
    + destruct i; discriminate.
  - exact NoDup_nodes_twoComponents.
  - exact NoDup_edges_twoComponents.
  - exact Hrun.
  - reflexivity.
  - exists GA_0. split; [exact Hrun|]. split; [exact H0 | exact Hag].
Defined.

End SplitterFrame.

(* ================================================================= *)
(** * Component splitter: the calipers and the extents of a hull *)

Module SplitterCalipers.

Import Splitter Splitter.GraphAttributes SplitterTheory.
Local Open Scope Q_scope.

Section Calipers.

Context {ext : Externals}.

Lemma fold_keepBest_dichotomy cs :
  (fold_left keepBest cs initialBest = initialBest /\
   forall c, In c cs -> DBL_MAX < cand_area c) \/
  (exists c, In c cs /\ fold_left keepBest cs initialBest = proposal c /\
     cand_area c <= DBL_MAX /\ forall d, In d cs -> cand_area c <= cand_area d).
Proof.
  induction cs as [|d cs IH] using rev_ind.
  - left. split; [reflexivity | intros c []].
  - rewrite fold_left_app. simpl. destruct IH as [[-> Hall]|(c & Hc & -> & Hmax & Hmin)].
    + unfold keepBest. destruct (Qleb (cand_area d) (best_area initialBest)) eqn:E.
      * right. apply Qleb_le in E. simpl in E. exists d.
        split; [apply in_or_app; right; now left|]. split; [reflexivity|].
        split; [exact E|]. intros d' Hd'.
        apply in_app_or in Hd' as [Hd'|[<-|[]]]; [|apply Qle_refl].
        apply Qlt_le_weak. eapply Qle_lt_trans; [exact E | now apply Hall].
      * left. apply Qleb_gt in E. simpl in E. split; [reflexivity|].
        intros c Hc. apply in_app_or in Hc as [Hc|[<-|[]]]; [now apply Hall | exact E].
    + right. unfold keepBest. destruct (Qleb (cand_area d) (best_area (proposal c))) eqn:E.
      * apply Qleb_le in E. simpl in E. exists d.
        split; [apply in_or_app; right; now left|]. split; [reflexivity|].
        split; [eapply Qle_trans; eassumption|]. intros d' Hd'.
        apply in_app_or in Hd' as [Hd'|[<-|[]]]; [|apply Qle_refl].
        eapply Qle_trans; [exact E | now apply Hmin].
      * apply Qleb_gt in E. simpl in E. exists c.
        split; [apply in_or_app; now left|]. split; [reflexivity|].
        split; [exact Hmax|]. intros d' Hd'.
        apply in_app_or in Hd' as [Hd'|[<-|[]]]; [now apply Hmin|].
        now apply Qlt_le_weak.
Qed.

(** X7. The search of the calipers ends in one of two ways.  Either every
    candidate has an area above [DBL_MAX] and the initial values are kept:
    area [DBL_MAX], width 0, height 0 and the normal (0,0).  Or the stored
    box is that of a candidate of the hull whose area is at most [DBL_MAX] and
    at most the area of every candidate; then the stored area is the product
    of the stored height and width. *)
Theorem findBest_initial_or_least (hull : DPolygon) :
  (findBest hull = initialBest /\
   forall c, In c (candidates hull) -> DBL_MAX < cand_area c) \/
  (exists c, In c (candidates hull) /\ findBest hull = proposal c /\
     cand_area c <= DBL_MAX /\
     (forall d, In d (candidates hull) -> cand_area c <= cand_area d) /\
     best_area (findBest hull)
     = best_height (findBest hull) * best_width (findBest hull)).
Proof.
  unfold findBest.
  destruct (fold_keepBest_dichotomy (candidates hull))
    as [H|(c & Hc & Hf & Hmax & Hmin)]; [now left|].
  right. exists c. rewrite Hf. now repeat split.
Qed.

(** ** The extents along and across a hull edge *)

Lemma maxDist_fold norm k l : forall d0,
  d0 <= fold_left (fun dist z => let d := CH_leftOfLine norm z k in
                                 if Qltb dist d then d else dist) l d0 /\
  forall z, In z l ->
    CH_leftOfLine norm z k
    <= fold_left (fun dist z => let d := CH_leftOfLine norm z k in
                                if Qltb dist d then d else dist) l d0.
Proof.
  induction l as [|a l IH]; intros d0; simpl.
  - split; [apply Qle_refl | intros z []].
  - destruct (IH (if Qltb d0 (CH_leftOfLine norm a k)
                  then CH_leftOfLine norm a k else d0)) as [Hge Hall].
    destruct (Qltb d0 (CH_leftOfLine norm a k)) eqn:E.
    + apply Qltb_lt in E.
      split; [eapply Qle_trans; [apply Qlt_le_weak; exact E | exact Hge]|].
      intros z [<-|Hz]; [exact Hge | now apply Hall].
    + apply Qltb_ge in E. split; [exact Hge|].
      intros z [<-|Hz]; [eapply Qle_trans; [exact E | exact Hge] | now apply Hall].
Qed.

Lemma leftRight_fold norm k l : forall l0 r0, r0 <= l0 ->
  let lr := fold_left
              (fun lr z =>
                 let '(left_, right_) := lr in
                 let d := CH_leftOfLine norm z k in
                 if Qltb left_ d then (d, right_)
                 else if Qltb d right_ then (left_, d)
                 else (left_, right_)) l (l0, r0) in
  snd lr <= r0 /\ l0 <= fst lr /\
  forall z, In z l ->
    snd lr <= CH_leftOfLine norm z k /\ CH_leftOfLine norm z k <= fst lr.
Proof.
  induction l as [|a l IH]; intros l0 r0 H0; simpl.
  - split; [apply Qle_refl|]. split; [apply Qle_refl | intros z []].
  - destruct (Qltb l0 (CH_leftOfLine norm a k)) eqn:E1.
    + apply Qltb_lt in E1.
      destruct (IH (CH_leftOfLine norm a k) r0) as (Hr & Hl & Hall); [lra|].
      simpl in Hr, Hl, Hall. split; [exact Hr|]. split; [lra|].
      intros z [<-|Hz]; [split; lra | now apply Hall].
    + apply Qltb_ge in E1. destruct (Qltb (CH_leftOfLine norm a k) r0) eqn:E2.
      * apply Qltb_lt in E2.
        destruct (IH l0 (CH_leftOfLine norm a k)) as (Hr & Hl & Hall); [lra|].
        simpl in Hr, Hl, Hall. split; [lra|]. split; [exact Hl|].
        intros z [<-|Hz]; [split; lra | now apply Hall].
      * apply Qltb_ge in E2.
        destruct (IH l0 r0 H0) as (Hr & Hl & Hall).
        simpl in Hr, Hl, Hall. split; [exact Hr|]. split; [exact Hl|].
        intros z [<-|Hz]; [split; lra | now apply Hall].
Qed.

(** X8. The box that a hull edge proposes encloses the hull: its height is
    at least the signed distance of every hull point from the edge, and its
    width is at least the difference of the signed distances of any two hull
    points along the edge (the [else if] of the second loop loses no point:
    a point that raises [left] cannot lie below [right]).  Both are at
    least 1. *)
Theorem candidate_encloses_hull (hull : DPolygon) (iter k z z' : DPoint) :
  In z hull -> In z' hull ->
  let c := candidateOf hull (iter, k) in
  let norm := CH_calcNormal k iter in
  let across := CH_calcNormal origin norm in
  CH_leftOfLine norm z k <= cand_dist c /\
  CH_leftOfLine across z k - CH_leftOfLine across z' k <= cand_width c /\
  1 <= cand_dist c /\ 1 <= cand_width c.
Proof.
  intros Hz Hz' c norm across.
  destruct (candidateOf_clamped hull (iter, k)) as [Hd Hw]. fold c in Hd, Hw.
  repeat split; [| |exact Hd|exact Hw].
  - subst c. unfold candidateOf. fold norm. fold across.
    destruct (leftRight across k hull) as [lf rt]. simpl.
    eapply Qle_trans; [|apply updateMax_ge].
    unfold maxDist. now apply maxDist_fold.
  - subst c. unfold candidateOf. fold norm. fold across.
    destruct (leftRight across k hull) as [lf rt] eqn:Elr. simpl.
    eapply Qle_trans; [|apply updateMax_ge].
    pose proof (@leftRight_fold across k hull 0 0 (Qle_refl 0)) as H.
    cbv zeta in H. unfold leftRight in Elr. rewrite Elr in H. simpl in H.
    destruct H as (_ & _ & Hall).
    destruct (Hall z Hz) as [_ H1]. destruct (Hall z' Hz') as [H2 _]. lra.
Qed.

(** ** The extent of the turned hull *)

Lemma hullExtent_fold angle l : forall l0 t0 b0 lf tp bt,
  fold_left
    (fun lrb tempP =>
       let '(left_, top, bottom) := lrb in
       let tempP := turn angle tempP in
       let left_ := if Qltb (m_x tempP) left_ then m_x tempP else left_ in
       let top := if Qltb (m_y tempP) top then m_y tempP else top in
       let bottom := if Qltb bottom (m_y tempP) then m_y tempP else bottom in
       (left_, top, bottom)) l (l0, t0, b0) = (lf, tp, bt) ->
  (lf <= l0 /\ tp <= t0 /\ b0 <= bt) /\
  forall p, In p l ->
    lf <= m_x (turn angle p) /\ tp <= m_y (turn angle p) /\ m_y (turn angle p) <= bt.
Proof.
  induction l as [|a l IH]; intros l0 t0 b0 lf tp bt H; cbn [fold_left] in H.
  - injection H as <- <- <-. split; [repeat split; apply Qle_refl | intros p []].
  - cbv zeta in H. apply IH in H as ((Hl & Ht & Hb) & Hall).
    remember (turn angle a) as q eqn:Eq.
    assert ((if Qltb (m_x q) l0 then m_x q else l0) <= l0 /\
            (if Qltb (m_x q) l0 then m_x q else l0) <= m_x q) as [Hl0 Hla].
    { destruct (Qltb (m_x q) l0) eqn:E;
        [apply Qltb_lt in E | apply Qltb_ge in E]; split; lra. }
    assert ((if Qltb (m_y q) t0 then m_y q else t0) <= t0 /\
            (if Qltb (m_y q) t0 then m_y q else t0) <= m_y q) as [Ht0 Hta].
    { destruct (Qltb (m_y q) t0) eqn:E;
        [apply Qltb_lt in E | apply Qltb_ge in E]; split; lra. }
    assert (b0 <= (if Qltb b0 (m_y q) then m_y q else b0) /\
            m_y q <= (if Qltb b0 (m_y q) then m_y q else b0)) as [Hb0 Hba].
    { destruct (Qltb b0 (m_y q)) eqn:E;
        [apply Qltb_lt in E | apply Qltb_ge in E]; split; lra. }
    split; [repeat split; lra|].
    intros p [<-|Hp]; [rewrite <- Eq; repeat split; lra | now apply Hall].
Qed.

(** X9. [left], [top] and [bottom] bound the turned hull: no turned hull
    point lies left of [left], above [top] or below [bottom].  The three start
    from the front point as it is before the turn, so they bound that point
    as well. *)
Theorem hullExtent_bounds angle (hull : DPolygon) left_ top bottom p :
  hullExtent angle hull = Some (left_, top, bottom) ->
  In p hull ->
  (left_ <= m_x (turn angle p) /\
   top <= m_y (turn angle p) /\ m_y (turn angle p) <= bottom) /\
  (left_ <= m_x (hd origin hull) /\
   top <= m_y (hd origin hull) /\ m_y (hd origin hull) <= bottom).
Proof.
  unfold hullExtent. destruct hull as [|front hull']; [discriminate|].
  intros H Hp. injection H as H.
  apply (@hullExtent_fold angle (front :: hull') (m_x front) (m_y front) (m_y front))
    in H as (Hfront & Hall).
  split; [apply Hall; exact Hp | exact Hfront].
Qed.

(** ** The edges of a hull *)

Lemma hullEdges_length (hull : DPolygon) :
  List.length (hullEdges hull) = List.length hull.
Proof.
  unfold hullEdges. rewrite length_combine.
  destruct hull as [|a hull]; [reflexivity|].
  cbn [tl firstn]. rewrite length_app. cbn [List.length].
  unfold DPolygon, DPoint in *. lia.
Qed.

(** X10. The calipers meet every hull point once, in the order of the hull,
    each time with its cyclic successor: the point after it, and for the last
    point the first.  So a hull of [n] points gives [n] candidates, and a hull
    of one point the single edge from the point to itself. *)
Theorem hullEdges_cyclic (hull : DPolygon) (i : nat) :
  (i < List.length hull)%nat ->
  List.length (candidates hull) = List.length hull /\
  nth_error (hullEdges hull) i
  = Some (nth i hull origin, nth (S i mod List.length hull) hull origin).
Proof.
  intros Hi. split.
  { unfold candidates. rewrite length_map. apply hullEdges_length. }
  rewrite (nth_error_nth' _ (origin, origin))
    by (now rewrite hullEdges_length).
  f_equal. unfold hullEdges.
  destruct hull as [|a hull]; [simpl in Hi; lia|].
  rewrite combine_nth by (simpl; rewrite length_app; simpl; lia).
  f_equal. cbn [tl firstn List.length] in *.
  destruct (Nat.eq_dec (S i) (S (List.length hull))) as [E|E].
  - rewrite E, Nat.Div0.mod_same. injection E as ->.
    rewrite app_nth2 by lia. now rewrite Nat.sub_diag.
  - rewrite Nat.mod_small by lia. rewrite app_nth1 by lia. reflexivity.
Qed.

End Calipers.

#[local] Existing Instance Examples.tables.

(** The lower side of the rectangle of the examples: the box on it is 4 high
    and 6 wide, the distance of the upper right corner and the distance
    between the right and the left corners. *)
Lemma candidate_encloses_rectangle :
  let c := candidateOf Examples.rectangleHull (mkPoint (- (3)) (- (2)), mkPoint 3 (- (2))) in
  let norm := CH_calcNormal (mkPoint 3 (- (2))) (mkPoint (- (3)) (- (2))) in
  let across := CH_calcNormal origin norm in
  CH_leftOfLine norm (mkPoint 3 2) (mkPoint 3 (- (2))) <= cand_dist c /\
  CH_leftOfLine across (mkPoint 3 2) (mkPoint 3 (- (2)))
  - CH_leftOfLine across (mkPoint (- (3)) 2) (mkPoint 3 (- (2))) <= cand_width c /\
  1 <= cand_dist c /\ 1 <= cand_width c.
Proof.
  apply (@candidate_encloses_hull _ Examples.rectangleHull); simpl; tauto.
Defined.

Lemma hullExtent_rectangle :
  hullExtent 0 Examples.rectangleHull = Some (- (3), - (2), 0) /\
  (- (3) <= m_x (turn 0 (mkPoint 3 2)) /\
   - (2) <= m_y (turn 0 (mkPoint 3 2)) /\ m_y (turn 0 (mkPoint 3 2)) <= 0) /\
  (- (3) <= m_x (hd origin Examples.rectangleHull) /\
   - (2) <= m_y (hd origin Examples.rectangleHull) /\
   m_y (hd origin Examples.rectangleHull) <= 0).
Proof.
  assert (hullExtent 0 Examples.rectangleHull = Some (- (3), - (2), 0)) as H
    by (vm_compute; reflexivity).
  split; [exact H|].
  apply (@hullExtent_bounds _ 0 Examples.rectangleHull _ _ _ (mkPoint 3 2) H).
  simpl. tauto.
Defined.

Lemma hullEdges_rectangle_closing :
  List.length (candidates Examples.rectangleHull) = 4%nat /\
  nth_error (hullEdges Examples.rectangleHull) 3
  = Some (mkPoint (- (3)) 2, mkPoint (- (3)) (- (2))).
Proof.
  apply (@hullEdges_cyclic _ Examples.rectangleHull 3). simpl. lia.
Defined.

End SplitterCalipers.

(* ================================================================= *)
(** * Component splitter: when a run is defined, and what the first loop
      does to the input *)

Module SplitterRun.

Import Splitter Splitter.GraphAttributes SplitterTheory SplitterFrame.
Local Open Scope Q_scope.

Section Defined.

Context {ext : Externals}.

Lemma replace_at_Some {A} (f : A -> A) l : forall i,
  (i < List.length l)%nat ->
  exists l', replace_at l i f = Some l' /\ List.length l' = List.length l.
Proof.
  induction l as [|a l IH]; intros i Hi; simpl in Hi; [lia|].
  destruct i as [|i]; simpl.
  - now exists (f a :: l).
  - destruct (IH i) as (l' & -> & Hlen); [lia|]. simpl.
    exists (a :: l'). split; [reflexivity | simpl; now rewrite Hlen].
Qed.

Lemma centreNodes_defined G avg_x avg_y nodes : forall (GA : t G) pts count,
  (count + List.length nodes <= List.length pts)%nat ->
  exists GA' pts',
    foldM (centreNode avg_x avg_y) nodes (GA, pts, count)
    = Some (GA', pts', (count + List.length nodes)%nat) /\
    List.length pts' = List.length pts /\ bends GA' = bends GA.
Proof.
  induction nodes as [|v nodes IH]; intros GA pts count Hlen; simpl in Hlen.
  - exists GA, pts. simpl. now rewrite Nat.add_0_r.
  - cbn [foldM]. unfold centreNode at 1.
    destruct (replace_at_Some (translate avg_x avg_y) pts (i := count))
      as (pts1 & -> & Hl1); [lia|]. cbn [bind].
    destruct (IH (set_y (set_x GA v (x GA v - avg_x)) v
                        (y (set_x GA v (x GA v - avg_x)) v - avg_y))
                 pts1 (S count)) as (GA' & pts' & Hrun & Hl & Hb); [lia|].
    exists GA', pts'. rewrite Hrun.
    split; [cbn [List.length]; now rewrite Nat.add_succ_r|].
    split; [congruence | exact Hb].
Qed.

Lemma centrePolyline_defined avg_x avg_y bs : forall pts count,
  (count + List.length bs <= List.length pts)%nat ->
  exists bs' pts',
    centrePolyline avg_x avg_y bs pts count
    = Some (bs', pts', (count + List.length bs)%nat) /\
    List.length pts' = List.length pts /\ List.length bs' = List.length bs.
Proof.
  induction bs as [|b bs IH]; intros pts count Hlen; simpl in Hlen.
  - exists [], pts. simpl. now rewrite Nat.add_0_r.
  - cbn [centrePolyline].
    destruct (replace_at_Some (translate avg_x avg_y) pts (i := count))
      as (pts1 & -> & Hl1); [lia|]. cbn [bind].
    destruct (IH pts1 (S count)) as (bs' & pts' & -> & Hl & Hb); [lia|].
    cbn [bind]. exists (translate avg_x avg_y b :: bs'), pts'.
    split; [cbn [List.length]; now rewrite Nat.add_succ_r|].
    split; [congruence | simpl; now rewrite Hb].
Qed.

Lemma bendPoints_length G (GA GA' : t G) edges :
  (forall e, List.length (bends GA' e) = List.length (bends GA e)) ->
  List.length (bendPoints GA' edges) = List.length (bendPoints GA edges).
Proof.
  intros H. unfold bendPoints. induction edges as [|e edges IH]; [reflexivity|].
  simpl. now rewrite !length_app, H, IH.
Qed.

Lemma centreEdges_defined G avg_x avg_y edges : forall (GA : t G) pts count,
  (count + List.length (bendPoints GA edges) <= List.length pts)%nat ->
  exists s, foldM (centreEdge avg_x avg_y) edges (GA, pts, count) = Some s.
Proof.
  induction edges as [|e edges IH]; intros GA pts count Hlen.
  - now exists (GA, pts, count).
  - unfold bendPoints in Hlen. simpl in Hlen. rewrite length_app in Hlen.
    cbn [foldM]. unfold centreEdge at 1.
    destruct (centrePolyline_defined avg_x avg_y (bends GA e) pts count)
      as (bs' & pts' & -> & Hl & Hb); [lia|]. cbn [bind].
    apply IH.
    rewrite (@bendPoints_length _ GA).
    + unfold bendPoints. lia.
    + intros e'. simpl. unfold update. destruct (Nat.eqb e' e) eqn:E; [|reflexivity].
      apply Nat.eqb_eq in E. now subst e'.
Qed.

Lemma centredHull_defined G (GA : t G) cc :
  exists GA' hull, centredHull GA cc = Some (GA', hull).
Proof.
  unfold centredHull, centre.
  destruct (collectPoints_spec GA cc) as (Hp & _).
  set (c := collectPoints GA cc) in *.
  set (avg_x := sum_x c / divisor cc c). set (avg_y := sum_y c / divisor cc c).
  destruct (@centreNodes_defined _ avg_x avg_y (cc_nodes cc) GA (points c) 0%nat)
    as (GA1 & pts1 & -> & Hl1 & Hb1).
  { rewrite Hp, length_app, length_nodePoints. lia. }
  cbn [bind]. destruct (has GA edgeGraphics) eqn:Hhas.
  - destruct (@centreEdges_defined _ avg_x avg_y (cc_edges cc) GA1 pts1
                (0 + List.length (cc_nodes cc))%nat) as ([[GA2 pts2] n] & ->).
    { rewrite (@bendPoints_length _ GA) by (intros e; now rewrite Hb1).
      rewrite Hl1, Hp, length_app, length_nodePoints. lia. }
    cbn [bind]. now exists GA2, (CH_call pts2).
  - cbn [bind]. now exists GA1, (CH_call pts1).
Qed.

Lemma hullsOf_defined G ccs : forall (GA : t G),
  exists hulls, hullsOf GA ccs = Some hulls /\ List.length hulls = List.length ccs.
Proof.
  induction ccs as [|cc ccs IH]; intros GA; simpl.
  - now exists [].
  - destruct (centredHull_defined GA cc) as (GA1 & hull & ->). cbn [bind].
    destruct (IH GA1) as (hulls & -> & Hlen). cbn [bind].
    exists (hull :: hulls). split; [reflexivity | simpl; now rewrite Hlen].
Qed.

(** X11. The centring never reads the local point vector out of range:
    [points.at(count)] does not throw, whatever the lists of a component are
    (also with no node, or with a node or an edge listed twice).  So the
    centring of a component and the computation of its hull always go
    through, and the first loop computes one hull per component. *)
Theorem centring_never_out_of_range G (GA : t G) :
  (forall cc, exists GA' hull, centredHull GA cc = Some (GA', hull)) /\
  (forall ccs, exists hulls,
     hullsOf GA ccs = Some hulls /\ List.length hulls = List.length ccs).
Proof.
  split; [apply centredHull_defined | intros ccs; apply hullsOf_defined].
Qed.

(** ** When a run is defined *)

Lemma boxOf_defined_iff border hull :
  (exists pl, boxOf border hull = Some pl) <-> boxable border hull.
Proof.
  unfold boxable, sidesOf, boxOf.
  destruct (orientation (degenerate hull (findBest hull))) as [[angle w] h].
  cbn [fst snd]. split.
  - intros (pl & H). apply bind_Some in H as ([[l t'] bt] & Hext & H).
    apply bind_Some in H as (bx & Hbx & _). split.
    { intros ->. discriminate. }
    unfold saveRect in Hbx.
    apply bind_Some in Hbx as (wi & Hw & Hbx).
    apply bind_Some in Hbx as (hi & Hh & Hbx).
    apply bind_Some in Hbx as (bw & Hbw & Hbx).
    apply bind_Some in Hbx as (bh & Hbh & _).
    unfold static_cast_int in Hw, Hh.
    destruct (in_int (truncate w)) eqn:Ew; [|discriminate].
    destruct (in_int (truncate h)) eqn:Eh; [|discriminate].
    injection Hw as <-. injection Hh as <-. unfold int_add in Hbw, Hbh.
    destruct (in_int (truncate w + border)); [|discriminate].
    destruct (in_int (truncate h + border)); [|discriminate]. now repeat split.
  - intros (Hne & Hw & Hh & Hbw & Hbh).
    destruct hull as [|front hull']; [congruence|]. cbn [hullExtent bind].
    destruct (fold_left _ _ _) as [[l t'] bt]. cbn [bind].
    unfold saveRect, static_cast_int, int_add. rewrite Hw, Hh. cbn [bind].
    rewrite Hbw, Hbh. cbn [bind]. eexists. reflexivity.
Qed.

Lemma analyseAll_defined_iff G border ccs : forall (GA : t G) done hulls,
  hullsOf GA ccs = Some hulls ->
  (exists GA' pls, analyseAll border GA ccs done = Some (GA', pls)) <->
  Forall (boxable border) hulls.
Proof.
  induction ccs as [|cc ccs IH]; intros GA done hulls Hh; simpl in Hh.
  - injection Hh as <-. split; [constructor | intros _; now exists GA, done].
  - apply bind_Some in Hh as ([GA1 hull] & Hc & Hh).
    apply bind_Some in Hh as (hulls' & Hh & [= <-]).
    cbn [analyseAll]. unfold analyse. rewrite Hc. cbn [bind]. split.
    + intros (GA' & pls & H). apply bind_Some in H as ([GA2 pl] & Hb & H).
      apply bind_Some in Hb as (pl' & Hb & [= <- <-]). constructor.
      * apply boxOf_defined_iff. now exists pl'.
      * apply (IH GA1 (done ++ [pl']) hulls' Hh). now exists GA', pls.
    + intros H. inversion H as [|? ? Hb Hrest]; subst.
      apply boxOf_defined_iff in Hb as (pl & ->). cbn [bind].
      now apply (IH GA1 (done ++ [pl]) hulls' Hh).
Qed.

Lemma foldM_total {S A} (f : S -> A -> option S) l :
  (forall s a, exists s', f s a = Some s') ->
  forall s, exists s', foldM f l s = Some s'.
Proof.
  intros Hf. induction l as [|a l IH]; intros s; simpl; [now exists s|].
  destruct (Hf s a) as (s1 & ->). apply IH.
Qed.

Lemma mapM_total {A B} (f : A -> option B) l :
  (forall a, exists b, f a = Some b) -> exists bs, mapM f l = Some bs.
Proof.
  intros Hf. induction l as [|a l (bs & IH)]; simpl; [now exists []|].
  destruct (Hf a) as (b & ->). cbn [bind]. rewrite IH. now exists (b :: bs).
Qed.

Lemma rotatePoint_defined rot (off : list IPoint) (old : list DPoint) p i :
  (i < List.length rot)%nat -> (i < List.length off)%nat ->
  (i < List.length old)%nat ->
  exists q, rotatePoint rot off old p i = Some q.
Proof.
  intros H1 H2 H3. unfold rotatePoint.
  destruct (nth_error rot i) eqn:E1; [|apply nth_error_None in E1; lia].
  destruct (nth_error off i) eqn:E2; [|apply nth_error_None in E2; lia].
  destruct (nth_error old i) eqn:E3; [|apply nth_error_None in E3; lia].
  cbn [bind]. eexists. reflexivity.
Qed.

Lemma transformAll_defined G rot (off : list IPoint) (old : list DPoint) ccs :
  forall index (GA : t G),
    (index + List.length ccs <= List.length rot)%nat ->
    (index + List.length ccs <= List.length off)%nat ->
    (index + List.length ccs <= List.length old)%nat ->
    exists GA', transformAll rot off old index GA ccs = Some GA'.
Proof.
  induction ccs as [|cc ccs IH]; intros index GA H1 H2 H3; simpl in *.
  - now exists GA.
  - assert (exists GA1, transformComponent rot off old index GA cc = Some GA1)
      as (GA1 & ->).
    { unfold transformComponent.
      destruct (@foldM_total _ _ (@transformNode _ rot off old G index) (cc_nodes cc))
        with (s := GA) as (GA1 & ->).
      { intros s v. unfold transformNode.
        destruct (@rotatePoint_defined rot off old (mkPoint (x s v) (y s v)) index)
          as (q & ->); [lia | lia | lia |]. cbn [bind]. eexists. reflexivity. }
      cbn [bind]. destruct (has GA1 edgeGraphics); [|now exists GA1].
      apply foldM_total. intros s e. unfold transformEdge.
      destruct (mapM_total (fun bend => rotatePoint rot off old bend index) (bends s e))
        as (bs & ->).
      { intros p. apply rotatePoint_defined; lia. }
      cbn [bind]. eexists. reflexivity. }
    cbn [bind]. apply IH; lia.
Qed.

(** X12. With a packer that hands back one offset per box, a run of
    [reassembleDrawings] is defined exactly when every hull of the first loop
    has a point and the casts and sums of "save rect" stay within [int]; the
    array reads of [rotatePoint] are then in range. *)
Theorem reassembleDrawings_defined_iff G (self : ComponentSplitterLayout)
  (GA : t G) (ccs : CCsInfo) hulls packer :
  hullsOf GA ccs = Some hulls ->
  m_packer self = Some packer ->
  (forall bx,
     List.length (packer bx (repeat (mkPoint 0%Z 0%Z) (List.length bx))
                         (m_targetRatio self))
     = List.length bx) ->
  (exists GA' log, reassembleDrawings self GA ccs = Some (GA', log)) <->
  Forall (boxable (m_border self)) hulls.
Proof.
  intros Hh Hp Hlen. rewrite <- (analyseAll_defined_iff (m_border self) ccs GA [] Hh).
  split.
  - intros (GA' & log & H).
    apply reassembleDrawings_inv in H as (GA1 & pls & _ & Han & _).
    now exists GA1, pls.
  - intros (GA1 & pls & Han). unfold reassembleDrawings. rewrite Han. cbn [bind].
    rewrite Hp. cbn [bind].
    pose proof (analyseAll_length _ _ _ _ Han) as Hl. simpl in Hl.
    destruct (@transformAll_defined G (map rotation pls)
                (packer (map box pls)
                        (repeat (mkPoint 0%Z 0%Z) (List.length (map box pls)))
                        (m_targetRatio self))
                (map oldOffset pls) ccs 0%nat GA1) as (GA' & ->).
    + rewrite length_map. lia.
    + rewrite Hlen, length_map. lia.
    + rewrite length_map. lia.
    + cbn [bind]. eexists. eexists. reflexivity.
Qed.

(** ** The first loop, seen from the input *)

Lemma fold_left_ext_in {S A} (f g : S -> A -> S) l :
  (forall s a, In a l -> f s a = g s a) ->
  forall s, fold_left f l s = fold_left g l s.
Proof.
  induction l as [|a l IH]; intros H s; simpl; [reflexivity|].
  rewrite (H s a (or_introl eq_refl)). apply IH.
  intros s' a' Ha'. apply H. now right.
Qed.

(** The collected points and sums depend on the positions of the
    component's nodes and on the bends of its edges only. *)
Lemma collectPoints_ext G (GA GA' : t G) cc :
  attributes GA' = attributes GA ->
  (forall v, In v (cc_nodes cc) -> x GA' v = x GA v /\ y GA' v = y GA v) ->
  (forall e, In e (cc_edges cc) -> bends GA' e = bends GA e) ->
  collectPoints GA' cc = collectPoints GA cc.
Proof.
  intros Hattr Hn He. unfold collectPoints, has. rewrite Hattr.
  assert (forall c, collectNodes GA' (cc_nodes cc) c = collectNodes GA (cc_nodes cc) c)
    as ->.
  { intros c. unfold collectNodes. apply fold_left_ext_in.
    intros s v Hv. destruct (Hn v Hv) as [-> ->]. reflexivity. }
  destruct (attributes GA edgeGraphics); [|reflexivity].
  unfold collectBends. apply fold_left_ext_in.
  intros s e Hin. now rewrite (He e Hin).
Qed.

(** The centring of one component, on lists without repetition. *)
Lemma centre_spec G (GA : t G) cc avg_x avg_y :
  NoDup (cc_nodes cc) -> NoDup (cc_edges cc) ->
  exists GA',
    centre GA cc (points (collectPoints GA cc)) avg_x avg_y
    = Some (GA', map (translate avg_x avg_y) (points (collectPoints GA cc)),
            List.length (points (collectPoints GA cc))) /\
    (forall v, In v (cc_nodes cc) ->
               x GA' v = x GA v - avg_x /\ y GA' v = y GA v - avg_y) /\
    (has GA edgeGraphics = true ->
     forall e, In e (cc_edges cc) ->
               bends GA' e = map (translate avg_x avg_y) (bends GA e)).
Proof.
  intros Hnd_n Hnd_e.
  destruct (collectPoints_spec GA cc) as (Hp & _). rewrite Hp.
  unfold centre.
  destruct (@centreNodes_spec G avg_x avg_y (cc_nodes cc) GA []
              (nodePoints GA (cc_nodes cc))
              (if has GA edgeGraphics then bendPoints GA (cc_edges cc) else []))
    as (GA1 & Hrun1 & Hattr1 & Hbends1 & Hin1 & _);
    [apply length_nodePoints | exact Hnd_n |].
  cbn [app List.length plus] in Hrun1. rewrite Hrun1. cbn [bind].
  destruct (has GA edgeGraphics) eqn:Hhas.
  - destruct (@centreEdges_spec G avg_x avg_y (cc_edges cc) GA1
                (map (translate avg_x avg_y) (nodePoints GA (cc_nodes cc)))
                (bendPoints GA (cc_edges cc)) [])
      as (GA2 & Hrun2 & Hattr2 & Hx2 & Hy2 & Hin2 & _);
      [unfold bendPoints; now rewrite Hbends1 | exact Hnd_e |].
    rewrite length_map, length_nodePoints, !app_nil_r in Hrun2.
    exists GA2. split; [|split].
    + rewrite Hrun2, map_app, length_app, length_nodePoints. reflexivity.
    + intros v Hv. rewrite Hx2, Hy2. now apply Hin1.
    + intros _ e He. rewrite (Hin2 e He), Hbends1. reflexivity.
  - exists GA1. split; [|split].
    + rewrite !app_nil_r, length_nodePoints. reflexivity.
    + exact Hin1.
    + discriminate.
Qed.

Lemma first_loop_spec G border ccs : forall (GA : t G) done GA' pls,
  NoDup (flat_map cc_nodes ccs) -> NoDup (flat_map cc_edges ccs) ->
  analyseAll border GA ccs done = Some (GA', pls) ->
  forall cc, In cc ccs ->
    (forall v, In v (cc_nodes cc) ->
       x GA' v = x GA v - sum_x (collectPoints GA cc) / divisor cc (collectPoints GA cc) /\
       y GA' v = y GA v - sum_y (collectPoints GA cc) / divisor cc (collectPoints GA cc)) /\
    (has GA edgeGraphics = true ->
     forall e, In e (cc_edges cc) ->
       bends GA' e
       = map (translate (sum_x (collectPoints GA cc) / divisor cc (collectPoints GA cc))
                        (sum_y (collectPoints GA cc) / divisor cc (collectPoints GA cc)))
             (bends GA e)).
Proof.
  induction ccs as [|cc0 ccs IH]; intros GA done GA' pls Hnd_n Hnd_e H cc Hcc;
    [contradiction|].
  simpl in H, Hnd_n, Hnd_e.
  apply bind_Some in H as ([GA1 pl] & Han & Hrest).
  unfold analyse, centredHull in Han.
  apply bind_Some in Han as ([GA2 hull] & Hc & Han).
  apply bind_Some in Han as (pl' & _ & [= <- _]).
  apply bind_Some in Hc as ([[GA3 pts] cnt] & Hc & [= <- _]).
  destruct (@centre_spec G GA cc0
              (sum_x (collectPoints GA cc0) / divisor cc0 (collectPoints GA cc0))
              (sum_y (collectPoints GA cc0) / divisor cc0 (collectPoints GA cc0))
              (NoDup_app_remove_r _ _ Hnd_n) (NoDup_app_remove_r _ _ Hnd_e))
    as (GA3' & Hc' & Hn0 & He0).
  rewrite Hc in Hc'. injection Hc' as <- _ _.
  pose proof (centre_frame _ _ _ _ _ Hc) as [(Hsz0 & _ & Hout0n & Hout0e) Hb0].
  pose proof (analyseAll_frame _ _ _ _ Hrest) as [(Hsz1 & _ & Hout1n & Hout1e) Hb1].
  assert (has GA3 edgeGraphics = has GA edgeGraphics) as Hhas
    by apply (has_sameSizes _ Hsz0).
  destruct Hcc as [<-|Hcc].
  - split.
    + intros v Hv.
      destruct (Hout1n v (NoDup_app_disjoint _ _ Hnd_n v Hv)) as [-> ->].
      now apply Hn0.
    + intros Hg e He.
      rewrite (Hout1e e (NoDup_app_disjoint _ _ Hnd_e e He)). now apply He0.
  - assert (forall v, In v (cc_nodes cc) -> ~ In v (cc_nodes cc0)) as Hdn.
    { intros v Hv H0. apply (NoDup_app_disjoint _ _ Hnd_n v H0).
      apply in_flat_map. now exists cc. }
    assert (forall e, In e (cc_edges cc) -> ~ In e (cc_edges cc0)) as Hde.
    { intros e He H0. apply (NoDup_app_disjoint _ _ Hnd_e e H0).
      apply in_flat_map. now exists cc. }
    assert (collectPoints GA3 cc = collectPoints GA cc) as Hcol.
    { apply collectPoints_ext.
      - apply Hsz0.
      - intros v Hv. now apply Hout0n, Hdn.
      - intros e He. now apply Hout0e, Hde. }
    destruct (IH GA3 _ _ _ (NoDup_app_remove_l _ _ Hnd_n) (NoDup_app_remove_l _ _ Hnd_e)
                Hrest cc Hcc) as [Hn He].
    rewrite Hcol in Hn, He. split.
    + intros v Hv. destruct (Hn v Hv) as [-> ->].
      destruct (Hout0n v (Hdn v Hv)) as [-> ->]. now split.
    + intros Hg e Hin. rewrite He by (now rewrite Hhas) || exact Hin.
      now rewrite (Hout0e e (Hde e Hin)).
Qed.

Lemma mapM_map {A B C} (f : B -> option C) (g : A -> B) l :
  mapM f (map g l) = mapM (fun a => f (g a)) l.
Proof.
  induction l as [|a l IH]; simpl; [reflexivity|]. now rewrite IH.
Qed.

(** X13. On components that share no node and no edge, a run of
    [reassembleDrawings] moves each component as a whole, and by what the
    input drawing gives: every node and every bend of component [j] ends at
    [rotatePoint] with index [j] of its input position minus the mean of the
    component's input points.  The centring of one component does not change
    what is read for another. *)
Theorem reassembleDrawings_from_input G (self : ComponentSplitterLayout)
  (GA GA' : t G) (ccs : CCsInfo) log :
  NoDup (flat_map cc_nodes ccs) -> NoDup (flat_map cc_edges ccs) ->
  reassembleDrawings self GA ccs = Some (GA', log) ->
  exists rot off old,
    List.length rot = List.length ccs /\ List.length old = List.length ccs /\
    forall j cc, nth_error ccs j = Some cc ->
      (forall v, In v (cc_nodes cc) ->
         rotatePoint rot off old
           (translate (sum_x (collectPoints GA cc) / divisor cc (collectPoints GA cc))
                      (sum_y (collectPoints GA cc) / divisor cc (collectPoints GA cc))
                      (mkPoint (x GA v) (y GA v))) j
         = Some (mkPoint (x GA' v) (y GA' v))) /\
      (has GA edgeGraphics = true ->
       forall e, In e (cc_edges cc) ->
         mapM (fun bend =>
                 rotatePoint rot off old
                   (translate
                      (sum_x (collectPoints GA cc) / divisor cc (collectPoints GA cc))
                      (sum_y (collectPoints GA cc) / divisor cc (collectPoints GA cc))
                      bend) j)
              (bends GA e)
         = Some (bends GA' e)).
Proof.
  intros Hnd_n Hnd_e H.
  apply reassembleDrawings_inv in H as (GA1 & pls & packer & Han & _ & Htr & _).
  pose proof (analyseAll_length _ _ _ _ Han) as Hlen. simpl in Hlen.
  eexists (map rotation pls), _, (map oldOffset pls).
  split; [now rewrite length_map|]. split; [now rewrite length_map|].
  intros j cc Hj.
  destruct (@first_loop_spec _ _ _ _ _ _ _ Hnd_n Hnd_e Han cc (nth_error_In _ _ Hj))
    as [Hn He].
  apply transformAll_spec in Htr as (_ & Hcomp & _); [|exact Hnd_n|exact Hnd_e].
  destruct (Hcomp j cc Hj) as [Htn Hte]. simpl in Htn, Hte.
  pose proof (analyseAll_frame _ _ _ _ Han) as [(Hsz & _) _].
  split.
  - intros v Hv. rewrite <- (Htn v Hv). destruct (Hn v Hv) as [-> ->]. reflexivity.
  - intros Hg e Hin. rewrite <- (Hte (eq_trans (has_sameSizes _ Hsz) Hg) e Hin).
    rewrite (He Hg e Hin). symmetry. apply mapM_map.
Qed.

(** ** The centroid and what is computed from the centred points *)

Lemma fold_left_snoc {A B} (f : A -> B -> A) l b a :
  fold_left f (l ++ [b]) a = f (fold_left f l a) b.
Proof. now rewrite fold_left_app. Qed.

Lemma push_back_summed c dp : summed c -> summed (push_back c dp).
Proof.
  intros [Hx Hy]. unfold summed, push_back. cbn [points sum_x sum_y].
  now rewrite !fold_left_snoc, <- Hx, <- Hy.
Qed.

Lemma collectPoints_summed G (GA : t G) cc : summed (collectPoints GA cc).
Proof.
  unfold collectPoints.
  assert (summed (collectNodes GA (cc_nodes cc) (mkCollected [] 0 0 0))) as Hn.
  { unfold collectNodes.
    apply (fold_left_invariant
             (fun c v => push_back c (mkPoint (x GA v) (y GA v))) summed).
    - intros c v _. apply push_back_summed.
    - now split. }
  destruct (has GA edgeGraphics); [|exact Hn].
  unfold collectBends.
  apply (fold_left_invariant
           (fun c e =>
              mkCollected (points (fold_left push_back (bends GA e) c))
                          (sum_x (fold_left push_back (bends GA e) c))
                          (sum_y (fold_left push_back (bends GA e) c))
                          (nbBends (fold_left push_back (bends GA e) c)
                           + List.length (bends GA e))) summed); [|exact Hn].
  intros c e _ Hc.
  assert (summed (fold_left push_back (bends GA e) c)) as Hb.
  { apply (fold_left_invariant push_back summed); [|exact Hc].
    intros c' dp _. apply push_back_summed. }
  exact Hb.
Qed.

(** The hulls of the first loop, from the input: the centring of one
    component does not change the points collected for another. *)
Lemma hullsOf_spec G ccs : forall (GA : t G),
  NoDup (flat_map cc_nodes ccs) -> NoDup (flat_map cc_edges ccs) ->
  hullsOf GA ccs
  = Some (map (fun cc =>
                 CH_call
                   (map (translate
                           (sum_x (collectPoints GA cc) / divisor cc (collectPoints GA cc))
                           (sum_y (collectPoints GA cc) / divisor cc (collectPoints GA cc)))
                        (points (collectPoints GA cc))))
              ccs).
Proof.
  induction ccs as [|cc0 ccs IH]; intros GA Hnd_n Hnd_e; [reflexivity|].
  simpl in Hnd_n, Hnd_e. cbn [hullsOf map]. unfold centredHull.
  destruct (@centre_spec G GA cc0
              (sum_x (collectPoints GA cc0) / divisor cc0 (collectPoints GA cc0))
              (sum_y (collectPoints GA cc0) / divisor cc0 (collectPoints GA cc0))
              (NoDup_app_remove_r _ _ Hnd_n) (NoDup_app_remove_r _ _ Hnd_e))
    as (GA1 & Hc & _ & _).
  rewrite Hc. cbn [bind].
  pose proof (centre_frame _ _ _ _ _ Hc) as [(Hsz0 & _ & Hout0n & Hout0e) _].
  rewrite (IH GA1 (NoDup_app_remove_l _ _ Hnd_n) (NoDup_app_remove_l _ _ Hnd_e)).
  cbn [bind]. do 2 f_equal. apply map_ext_in. intros cc Hcc.
  assert (collectPoints GA1 cc = collectPoints GA cc) as ->; [|reflexivity].
  apply collectPoints_ext.
  - apply Hsz0.
  - intros v Hv. apply Hout0n. intros H0.
    apply (NoDup_app_disjoint _ _ Hnd_n v H0). apply in_flat_map. now exists cc.
  - intros e He. apply Hout0e. intros H0.
    apply (NoDup_app_disjoint _ _ Hnd_e e H0). apply in_flat_map. now exists cc.
Qed.

Lemma Forall2_nth_error {A B} (R : A -> B -> Prop) l l' :
  Forall2 R l l' ->
  forall j a, nth_error l j = Some a -> exists b, nth_error l' j = Some b /\ R a b.
Proof.
  induction 1 as [|a0 b0 l l' Hab _ IH]; intros j a Hj.
  - destruct j; discriminate.
  - destruct j as [|j]; simpl in Hj.
    + injection Hj as <-. now exists b0.
    + now apply IH.
Qed.

(** C7, as amended.  In a run of [reassembleDrawings] on components that
    share no node and no edge, for every component: the collected points are
    the node positions followed by the bends (when the attributes hold
    bends), each once; the centroid is the running sum of these points, in
    this order and from 0, over their number; the first loop leaves every
    node and every bend of the component at its input position minus the
    centroid; and the hull that is boxed for the component is the hull of the
    collected points minus the centroid, so that the box, the rotation and
    the old offset of the component, and with them the final transform, are
    computed from centroid-relative points. *)
Theorem centring_subtracts_centroid G (self : ComponentSplitterLayout)
  (GA GA' : t G) (ccs : CCsInfo) log :
  NoDup (flat_map cc_nodes ccs) -> NoDup (flat_map cc_edges ccs) ->
  reassembleDrawings self GA ccs = Some (GA', log) ->
  exists centred pls packer,
    analyseAll (m_border self) GA ccs [] = Some (centred, pls) /\
    m_packer self = Some packer /\
    log = [PackerCall (map box pls) (m_targetRatio self)] /\
    transformAll (map rotation pls)
                 (packer (map box pls)
                         (repeat (mkPoint 0%Z 0%Z) (List.length (map box pls)))
                         (m_targetRatio self))
                 (map oldOffset pls) O centred ccs = Some GA' /\
    forall j cc, nth_error ccs j = Some cc ->
      points (collectPoints GA cc)
      = nodePoints GA (cc_nodes cc)
        ++ (if has GA edgeGraphics then bendPoints GA (cc_edges cc) else []) /\
      sum_x (collectPoints GA cc)
      = fold_left (fun s p => s + m_x p) (points (collectPoints GA cc)) 0 /\
      sum_y (collectPoints GA cc)
      = fold_left (fun s p => s + m_y p) (points (collectPoints GA cc)) 0 /\
      divisor cc (collectPoints GA cc)
      = inject_Z (Z.of_nat (List.length (points (collectPoints GA cc)))) /\
      (forall v, In v (cc_nodes cc) ->
         x centred v
         = x GA v - sum_x (collectPoints GA cc) / divisor cc (collectPoints GA cc) /\
         y centred v
         = y GA v - sum_y (collectPoints GA cc) / divisor cc (collectPoints GA cc)) /\
      (has GA edgeGraphics = true ->
       forall e, In e (cc_edges cc) ->
         bends centred e
         = map (translate
                  (sum_x (collectPoints GA cc) / divisor cc (collectPoints GA cc))
                  (sum_y (collectPoints GA cc) / divisor cc (collectPoints GA cc)))
               (bends GA e)) /\
      exists pl,
        nth_error pls j = Some pl /\
        boxOf (m_border self)
              (CH_call
                 (map (translate
                         (sum_x (collectPoints GA cc) / divisor cc (collectPoints GA cc))
                         (sum_y (collectPoints GA cc) / divisor cc (collectPoints GA cc)))
                      (points (collectPoints GA cc))))
        = Some pl.
Proof.
  intros Hnd_n Hnd_e Hrun.
  apply reassembleDrawings_inv in Hrun as (centred & pls & packer & Han & Hp & Htr & Hlog).
  exists centred, pls, packer.
  split; [exact Han|]. split; [exact Hp|]. split; [exact Hlog|]. split; [exact Htr|].
  intros j cc Hj.
  destruct (collectPoints_spec GA cc) as (Hpts & _ & _ & Hdiv).
  destruct (collectPoints_summed GA cc) as [Hsx Hsy].
  destruct (@first_loop_spec _ _ _ _ _ _ _ Hnd_n Hnd_e Han cc (nth_error_In _ _ Hj))
    as [Hn He].
  split; [exact Hpts|]. split; [exact Hsx|]. split; [exact Hsy|].
  split; [exact Hdiv|]. split; [exact Hn|]. split; [exact He|].
  pose proof Han as Han'.
  apply analyseAll_placements in Han' as (hulls & new & Hhulls & -> & Hall).
  rewrite app_nil_l. rewrite (@hullsOf_spec G ccs GA Hnd_n Hnd_e) in Hhulls.
  injection Hhulls as <-.
  match type of Hall with
  | Forall2 _ (map ?f _) _ => pose proof (map_nth_error f _ _ Hj) as Hm
  end.
  destruct (@Forall2_nth_error _ _ _ _ _ Hall j _ Hm) as (pl & Hpl & Hbox).
  exists pl. split; [exact Hpl | exact Hbox].
Qed.

End Defined.

#[local] Existing Instance Examples.tables.

Lemma rowPacker_length bx : forall at_x,
  List.length (Examples.rowPacker' bx at_x) = List.length bx.
Proof.
  induction bx as [|b bx IH]; intros at_x; simpl; [reflexivity|]. now rewrite IH.
Qed.

Lemma rectangle_hullsOf :
  exists hulls, hullsOf Examples.rectangleGA Examples.twoComponents = Some hulls.
Proof. eexists. vm_compute. reflexivity. Qed.

Lemma reassembleDrawings_defined_rectangle :
  exists hulls,
    hullsOf Examples.rectangleGA Examples.twoComponents = Some hulls /\
    ((exists GA' log,
        reassembleDrawings (ComponentSplitterLayout_new Examples.rowPacker)
                           Examples.rectangleGA Examples.twoComponents
        = Some (GA', log)) <->
     Forall (boxable 30) hulls).
Proof.
  destruct rectangle_hullsOf as [hulls Hh]. exists hulls. split; [exact Hh|].
  refine (@reassembleDrawings_defined_iff _ _
            (ComponentSplitterLayout_new Examples.rowPacker)
            Examples.rectangleGA Examples.twoComponents hulls Examples.rowPacker
            Hh eq_refl _).
  intros bx. apply rowPacker_length.
Defined.

Lemma reassembleDrawings_from_input_rectangle :
  exists GA' rot off old,
    reassembleDrawings (ComponentSplitterLayout_new Examples.rowPacker)
                       Examples.rectangleGA Examples.twoComponents
    = Some (GA', [PackerCall [mkPoint 36%Z 34%Z; mkPoint 31%Z 31%Z] 1]) /\
    List.length rot = 2%nat /\ List.length old = 2%nat /\
    forall j cc, nth_error Examples.twoComponents j = Some cc ->
      (forall v, In v (cc_nodes cc) ->
         rotatePoint rot off old
           (translate
              (sum_x (collectPoints Examples.rectangleGA cc)
               / divisor cc (collectPoints Examples.rectangleGA cc))
              (sum_y (collectPoints Examples.rectangleGA cc)
               / divisor cc (collectPoints Examples.rectangleGA cc))
              (mkPoint (x Examples.rectangleGA v) (y Examples.rectangleGA v))) j
         = Some (mkPoint (x GA' v) (y GA' v))) /\
      (has Examples.rectangleGA edgeGraphics = true ->
       forall e, In e (cc_edges cc) ->
         mapM (fun bend =>
                 rotatePoint rot off old
                   (translate
                      (sum_x (collectPoints Examples.rectangleGA cc)
                       / divisor cc (collectPoints Examples.rectangleGA cc))
                      (sum_y (collectPoints Examples.rectangleGA cc)
                       / divisor cc (collectPoints Examples.rectangleGA cc))
                      bend) j)
              (bends Examples.rectangleGA e)
         = Some (bends GA' e)).
Proof.
  destruct rectangle_run as [GA' Hrun]. exists GA'.
  destruct (@reassembleDrawings_from_input _ _ _ _ _ _ _
              NoDup_nodes_twoComponents NoDup_edges_twoComponents Hrun)
    as (rot & off & old & H).
  exists rot, off, old. split; [exact Hrun | exact H].
Defined.

Lemma centring_subtracts_centroid_rectangle :
  exists GA' centred pls,
    reassembleDrawings (ComponentSplitterLayout_new Examples.rowPacker)
                       Examples.rectangleGA Examples.twoComponents
    = Some (GA', [PackerCall [mkPoint 36%Z 34%Z; mkPoint 31%Z 31%Z] 1]) /\
    analyseAll 30 Examples.rectangleGA Examples.twoComponents []
    = Some (centred, pls) /\
    (forall v, In v [0; 1; 2; 3]%nat ->
       x centred v = x Examples.rectangleGA v - (0 + 10 + 16 + 16 + 10 + 10) / inject_Z 5 /\
       y centred v = y Examples.rectangleGA v - (0 + 20 + 20 + 24 + 24 + 22) / inject_Z 5) /\
    exists pl,
      nth_error pls 0 = Some pl /\
      boxOf 30
            (map (translate ((0 + 10 + 16 + 16 + 10 + 10) / inject_Z 5)
                            ((0 + 20 + 20 + 24 + 24 + 22) / inject_Z 5))
                 [mkPoint 10 20; mkPoint 16 20; mkPoint 16 24; mkPoint 10 24;
                  mkPoint 10 22])
      = Some pl.
Proof.
  destruct rectangle_run as [GA' Hrun]. exists GA'.
  destruct (@centring_subtracts_centroid _ _ _ _ _ _ _
              NoDup_nodes_twoComponents NoDup_edges_twoComponents Hrun)
    as (centred & pls & packer & Han & _ & _ & _ & Hcc).
  exists centred, pls. split; [exact Hrun|]. split; [exact Han|].
  destruct (Hcc 0%nat (mkComponent [0; 1; 2; 3]%nat [0; 1; 2; 3]%nat) eq_refl)
    as (_ & _ & _ & _ & Hn & _ & Hpl).
  split; [exact Hn | exact Hpl].
Defined.

(** C7, as stated, fails in the doubles of the code.  On the five points of
    the first component of the examples the x add up to 62 and the centroid
    gets the double next to 12.4 as its x; the centred x are the doubles
    10 - 12.4 (at three points) and 16 - 12.4 (at two), and their arithmetic
    mean is -2^-49 / 5, not 0. *)
Lemma centred_mean_off_origin_in_doubles :
  mean (map (fun p => SplitterDouble.exact (m_x p))
            (SplitterDouble.centre Examples.rectanglePoints))
  == - (1 # 562949953421312) / 5 /\
  ~ (mean (map (fun p => SplitterDouble.exact (m_x p))
               (SplitterDouble.centre Examples.rectanglePoints)) == 0 /\
     mean (map (fun p => SplitterDouble.exact (m_y p))
               (SplitterDouble.centre Examples.rectanglePoints)) == 0).
Proof.
  split; [vm_compute; reflexivity|].
  intros [H _]. vm_compute in H. discriminate H.
Qed.

End SplitterRun.
